(** * ccscanner: a shallow embedding of the cache, the analyzer, the resolver,
      the scan engine and the Ninja extractor, with the properties of the
      specification settled against it.

    Go strings are byte strings ([string]); Go maps are [gmap]s; the order in
    which a Go [range] loop visits a map is unspecified, so every such loop
    takes its visiting order from an explicit oracle that is only known to
    return a permutation of the map's bindings. *)

From Stdlib Require Import ZArith NArith Ascii String DecimalString List Sorted Permutation Lia.
From stdpp Require Import base option list strings gmap fin_maps sorting.

Local Open Scope string_scope.
Local Open Scope list_scope.

(** ** Go's [strings] package, the part the sources use *)

Module GoStrings.

(** [strings.HasPrefix(s, p)] *)
Fixpoint has_prefix (p s : string) : bool :=
  match p with
  | EmptyString => true
  | String a p' =>
      match s with
      | EmptyString => false
      | String b s' => Ascii.eqb b a && has_prefix p' s'
      end
  end.

Definition HasPrefix (s p : string) : bool := has_prefix p s.

(** [strings.Contains(s, sub)] *)
Fixpoint Contains (s sub : string) : bool :=
  if has_prefix sub s then true
  else match s with
       | EmptyString => false
       | String _ s' => Contains s' sub
       end.

(** [s[n:]] for [n <= len(s)] *)
Fixpoint drop_bytes (n : nat) (s : string) : string :=
  match n, s with
  | S k, String _ s' => drop_bytes k s'
  | _, _ => s
  end.

(** [strings.Split(s, sep)] for a non-empty separator: the pieces between
    the leftmost non-overlapping occurrences of [sep].  [skip] counts the
    separator bytes still to be passed over. *)
Definition push_head (c : ascii) (pieces : list string) : list string :=
  match pieces with
  | p :: ps => String c p :: ps
  | [] => [String c EmptyString]
  end.

Fixpoint split_go (sep : string) (skip : nat) (s : string) : list string :=
  match skip with
  | S k =>
      match s with
      | String _ s' => split_go sep k s'
      | EmptyString => [EmptyString]
      end
  | O =>
      match s with
      | EmptyString => [EmptyString]
      | String c s' =>
          if has_prefix sep s
          then EmptyString :: split_go sep (String.length sep - 1) s'
          else push_head c (split_go sep 0 s')
      end
  end.

Definition Split (s sep : string) : list string := split_go sep 0 s.

(** [strings.Join(parts, sep)] *)
Fixpoint Join (parts : list string) (sep : string) : string :=
  match parts with
  | [] => EmptyString
  | [p] => p
  | p :: rest => p ++ sep ++ Join rest sep
  end.

(** [strings.ReplaceAll(s, old, new)] for a non-empty [old]. *)
Fixpoint replace_go (old new : string) (skip : nat) (s : string) : string :=
  match skip with
  | S k =>
      match s with
      | String _ s' => replace_go old new k s'
      | EmptyString => EmptyString
      end
  | O =>
      match s with
      | EmptyString => EmptyString
      | String c s' =>
          if has_prefix old s
          then (new ++ replace_go old new (String.length old - 1) s')%string
          else String c (replace_go old new 0 s')
      end
  end.

Definition ReplaceAll (s old new : string) : string := replace_go old new 0 s.

(** ASCII white space as [unicode.IsSpace] sees it: tab, line feed,
    vertical tab, form feed, carriage return and space. *)
Definition is_space (c : ascii) : bool :=
  let n := nat_of_ascii c in
  ((9 <=? n) && (n <=? 13))%nat || (n =? 32)%nat.

Fixpoint trim_left (s : string) : string :=
  match s with
  | String c s' => if is_space c then trim_left s' else s
  | EmptyString => EmptyString
  end.

(** [strings.TrimSpace(s)] *)
Definition TrimSpace (s : string) : string :=
  String.rev (trim_left (String.rev (trim_left s))).

(** [strings.Fields(s)]: the maximal runs of non-space bytes. *)
Fixpoint fields_go (cur : string) (s : string) : list string :=
  match s with
  | EmptyString =>
      match cur with EmptyString => [] | _ => [String.rev cur] end
  | String c s' =>
      if is_space c
      then match cur with
           | EmptyString => fields_go EmptyString s'
           | _ => String.rev cur :: fields_go EmptyString s'
           end
      else fields_go (String c cur) s'
  end.

Definition Fields (s : string) : list string := fields_go EmptyString s.

End GoStrings.

Example Split_dots : GoStrings.Split "1.2" "." = ["1"; "2"].
Proof. reflexivity. Qed.

Example Split_range : GoStrings.Split "1.0...2.0" "..." = ["1.0"; "2.0"].
Proof. reflexivity. Qed.

Example Split_empty : GoStrings.Split "" "." = [""].
Proof. reflexivity. Qed.

Example ReplaceAll_var :
  GoStrings.ReplaceAll "$srcdir/main.cpp" "$srcdir" "src" = "src/main.cpp".
Proof. reflexivity. Qed.

Example Fields_two : GoStrings.Fields "  a.o   b.o " = ["a.o"; "b.o"].
Proof. reflexivity. Qed.

(** ** Results of fallible operations: a value or the text of a Go [error] *)

Inductive result (A : Type) : Type :=
| Ok (a : A)
| Err (msg : string).
Arguments Ok {A} a.
Arguments Err {A} msg.

Definition is_ok {A} (r : result A) : bool :=
  match r with Ok _ => true | Err _ => false end.

(** ** The content-addressed cache (package [cache]) *)

Module Cache.

(** What [os.Open]/[io.Copy] find at a path that exists. *)
Inductive FileState : Type :=
| Unreadable
| Content (bytes : string).

(** [time.Duration] is an [int64] count of nanoseconds; [Time.Sub]
    saturates at its bounds. *)
Definition maxDuration : Z := 2 ^ 63 - 1.
Definition minDuration : Z := - 2 ^ 63.
Definition Hour : Z := 3600 * 1000000000.
Definition staleness : Z := 7 * 24 * Hour.

Definition Sub (t u : Z) : Z :=
  if (maxDuration <? t - u)%Z then maxDuration
  else if (t - u <? minDuration)%Z then minDuration
  else (t - u)%Z.

Section cache.

(** [models.Dependency]: the cache stores the records without looking
    inside them. *)
Variable Dependency : Type.

(** [hex.EncodeToString] of the SHA-256 digest of a file's bytes. *)
Variable sha256_hex : string -> string.

(** The visiting order of [for k, v := range m]. *)
Variable go_range : forall E : Type, gmap string E -> list (string * E).

Record CacheEntry : Type := mkEntry {
  Hash : string;
  UpdateTime : Z;
  Deps : list Dependency
}.

(** [Cache]: the entry table and the cache directory.  The lock is not
    modelled: every operation below runs under it from start to end. *)
Record t : Type := mkCache {
  entries : gmap string CacheEntry;
  dir : string
}.

(** The part of the machine the cache touches: the scanned files (a path
    that is not bound does not exist), the bytes of the file
    [<dir>/cache.json] if it exists, and the clock in nanoseconds; and what
    the calls that these do not decide return on this machine:
    [os.MkdirAll] of the cache directory, [os.ReadFile] of [cache.json]
    when it fails for another reason than the file not existing,
    [os.WriteFile] and [os.RemoveAll] (with an error, what is left of
    [cache.json]), and [encoding/json] on the table:
    [json.MarshalIndent] gives the bytes or an error, [json.Unmarshal] on
    bytes and the table it decodes into gives its error and the table it
    leaves.  The scanned files and [cache.json] are distinct files. *)
Record World : Type := mkWorld {
  files : gmap string FileState;
  cache_json : option string;
  mkdir_err : option string;
  read_err : option string;
  write_err : option (string * option string);
  remove_err : option (string * option string);
  json_marshal : gmap string CacheEntry -> result string;
  json_unmarshal :
    string -> gmap string CacheEntry -> option string * gmap string CacheEntry;
  clock : Z
}.

(** The machine with another [cache.json]. *)
Definition with_cache_json (w : World) (content : option string) : World :=
  mkWorld (files w) content (mkdir_err w) (read_err w) (write_err w)
          (remove_err w) (json_marshal w) (json_unmarshal w) (clock w).

Definition Since (w : World) (t : Z) : Z := Sub (clock w) t.

Definition hashFile (w : World) (path : string) : result string :=
  match files w !! path with
  | None => Err "open: no such file or directory"
  | Some Unreadable => Err "read error"
  | Some (Content bytes) => Ok (sha256_hex bytes)
  end.

Definition miss : list Dependency * bool := ([], false).

(** [Cache.Get]; the cache and the world are returned as the call leaves
    them. *)
Definition Get (path : string) (c : t) (w : World)
  : (list Dependency * bool) * t * World :=
  match hashFile w path with
  | Err _ => (miss, c, w)
  | Ok hash =>
      match entries c !! path with
      | None => (miss, c, w)
      | Some entry =>
          if negb (String.eqb (Hash entry) hash) then (miss, c, w)
          else if (staleness <? Since w (UpdateTime entry))%Z then (miss, c, w)
          else ((Deps entry, true), c, w)
      end
  end.

(** [Cache.save]: [os.MkdirAll], [json.MarshalIndent], [os.WriteFile]. *)
Definition save (c : t) (w : World) : option string * World :=
  match mkdir_err w with
  | Some e => (Some e, w)
  | None =>
      match json_marshal w (entries c) with
      | Err e => (Some e, w)
      | Ok data =>
          match write_err w with
          | Some (e, remains) => (Some e, with_cache_json w remains)
          | None => (None, with_cache_json w (Some data))
          end
      end
  end.

(** [Cache.Set] *)
Definition Set_ (path : string) (deps : list Dependency) (c : t) (w : World)
  : option string * t * World :=
  match hashFile w path with
  | Err e => (Some e, c, w)
  | Ok hash =>
      let c' := mkCache (<[path := mkEntry hash (clock w) deps]> (entries c)) (dir c) in
      let '(e, w') := save c' w in
      (e, c', w')
  end.

(** [Cache.Clear]: a fresh table, then [os.RemoveAll] of the directory. *)
Definition Clear (c : t) (w : World) : option string * t * World :=
  let c' := mkCache ∅ (dir c) in
  match remove_err w with
  | Some (e, remains) => (Some e, c', with_cache_json w remains)
  | None => (None, c', with_cache_json w None)
  end.

(** [Cache.load]: [os.MkdirAll], [os.ReadFile] (that the file does not
    exist is no error), [json.Unmarshal] into the table. *)
Definition load (c : t) (w : World) : option string * t :=
  match mkdir_err w with
  | Some e => (Some e, c)
  | None =>
      match read_err w with
      | Some e => (Some e, c)
      | None =>
          match cache_json w with
          | None => (None, c)
          | Some data =>
              let '(e, table) := json_unmarshal w data (entries c) in
              (e, mkCache table (dir c))
          end
      end
  end.

(** [NewCache] with the directory [getCacheDir] gives; the error of [load]
    is dropped. *)
Definition NewCache (cacheDir : string) (w : World) : t :=
  (load (mkCache ∅ cacheDir) w).2.

(** [Cache.GetCacheStats] *)
Definition GetCacheStats (c : t) (w : World) : (nat * Z) * t * World :=
  ((size (entries c),
    match cache_json w with
    | Some data => Z.of_nat (String.length data)
    | None => 0%Z
    end),
   c, w).

(** [Cache.RemoveExpired]: one pass over the table, deleting as it goes. *)
Definition expire_step (now : Z) (acc : gmap string CacheEntry * nat)
  (kv : string * CacheEntry) : gmap string CacheEntry * nat :=
  if (staleness <? Sub now (UpdateTime kv.2))%Z
  then (delete kv.1 acc.1, S acc.2)
  else acc.

Definition RemoveExpired (c : t) (w : World) : nat * t * World :=
  let '(m, count) :=
    fold_left (expire_step (clock w)) (go_range _ (entries c)) (entries c, 0%nat) in
  let c' := mkCache m (dir c) in
  if (0 <? count)%nat then (count, c', (save c' w).2) else (count, c', w).

(** [Cache.Validate]: the loop leaves at the first file that exists and
    cannot be hashed, keeping the deletions made so far and skipping the
    save. *)
Fixpoint validate_loop (w : World) (todo : list (string * CacheEntry))
  (m : gmap string CacheEntry) : option string * gmap string CacheEntry :=
  match todo with
  | [] => (None, m)
  | (path, entry) :: rest =>
      match files w !! path with
      | None => validate_loop w rest (delete path m)
      | Some _ =>
          match hashFile w path with
          | Err e => (Some ("failed to hash file " ++ path ++ ": " ++ e)%string, m)
          | Ok hash =>
              if negb (String.eqb hash (Hash entry))
              then validate_loop w rest (delete path m)
              else validate_loop w rest m
          end
      end
  end.

Definition Validate (c : t) (w : World) : option string * t * World :=
  match validate_loop w (go_range _ (entries c)) (entries c) with
  | (Some e, m) => (Some e, mkCache m (dir c), w)
  | (None, m) =>
      let c' := mkCache m (dir c) in
      let '(e, w') := save c' w in (e, c', w')
  end.

(** The public operations, and one call of each. *)
Inductive Op : Type :=
| OpGet (path : string)
| OpSet (path : string) (deps : list Dependency)
| OpStats
| OpClear
| OpRemoveExpired
| OpValidate.

Definition exec (op : Op) (c : t) (w : World) : t * World :=
  match op with
  | OpGet path => let '(_, c', w') := Get path c w in (c', w')
  | OpSet path deps => let '(_, c', w') := Set_ path deps c w in (c', w')
  | OpStats => let '(_, c', w') := GetCacheStats c w in (c', w')
  | OpClear => let '(_, c', w') := Clear c w in (c', w')
  | OpRemoveExpired => let '(_, c', w') := RemoveExpired c w in (c', w')
  | OpValidate => let '(_, c', w') := Validate c w in (c', w')
  end.

Definition removes (op : Op) : bool :=
  match op with
  | OpClear | OpRemoveExpired | OpValidate => true
  | _ => false
  end.

(** Exactly one byte of [old] was replaced to give [new]. *)
Definition one_byte_changed (old new : string) : Prop :=
  exists pre b b' post,
    old = (pre ++ String b post)%string /\
    new = (pre ++ String b' post)%string /\ b <> b'.

(** *** Properties of the cache *)

Lemma Sub_le (t u : Z) :
  (t - u <= staleness)%Z -> (Sub t u <= staleness)%Z.
Proof.
  unfold Sub, staleness, Hour, maxDuration, minDuration.
  intros Hle.
  destruct (Z.ltb_spec (2 ^ 63 - 1) (t - u)); [lia |].
  destruct (Z.ltb_spec (t - u) (- 2 ^ 63)); lia.
Qed.

Lemma Sub_gt (t u : Z) :
  (staleness < t - u)%Z -> (staleness < Sub t u)%Z.
Proof.
  unfold Sub, staleness, Hour, maxDuration, minDuration.
  intros Hlt.
  destruct (Z.ltb_spec (2 ^ 63 - 1) (t - u)); [lia |].
  destruct (Z.ltb_spec (t - u) (- 2 ^ 63)); lia.
Qed.

Lemma save_clock c w :
  clock (save c w).2 = clock w.
Proof.
  unfold save. destruct (mkdir_err w); [done |].
  destruct (json_marshal w (entries c)); [| done].
  by destruct (write_err w) as [[e remains]|].
Qed.

Lemma Set_stores (path content : string) deps c w :
  files w !! path = Some (Content content) ->
  entries (Set_ path deps c w).1.2 !! path
    = Some (mkEntry (sha256_hex content) (clock w) deps)
  /\ clock (Set_ path deps c w).2 = clock w.
Proof.
  intros Hfile. unfold Set_, hashFile. rewrite Hfile.
  pose proof (save_clock
    (mkCache (<[path := mkEntry (sha256_hex content) (clock w) deps]> (entries c)) (dir c))
    w) as Hclock.
  destruct (save _ w) as [e w']. simpl in *. by rewrite lookup_insert_eq.
Qed.

(** C1. After [Set(path, records)] on a file that can be read, [Get(path)]
    is a hit with the same records as long as the file still has the
    content it had and no more than seven days have passed; it is a miss
    once one byte of the file has changed (the two contents having
    different SHA-256 digests), and a miss once more than seven days have
    passed. *)
Theorem Set_then_Get (path content : string) deps c w :
  files w !! path = Some (Content content) ->
  let c1 := (Set_ path deps c w).1.2 in
  let w1 := (Set_ path deps c w).2 in
  (forall w2,
      files w2 !! path = Some (Content content) ->
      (clock w2 - clock w1 <= staleness)%Z ->
      Get path c1 w2 = ((deps, true), c1, w2))
  /\ (forall w2 content',
      files w2 !! path = Some (Content content') ->
      one_byte_changed content content' ->
      sha256_hex content' <> sha256_hex content ->
      Get path c1 w2 = (miss, c1, w2))
  /\ (forall w2,
      (staleness < clock w2 - clock w1)%Z ->
      Get path c1 w2 = (miss, c1, w2)).
Proof.
  intros Hfile c1 w1.
  destruct (Set_stores path content deps c w Hfile) as [Hentry Hclock].
  fold c1 in Hentry. fold w1 in Hclock.
  repeat split.
  - intros w2 Hsame Hfresh. unfold Get, hashFile.
    rewrite Hsame, Hentry. simpl.
    rewrite String.eqb_refl. simpl.
    unfold Since. rewrite Hclock in Hfresh.
    apply Sub_le in Hfresh.
    destruct (Z.ltb_spec staleness (Sub (clock w2) (clock w))); [lia | done].
  - intros w2 content' Hnew _ Hdigest. unfold Get, hashFile.
    rewrite Hnew, Hentry. simpl.
    destruct (String.eqb_spec (sha256_hex content) (sha256_hex content'));
      [congruence | done].
  - intros w2 Hold. unfold Get, hashFile.
    destruct (files w2 !! path) as [[|bytes]|]; try done.
    rewrite Hentry. simpl.
    destruct (negb _); [done |].
    unfold Since. rewrite Hclock in Hold. apply Sub_gt in Hold.
    destruct (Z.ltb_spec staleness (Sub (clock w2) (clock w))); [done | lia].
Qed.

Lemma Set_keeps_keys (path : string) deps c w :
  dom (entries c) ⊆ dom (entries (Set_ path deps c w).1.2).
Proof.
  unfold Set_. destruct (hashFile w path) as [hash|e]; simpl; [| done].
  destruct (save _ w) as [e w']. simpl. rewrite dom_insert. set_solver.
Qed.

(** C10. [Get] leaves the entry table, the cache file and the rest of the
    world as they were, whatever it returns; and a call that makes a key
    disappear from the table is a call of [Clear], [RemoveExpired] or
    [Validate]. *)
Theorem Get_read_only :
  (forall path c w, (Get path c w).1.2 = c /\ (Get path c w).2 = w)
  /\ (forall op c w key,
      key ∈ dom (entries c) ->
      key ∉ dom (entries (exec op c w).1) ->
      removes op = true).
Proof.
  split.
  - intros path c w. unfold Get.
    destruct (hashFile w path); [| done].
    destruct (entries c !! path); [| done].
    destruct (negb _); [done |].
    destruct (_ <? _)%Z; done.
  - intros op c w key Hin Hout. destruct op as [path|path deps| | | |]; try done.
    + exfalso. apply Hout. unfold exec, Get.
      destruct (hashFile w path); [| done].
      destruct (entries c !! path); [| done].
      destruct (negb _); [done |].
      destruct (_ <? _)%Z; done.
    + exfalso. apply Hout.
      pose proof (Set_keeps_keys path deps c w) as Hsub.
      unfold exec. destruct (Set_ path deps c w) as [[e c'] w']. simpl in *.
      set_solver.
Qed.

End cache.

(** A concrete machine for the examples: records are strings and the digest
    is the content itself. *)
Definition demo_json (table : gmap string (CacheEntry string)) : result string :=
  Ok "{}".

Definition demo_unjson (data : string) (table : gmap string (CacheEntry string))
  : option string * gmap string (CacheEntry string) :=
  (None, table).

Definition demo_world (content : string) (now : Z) : World string :=
  mkWorld string {[ "CMakeLists.txt" := Content content ]} None None None None None
          demo_json demo_unjson now.

Definition demo_cache : t string := mkCache string ∅ "/home/u/.cache/ccscanner".

Lemma Set_then_Get_witness :
  let c1 := (Set_ string id "CMakeLists.txt" ["boost"] demo_cache
               (demo_world "find_package(Boost)" 0)).1.2 in
  Get string id "CMakeLists.txt" c1 (demo_world "find_package(Boost)" staleness)
    = ((["boost"], true), c1, demo_world "find_package(Boost)" staleness)
  /\ Get string id "CMakeLists.txt" c1 (demo_world "find_package(Boos7)" 5)
    = (miss string, c1, demo_world "find_package(Boos7)" 5)
  /\ Get string id "CMakeLists.txt" c1
       (demo_world "find_package(Boost)" (staleness + 1))
    = (miss string, c1, demo_world "find_package(Boost)" (staleness + 1)).
Proof.
  pose proof (Set_then_Get string id "CMakeLists.txt" "find_package(Boost)"
                ["boost"] demo_cache (demo_world "find_package(Boost)" 0)
                eq_refl) as (Hhit & Hchanged & Hstale).
  split; [| split].
  - apply Hhit; [reflexivity | vm_compute; congruence].
  - apply (Hchanged _ "find_package(Boos7)"); [reflexivity | | discriminate].
    exists "find_package(Boos", "t"%char, "7"%char, ")".
    repeat split; [reflexivity .. | discriminate].
  - apply Hstale. vm_compute. reflexivity.
Defined.

Lemma Get_read_only_witness :
  removes string (OpClear string) = true.
Proof.
  destruct (Get_read_only string id (fun E m => map_to_list m))
    as [_ Hremoves].
  apply (Hremoves (OpClear string)
           (mkCache string {[ "a" := mkEntry string "h" 0 [] ]} "d")
           (demo_world "x" 0) "a").
  - simpl. apply elem_of_dom. rewrite lookup_singleton_eq. eauto.
  - simpl. apply not_elem_of_dom. apply lookup_empty.
Defined.

(** [RemoveExpired] and [Validate] do remove entries. *)
Example RemoveExpired_removes :
  (RemoveExpired string (fun E m => map_to_list m)
     (mkCache string {[ "a" := mkEntry string "h" 0 [] ]} "d")
     (demo_world "x" (staleness + 1))).1
  = (1%nat, mkCache string ∅ "d").
Proof. vm_compute. reflexivity. Qed.

Example Validate_removes :
  (Validate string id (fun E m => map_to_list m)
     (mkCache string {[ "gone" := mkEntry string "h" 0 [] ]} "d")
     (demo_world "x" 0)).1
  = (None, mkCache string ∅ "d").
Proof. vm_compute. reflexivity. Qed.

End Cache.

(** ** A reference model of the part of [github.com/Masterminds/semver/v3]
       the examples run on

    The analyzer and the resolver are stated below over any version type
    with a parser, a three-way comparison that is a total preorder and a
    printer.  This module gives one such type, for the versions
    [MAJOR[.MINOR[.PATCH]]] with an optional leading [v] and no
    pre-release or build part, and the comparison constraints
    [OP VERSION]. *)

Module Semver.

Record Version : Type := mkVersion {
  major : N;
  minor : N;
  patch : N
}.

Definition is_digit (c : ascii) : bool :=
  let n := nat_of_ascii c in ((48 <=? n) && (n <=? 57))%nat.

(** [strconv.ParseUint(s, 10, 64)] *)
Fixpoint parse_digits (acc : N) (s : string) : option N :=
  match s with
  | EmptyString => Some acc
  | String c s' =>
      if is_digit c
      then parse_digits (10 * acc + N.of_nat (nat_of_ascii c - 48)) s'
      else None
  end.

Definition ParseUint (s : string) : option N :=
  match s with
  | EmptyString => None
  | _ =>
      match parse_digits 0 s with
      | Some n => if (n <? 2 ^ 64)%N then Some n else None
      | None => None
      end
  end.

(** [semver.NewVersion] on the fragment. *)
Definition NewVersion (v : string) : option Version :=
  let v := if GoStrings.HasPrefix v "v" then GoStrings.drop_bytes 1 v else v in
  match GoStrings.Split v "." with
  | [a] => ma ← ParseUint a; Some (mkVersion ma 0 0)
  | [a; b] => ma ← ParseUint a; mi ← ParseUint b; Some (mkVersion ma mi 0)
  | [a; b; c] =>
      ma ← ParseUint a; mi ← ParseUint b; pa ← ParseUint c;
      Some (mkVersion ma mi pa)
  | _ => None
  end.

Definition lex (c1 c2 : comparison) : comparison :=
  match c1 with Eq => c2 | _ => c1 end.

(** [Version.Compare] *)
Definition Compare (v o : Version) : comparison :=
  lex (major v ?= major o)%N (lex (minor v ?= minor o)%N (patch v ?= patch o)%N).

Definition print_N (n : N) : string := NilZero.string_of_uint (N.to_uint n).

(** [Version.String] *)
Definition String_ (v : Version) : string :=
  (print_N (major v) ++ "." ++ print_N (minor v) ++ "." ++ print_N (patch v))%string.

(** One comparison constraint, [semver.NewConstraint] and
    [Constraints.Check] on the fragment. *)
Inductive Operator : Type := OpEq | OpNe | OpGt | OpLt | OpGe | OpLe.

Record Constraints : Type := mkConstraint {
  op : Operator;
  bound : Version
}.

Definition parse_operator (s : string) : Operator * string :=
  if GoStrings.HasPrefix s ">=" then (OpGe, GoStrings.drop_bytes 2 s)
  else if GoStrings.HasPrefix s "=>" then (OpGe, GoStrings.drop_bytes 2 s)
  else if GoStrings.HasPrefix s "<=" then (OpLe, GoStrings.drop_bytes 2 s)
  else if GoStrings.HasPrefix s "=<" then (OpLe, GoStrings.drop_bytes 2 s)
  else if GoStrings.HasPrefix s "!=" then (OpNe, GoStrings.drop_bytes 2 s)
  else if GoStrings.HasPrefix s ">" then (OpGt, GoStrings.drop_bytes 1 s)
  else if GoStrings.HasPrefix s "<" then (OpLt, GoStrings.drop_bytes 1 s)
  else if GoStrings.HasPrefix s "=" then (OpEq, GoStrings.drop_bytes 1 s)
  else (OpEq, s).

Definition NewConstraint (s : string) : option Constraints :=
  let '(o, rest) := parse_operator s in
  v ← NewVersion (GoStrings.TrimSpace rest); Some (mkConstraint o v).

Definition Check (c : Constraints) (v : Version) : bool :=
  match op c, Compare v (bound c) with
  | OpEq, Eq => true
  | OpNe, (Lt | Gt) => true
  | OpGt, Gt => true
  | OpLt, Lt => true
  | OpGe, (Gt | Eq) => true
  | OpLe, (Lt | Eq) => true
  | _, _ => false
  end.

Lemma Compare_antisym (v o : Version) : Compare o v = CompOpp (Compare v o).
Proof.
  unfold Compare, lex.
  rewrite (N.compare_antisym (major v)), (N.compare_antisym (minor v)),
    (N.compare_antisym (patch v)).
  destruct (major v ?= major o)%N, (minor v ?= minor o)%N,
    (patch v ?= patch o)%N; reflexivity.
Qed.

Lemma Compare_le_trans (a b c : Version) :
  Compare a b <> Gt -> Compare b c <> Gt -> Compare a c <> Gt.
Proof.
  unfold Compare, lex. intros Hab Hbc.
  destruct (N.compare_spec (major a) (major b)),
    (N.compare_spec (major b) (major c)),
    (N.compare_spec (minor a) (minor b)),
    (N.compare_spec (minor b) (minor c)),
    (N.compare_spec (patch a) (patch b)),
    (N.compare_spec (patch b) (patch c)); try congruence;
  destruct (N.compare_spec (major a) (major c)); try lia; try discriminate;
  destruct (N.compare_spec (minor a) (minor c)); try lia; try discriminate;
  destruct (N.compare_spec (patch a) (patch c)); try lia; discriminate.
Qed.

Example NewVersion_short : NewVersion "v1.2" = Some (mkVersion 1 2 0).
Proof. reflexivity. Qed.

Example String_roundtrip : String_ (mkVersion 2 10 0) = "2.10.0".
Proof. reflexivity. Qed.

Example Check_ge :
  (c ← NewConstraint ">= 1.0"; Some (Check c (mkVersion 1 1 0))) = Some true.
Proof. reflexivity. Qed.

End Semver.

(** ** The dependency analyzer (package [analyzer], analyzer file) *)

Module Analyzer.

Import GoStrings.

(** [models.Dependency] as the analyzer reads it: a record has a name, a
    version and child records. *)
#[warnings="-register-all"]
Inductive Dependency : Type := mkDep {
  Name : string;
  Version : string;
  Type_ : string;
  Source : string;
  Scope : string;
  Dependencies : list Dependency
}.

Record Node : Type := mkNode {
  NodeName : string;
  Versions : list string;
  NodeType : string;
  NodeSource : string;
  NodeScope : string
}.

Record DependencyGraph : Type := mkGraph {
  nodes : gmap string Node;
  edges : gmap string (list string)
}.

Record VersionConflict : Type := mkConflict {
  Package : string;
  Required : string;
  Current : string;
  ConflictSource : string;
  Path : list string
}.

(** [AnalysisResult]; the depth and the statistics, which no property
    below reads, are left out. *)
Record AnalysisResult : Type := mkResult {
  TotalDependencies : nat;
  DirectDependencies : nat;
  IndirectDependencies : nat;
  Cycles : list (list string);
  Conflicts : list VersionConflict
}.

Definition NewDependencyGraph : DependencyGraph := mkGraph ∅ ∅.

(** [contains(slice, item)] *)
Fixpoint contains (slice : list string) (item : string) : bool :=
  match slice with
  | [] => false
  | s :: rest => if String.eqb s item then true else contains rest item
  end.

(** [for len(parts) < 3 { parts = append(parts, "0") }] *)
Definition pad3 (parts : list string) : list string :=
  parts ++ replicate (3 - length parts) "0".

(** [normalizeVersion], stage by stage. *)
Definition strip_v (version : string) : string :=
  if GoStrings.HasPrefix version "v" then GoStrings.drop_bytes 1 version
  else version.

Definition strip_ge (version : string) : string :=
  if GoStrings.HasPrefix version ">=" then GoStrings.drop_bytes 2 version
  else version.

Definition cut_range (version : string) : string :=
  if GoStrings.Contains version "..."
  then match GoStrings.Split version "..." with
       | first :: _ => first
       | [] => version
       end
  else version.

Definition normalizeVersion (version : string) : string :=
  let version := strip_v version in
  if GoStrings.HasPrefix version "branch=" || GoStrings.HasPrefix version "commit="
  then "0.0.0"
  else
    let version := cut_range (strip_ge version) in
    GoStrings.Join (pad3 (GoStrings.Split version ".")) ".".

(** Vocabulary for the normalization law: a piece without a dot, a decimal
    number, three dotted decimal numbers, and the prefixes that
    [normalizeVersion] removes or rewrites. *)
Fixpoint no_dot (s : string) : bool :=
  match s with
  | EmptyString => true
  | String c s' => negb (Ascii.eqb c ".") && no_dot s'
  end.

Fixpoint all_digits (s : string) : bool :=
  match s with
  | EmptyString => true
  | String c s' => Semver.is_digit c && all_digits s'
  end.

Definition numeric (s : string) : bool :=
  match s with
  | EmptyString => false
  | _ => all_digits s
  end.

Definition three_numeric (w : string) : bool :=
  match GoStrings.Split w "." with
  | [a; b; c] => numeric a && numeric b && numeric c
  | _ => false
  end.

Definition stripped_prefix (w : string) : bool :=
  GoStrings.HasPrefix w "v" || GoStrings.HasPrefix w "branch="
  || GoStrings.HasPrefix w "commit=" || GoStrings.HasPrefix w ">=".

(** The last stage of [normalizeVersion]. *)
Definition core (u : string) : string := GoStrings.Join (pad3 (GoStrings.Split u ".")) ".".

(** A string that starts with a decimal digit. *)
Definition digit_led (s : string) : Prop :=
  exists d rest, s = String d rest /\ Semver.is_digit d = true.

(** [countDirectDependencies] *)
Definition countDirectDependencies (deps : list Dependency) : nat :=
  length (filter (fun dep => Scope dep <> "indirect") deps).

(** One round of the loop of [buildDependencyGraph]. *)
Definition add_node (dep : Dependency) (ns : gmap string Node) : gmap string Node :=
  match ns !! Name dep with
  | None =>
      <[Name dep := mkNode (Name dep) [Version dep] (Type_ dep) (Source dep) (Scope dep)]> ns
  | Some n =>
      let versions :=
        if contains (Versions n) (Version dep) then Versions n
        else Versions n ++ [Version dep] in
      <[Name dep := mkNode (NodeName n) versions (NodeType n) (NodeSource n) (NodeScope n)]> ns
  end.

Definition add_edge (from to : string) (es : gmap string (list string))
  : gmap string (list string) :=
  <[from := default [] (es !! from) ++ [to]]> es.

Definition add_dep (g : DependencyGraph) (dep : Dependency) : DependencyGraph :=
  mkGraph (add_node dep (nodes g))
          (foldl (fun es child => add_edge (Name dep) (Name child) es)
                 (edges g) (Dependencies dep)).

(** [buildDependencyGraph], from the graph the analyzer holds. *)
Definition buildDependencyGraph (g : DependencyGraph) (deps : list Dependency)
  : DependencyGraph :=
  foldl add_dep g deps.

(** [a.graph.edges[node]] *)
Definition children (g : DependencyGraph) (node : string) : list string :=
  default [] (edges g !! node).

(** Every name the graph mentions. *)
Definition universe (g : DependencyGraph) : gset string :=
  dom (nodes g) ∪ dom (edges g)
  ∪ list_to_set (concat (map snd (map_to_list (edges g)))).

(** [for _, child := range children { if visit(child) { return true } }]:
    the shape shared by the three depth-first searches.  [None] is a search
    that ran out of fuel. *)
Fixpoint for_children {S : Type} (visit : string -> S -> option (bool * S))
  (todo : list string) (st : S) : option (bool * S) :=
  match todo with
  | [] => Some (false, st)
  | child :: rest =>
      match visit child st with
      | None => None
      | Some (true, st') => Some (true, st')
      | Some (false, st') => for_children visit rest st'
      end
  end.

(** [for node := range nodes { if !visited[node] { dfs(node) } }], for a
    search whose result the loop ignores. *)
Fixpoint for_roots {S : Type} (seen : S -> gset string)
  (visit : string -> S -> option (bool * S))
  (roots : list string) (st : S) : option S :=
  match roots with
  | [] => Some st
  | node :: rest =>
      if bool_decide (node ∈ seen st) then for_roots seen visit rest st
      else match visit node st with
           | None => None
           | Some (_, st') => for_roots seen visit rest st'
           end
  end.

(** *** [detectCycles] *)

(** The variables the closure [dfs] of [detectCycles] shares: the cycles
    found, and the keys that [visited] and [path] map to [true]. *)
Record CycleState : Type := mkCS {
  cycles : list (list string);
  visited : gset string;
  path : gset string
}.

(** [currentPath[cycleStart:]] for the first index holding [node]. *)
Fixpoint suffix_from (node : string) (currentPath : list string)
  : option (list string) :=
  match currentPath with
  | [] => None
  | n :: rest =>
      if String.eqb n node then Some currentPath else suffix_from node rest
  end.

Fixpoint dfs (fuel : nat) (g : DependencyGraph) (node : string)
  (currentPath : list string) (st : CycleState) : option (bool * CycleState) :=
  match fuel with
  | O => None
  | S fuel' =>
      if bool_decide (node ∈ path st) then
        match suffix_from node currentPath with
        | Some suffix =>
            Some (true, mkCS (cycles st ++ [suffix ++ [node]]) (visited st) (path st))
        | None => Some (true, st)
        end
      else if bool_decide (node ∈ visited st) then Some (false, st)
      else
        let st1 := mkCS (cycles st) ({[node]} ∪ visited st) ({[node]} ∪ path st) in
        match for_children
                (fun child st => dfs fuel' g child (currentPath ++ [node]) st)
                (children g node) st1 with
        | Some (false, st2) =>
            Some (false, mkCS (cycles st2) (visited st2) (path st2 ∖ {[node]}))
        | other => other
        end
  end.

(** [detectCycles] with the roots visited in the order [roots]. *)
Definition detectCycles_from (g : DependencyGraph) (roots : list string)
  : option (list (list string)) :=
  cycles <$> for_roots visited
               (fun node st => dfs (S (size (universe g))) g node [] st)
               roots (mkCS [] ∅ ∅).

(** *** [findDependencyPath] *)

Record PathState : Type := mkPS {
  seen : gset string;
  trail : list string
}.

Fixpoint path_dfs (fuel : nat) (g : DependencyGraph) (target node : string)
  (st : PathState) : option (bool * PathState) :=
  match fuel with
  | O => None
  | S fuel' =>
      if String.eqb node target then
        Some (true, mkPS (seen st) (trail st ++ [node]))
      else if bool_decide (node ∈ seen st) then Some (false, st)
      else
        let st1 := mkPS ({[node]} ∪ seen st) (trail st ++ [node]) in
        match for_children (fun child st => path_dfs fuel' g target child st)
                           (children g node) st1 with
        | Some (false, st2) => Some (false, mkPS (seen st2) (removelast (trail st2)))
        | other => other
        end
  end.

(** The loop over the roots of [findDependencyPath]: it returns at the
    first root whose search succeeds, [nil] when none does. *)
Fixpoint path_roots (fuel : nat) (g : DependencyGraph) (target : string)
  (roots : list string) (st : PathState) : option (list string) :=
  match roots with
  | [] => Some []
  | node :: rest =>
      if bool_decide (node ∈ seen st) then path_roots fuel g target rest st
      else match path_dfs fuel g target node st with
           | None => None
           | Some (true, st') => Some (trail st')
           | Some (false, st') => path_roots fuel g target rest st'
           end
  end.

Definition findDependencyPath_from (g : DependencyGraph) (roots : list string)
  (target : string) : option (list string) :=
  path_roots (S (size (universe g))) g target roots (mkPS ∅ []).

(** *** The version table of [detectVersionConflicts] *)

(** [versionMap[name][version] = append(versionMap[name][version], by)] *)
Definition record_version (name version by_ : string)
  (vm : gmap string (gmap string (list string)))
  : gmap string (gmap string (list string)) :=
  let inner := default ∅ (vm !! name) in
  <[name := <[version := default [] (inner !! version) ++ [by_]]> inner]> vm.

Definition collect_dep (vm : gmap string (gmap string (list string)))
  (dep : Dependency) : gmap string (gmap string (list string)) :=
  foldl (fun vm child => record_version (Name child) (Version child) (Name dep) vm)
        (record_version (Name dep) (Version dep) "root" vm)
        (Dependencies dep).

Definition versionMap (deps : list Dependency)
  : gmap string (gmap string (list string)) :=
  foldl collect_dep ∅ deps.

(** *** Vocabulary for the cycle search *)

(** [b] is one of [g.edges[a]]. *)
Definition edge (g : DependencyGraph) (a b : string) : Prop := b ∈ children g a.

(** Each node of the list has an edge to the next one. *)
Fixpoint chain (g : DependencyGraph) (l : list string) : Prop :=
  match l with
  | a :: (b :: _) as rest => edge g a b /\ chain g rest
  | _ => True
  end.

(** A cycle as [detectCycles] writes it: a closed path [n, ..., n] whose
    nodes before the closing one are distinct. *)
Definition good_cycle (g : DependencyGraph) (c : list string) : Prop :=
  exists n body, c = (n :: body) ++ [n] /\ chain g c /\ NoDup (n :: body).

(** [node] is a root, or a child of the last node of the current path. *)
Definition linked (g : DependencyGraph) (cur : list string) (node : string) : Prop :=
  cur = [] \/ exists p, last cur = Some p /\ edge g p node.

(** The current path is a path of the graph through distinct visited
    nodes. *)
Definition wf_stack (g : DependencyGraph) (cur : list string) (vis : gset string) : Prop :=
  chain g cur /\ NoDup cur /\ Forall (fun n => n ∈ vis) cur.

(** Every cycle found so far is a closed path through distinct nodes. *)
Definition cycles_ok (g : DependencyGraph) (st : CycleState) : Prop :=
  Forall (good_cycle g) (cycles st).

(** Before the first cycle is met: the keys of [path] are the nodes of the
    current path, and the finished nodes ([visited] and no longer on the
    path) are closed under the edges and lie on no cycle. *)
Definition black (st : CycleState) : gset string := visited st ∖ path st.

Definition tidy (g : DependencyGraph) (st : CycleState) (cur : list string) : Prop :=
  path st = list_to_set cur
  /\ (forall a b, a ∈ black st -> edge g a b -> b ∈ black st)
  /\ (forall a, a ∈ black st -> ~ tc (edge g) a a).

(** Records for the examples. *)
Definition dep_on (name : string) (kids : list string) : Dependency :=
  mkDep name "1.0.0" "library" "" ""
        (map (fun kid => mkDep kid "1.0.0" "library" "" "" []) kids).

Definition records_E6 : list Dependency :=
  [dep_on "A" ["B"]; dep_on "B" ["C"]; dep_on "C" ["A"]].

Definition graph_E6 : DependencyGraph :=
  buildDependencyGraph NewDependencyGraph records_E6.

Definition records_two_cycles : list Dependency :=
  [dep_on "A" ["B"; "C"]; dep_on "B" ["A"]; dep_on "C" ["A"]].

Definition graph_two_cycles : DependencyGraph :=
  buildDependencyGraph NewDependencyGraph records_two_cycles.

(** A returned cycle covers a cycle when both have the same nodes. *)
Definition same_nodes (r c : list string) : Prop := forall n, n ∈ r <-> n ∈ c.

Definition covers (found : list (list string)) (c : list string) : Prop :=
  exists r, r ∈ found /\ same_nodes r c.

(** A simple cycle, given by its distinct nodes in order. *)
Definition simple_cycle (g : DependencyGraph) (c : list string) : Prop :=
  match c with
  | n :: _ => chain g (c ++ [n]) /\ NoDup c
  | [] => False
  end.

(** One legal visiting order: the order of [map_to_list]. *)
Definition range_sorted : nat -> forall E : Type, gmap string E -> list (string * E) :=
  fun _ E m => map_to_list m.

(** What a successful search adds to the trail: a path of the graph from
    [node] to [target]. *)
Definition walk_to (g : DependencyGraph) (target node : string)
  (walk : list string) : Prop :=
  chain g (node :: walk) /\ last (node :: walk) = Some target.

(** While no search has succeeded: the target has not been entered, and
    every entered node that is off the trail has all its children
    entered. *)
Definition searched (g : DependencyGraph) (target : string) (st : PathState) : Prop :=
  target ∉ seen st
  /\ forall a b, a ∈ seen st -> a ∉ trail st -> edge g a b -> b ∈ seen st.

(** The version table read at a name and a version. *)
Definition lookup2 (vm : gmap string (gmap string (list string)))
  (name version : string) : option (list string) :=
  vm !! name ≫= fun inner => inner !! version.

(** A name occurs with a version in a list of records: as one of the
    records, or as a child of one of them (the two places
    [detectVersionConflicts] reads). *)
Definition occurs (deps : list Dependency) (name version : string) : Prop :=
  exists dep, dep ∈ deps
    /\ ((Name dep = name /\ Version dep = version)
        \/ exists child, child ∈ Dependencies dep
             /\ Name child = name /\ Version child = version).

(** Who requires a name at a version, in the order the records are read:
    ["root"] for a record of the list, the parent's name for a child. *)
Definition is_at (name version : string) (dep : Dependency) : bool :=
  String.eqb (Name dep) name && String.eqb (Version dep) version.

Definition requirers_of (name version : string) (dep : Dependency) : list string :=
  (if is_at name version dep then ["root"] else [])
  ++ flat_map (fun child => if is_at name version child then [Name dep] else [])
              (Dependencies dep).

Definition requirers (deps : list Dependency) (name version : string) : list string :=
  flat_map (requirers_of name version) deps.

(** Appending requirers to an entry of the table that may be missing. *)
Definition extend (old : option (list string)) (more : list string)
  : option (list string) :=
  match more with
  | [] => old
  | _ => Some (default [] old ++ more)
  end.

(** A dependency path to a package: a path of the graph from one of its
    nodes to the package. *)
Definition path_to (g : DependencyGraph) (pkg : string) (p : list string) : Prop :=
  exists r walk,
    p = r :: walk /\ r ∈ dom (nodes g) /\ chain g p /\ last p = Some pkg.

(** Records in which B is required at 2.0 by A and listed at v1.5. *)
Definition records_conflict : list Dependency :=
  [mkDep "A" "1.0" "library" "" "" [mkDep "B" "2.0" "library" "" "" []];
   mkDep "B" "v1.5" "library" "" "" []].

Section analysis.

(** The semver library: a version type, [semver.NewVersion] ([None] when it
    returns an error), [Version.Compare] and [Version.String]. *)
Variable SemVer : Type.
Variable NewVersion : string -> option SemVer.
Variable Compare : SemVer -> SemVer -> comparison.
Variable String_ : SemVer -> string.

(** The visiting order of the [range] loop at [site] over a map. *)
Variable go_range : nat -> forall E : Type, gmap string E -> list (string * E).

(** [Version.LessThan] and [Version.Equal] *)
Definition LessThan (v o : SemVer) : bool :=
  match Compare v o with Lt => true | _ => false end.

Definition Equal (v o : SemVer) : bool :=
  match Compare v o with Eq => true | _ => false end.

Definition not_above (v o : SemVer) : Prop := LessThan o v = false.

#[local] Instance not_above_dec : RelDecision not_above.
Proof. intros v o. unfold not_above. apply _. Defined.

(** [sort.Slice(semvers, func(i, j) { return semvers[i].LessThan(semvers[j]) })] *)
Definition sort_Slice (semvers : list SemVer) : list SemVer :=
  merge_sort not_above semvers.

Definition detectCycles (g : DependencyGraph) : option (list (list string)) :=
  detectCycles_from g (go_range 0 _ (nodes g)).*1.

Definition findDependencyPath (g : DependencyGraph) (target : string)
  : option (list string) :=
  findDependencyPath_from g (go_range 4 _ (nodes g)).*1 target.

(** The versions of one package that parse, in the order of the loop. *)
Definition parse_versions (versions : gmap string (list string)) : list SemVer :=
  omap (fun kv => NewVersion (normalizeVersion kv.1)) (go_range 2 _ versions).

(** The body of the loop over [versionMap] in [detectVersionConflicts]. *)
Definition conflicts_of (g : DependencyGraph) (pkg : string)
  (versions : gmap string (list string)) : option (list VersionConflict) :=
  if (1 <? size versions)%nat then
    let semvers := parse_versions versions in
    if (1 <? length semvers)%nat then
      let sorted := sort_Slice semvers in
      match head sorted, last sorted with
      | Some lowest, Some highest =>
          if negb (Equal lowest highest) then
            mapM (fun kv =>
                    trail ← findDependencyPath g pkg;
                    Some (mkConflict pkg kv.1 (String_ highest)
                                     (GoStrings.Join kv.2 ", ") trail))
                 (go_range 3 _ versions)
          else Some []
      | _, _ => Some []
      end
    else Some []
  else Some [].

Definition detectVersionConflicts (g : DependencyGraph) (deps : list Dependency)
  : option (list VersionConflict) :=
  @concat VersionConflict <$> mapM (fun kv => conflicts_of g kv.1 kv.2)
                  (go_range 1 _ (versionMap deps)).

(** [DependencyAnalyzer]: the records of the last call and the graph, which
    lives as long as the analyzer. *)
Record DependencyAnalyzer : Type := mkAnalyzer {
  dependencies : list Dependency;
  graph : DependencyGraph
}.

Definition NewDependencyAnalyzer : DependencyAnalyzer :=
  mkAnalyzer [] NewDependencyGraph.

(** [Analyze]; [None] only if a search ran out of fuel. *)
Definition Analyze (a : DependencyAnalyzer) (deps : list Dependency)
  : option (AnalysisResult * DependencyAnalyzer) :=
  let g := buildDependencyGraph (graph a) deps in
  found ← detectCycles g;
  conflicts ← detectVersionConflicts g deps;
  Some (mkResult (length deps) (countDirectDependencies deps)
                 (length deps - countDirectDependencies deps) found conflicts,
        mkAnalyzer deps g).

(** [hi] is the newest of the versions of a table entry that parse after
    normalization. *)
Definition newest (versions : gmap string (list string)) (hi : SemVer) : Prop :=
  (exists v, v ∈ dom versions /\ NewVersion (normalizeVersion v) = Some hi)
  /\ forall v sv, v ∈ dom versions ->
                  NewVersion (normalizeVersion v) = Some sv ->
                  LessThan hi sv = false.

(** What a conflict carries: an original version of the package, the
    newest normalized version seen, the requirers of that version joined
    by [", "], and a dependency path to the package. *)
Definition carries (deps : list Dependency) (g : DependencyGraph)
  (c : VersionConflict) : Prop :=
  exists versions hi,
    versionMap deps !! Package c = Some versions
    /\ versions !! Required c = Some (requirers deps (Package c) (Required c))
    /\ ConflictSource c
       = GoStrings.Join (requirers deps (Package c) (Required c)) ", "
    /\ Current c = String_ hi /\ newest versions hi
    /\ path_to g (Package c) (Path c).

End analysis.

Arguments LessThan {SemVer} Compare v o.
Arguments Equal {SemVer} Compare v o.
Arguments not_above {SemVer} Compare v o.
Arguments sort_Slice {SemVer} Compare semvers.
Arguments parse_versions {SemVer} NewVersion go_range versions.
Arguments conflicts_of {SemVer} NewVersion Compare String_ go_range g pkg versions.
Arguments detectVersionConflicts {SemVer} NewVersion Compare String_ go_range g deps.
Arguments Analyze {SemVer} NewVersion Compare String_ go_range a deps.
Arguments newest {SemVer} NewVersion Compare versions hi.
Arguments carries {SemVer} NewVersion Compare String_ deps g c.

(** *** Version normalization *)

Lemma app_nil_s (s : string) : (EmptyString ++ s)%string = s.
Proof. reflexivity. Qed.

Lemma app_cons_s (c : ascii) (p s : string) :
  (String c p ++ s)%string = String c (p ++ s).
Proof. reflexivity. Qed.

Ltac norm_app := repeat (rewrite app_cons_s || rewrite app_nil_s).

Lemma prefix_dot (c : ascii) (s : string) :
  has_prefix "." (String c s) = Ascii.eqb c ".".
Proof. cbn [has_prefix]. apply andb_true_r. Qed.

Lemma Split_dot_cons (c : ascii) (s : string) :
  Split (String c s) "." =
  if Ascii.eqb c "." then EmptyString :: Split s "." else push_head c (Split s ".").
Proof.
  unfold Split. cbn [split_go]. rewrite prefix_dot.
  destruct (Ascii.eqb c "."); reflexivity.
Qed.

Lemma Split_dot_nonempty (s : string) : Split s "." <> [].
Proof.
  destruct s as [|c s]; [discriminate |].
  rewrite Split_dot_cons. destruct (Ascii.eqb c "."); [discriminate |].
  destruct (Split s "."); discriminate.
Qed.

Lemma Join_push_head (c : ascii) (ps : list string) :
  ps <> [] -> Join (push_head c ps) "." = String c (Join ps ".").
Proof.
  destruct ps as [|p [|q ps]]; [done | reflexivity | reflexivity].
Qed.

Lemma Join_cons (p : string) (ps : list string) :
  ps <> [] -> Join (p :: ps) "." = (p ++ "." ++ Join ps ".")%string.
Proof. destruct ps; [done | reflexivity]. Qed.

Lemma Join_Split (s : string) : Join (Split s ".") "." = s.
Proof.
  induction s as [|c s IH]; [reflexivity |].
  rewrite Split_dot_cons. destruct (Ascii.eqb_spec c ".") as [->|Hc].
  - rewrite Join_cons by apply Split_dot_nonempty. rewrite IH. reflexivity.
  - rewrite Join_push_head by apply Split_dot_nonempty. rewrite IH. reflexivity.
Qed.

Lemma Split_no_dot (s : string) : Forall (fun p => no_dot p = true) (Split s ".").
Proof.
  induction s as [|c s IH]; [repeat constructor |].
  rewrite Split_dot_cons. destruct (Ascii.eqb c ".") eqn:Hc.
  - constructor; [reflexivity | exact IH].
  - destruct (Split s ".") as [|p ps]; simpl.
    + repeat constructor. simpl. rewrite Hc. reflexivity.
    + inversion IH; subst. constructor; [| assumption].
      simpl. rewrite Hc. simpl. assumption.
Qed.

Lemma Split_piece (p r : string) :
  no_dot p = true ->
  Split (p ++ String "." r) "." = p :: Split r ".".
Proof.
  induction p as [|c p IH]; intros Hp.
  - norm_app. rewrite Split_dot_cons. reflexivity.
  - simpl in Hp. apply andb_prop in Hp as [Hc Hp].
    norm_app.
    rewrite Split_dot_cons. apply negb_true_iff in Hc. rewrite Hc.
    rewrite IH by assumption. reflexivity.
Qed.

Lemma Split_single (p : string) : no_dot p = true -> Split p "." = [p].
Proof.
  induction p as [|c p IH]; intros Hp; [reflexivity |].
  simpl in Hp. apply andb_prop in Hp as [Hc Hp].
  rewrite Split_dot_cons. apply negb_true_iff in Hc. rewrite Hc.
  rewrite IH by assumption. reflexivity.
Qed.

Lemma Split_Join (ps : list string) :
  ps <> [] -> Forall (fun p => no_dot p = true) ps ->
  Split (Join ps ".") "." = ps.
Proof.
  induction ps as [|p ps IH]; [done |]. intros _ Hall.
  inversion Hall as [|? ? Hp Hps]; subst.
  destruct ps as [|q ps].
  - cbn [Join]. apply Split_single. assumption.
  - rewrite Join_cons by discriminate. norm_app.
    rewrite Split_piece by assumption. rewrite IH; [reflexivity | discriminate | assumption].
Qed.

Lemma Contains_cons (c : ascii) (s sub : string) :
  Contains (String c s) sub = has_prefix sub (String c s) || Contains s sub.
Proof. cbn [Contains]. destruct (has_prefix sub (String c s)); reflexivity. Qed.

Lemma has_prefix_trans (p a b : string) :
  has_prefix p a = true -> has_prefix a b = true -> has_prefix p b = true.
Proof.
  revert a b. induction p as [|x p IH]; intros a b Hpa Hab; [reflexivity |].
  destruct a as [|y a]; [discriminate |]. destruct b as [|z b]; [discriminate |].
  cbn [has_prefix] in *.
  apply andb_prop in Hpa as [Hyx Hpa]. apply andb_prop in Hab as [Hzy Hab].
  apply Ascii.eqb_eq in Hyx, Hzy. subst.
  rewrite Ascii.eqb_refl. simpl. eauto.
Qed.

Lemma has_prefix_app (p s : string) :
  has_prefix p s = true -> exists r, s = (p ++ r)%string.
Proof.
  revert s. induction p as [|x p IH]; intros s Hp; [by exists s |].
  destruct s as [|y s]; [discriminate |]. cbn [has_prefix] in Hp.
  apply andb_prop in Hp as [Hyx Hp]. apply Ascii.eqb_eq in Hyx. subst.
  destruct (IH s Hp) as [r ->]. by exists r.
Qed.

Lemma Contains_skip (a r : string) :
  no_dot a = true -> Contains (a ++ r) "..." = Contains r "...".
Proof.
  induction a as [|c a IH]; intros Ha; [reflexivity |].
  cbn [no_dot] in Ha. apply andb_prop in Ha as [Hc Ha].
  rewrite app_cons_s, Contains_cons. cbn [has_prefix].
  apply negb_true_iff in Hc. rewrite Hc. simpl. auto.
Qed.

Lemma Contains_no_dot (a : string) : no_dot a = true -> Contains a "..." = false.
Proof.
  induction a as [|c a IH]; intros Ha; [reflexivity |].
  cbn [no_dot] in Ha. apply andb_prop in Ha as [Hc Ha].
  rewrite Contains_cons. cbn [has_prefix].
  apply negb_true_iff in Hc. rewrite Hc. simpl. auto.
Qed.

(** The first piece of a split is a prefix of the string that holds no
    separator. *)
Lemma first_piece (sep s : string) :
  sep <> EmptyString ->
  exists first rest,
    split_go sep 0 s = first :: rest
    /\ has_prefix first s = true /\ Contains first sep = false.
Proof.
  intros Hsep. induction s as [|c s (first & rest & Heq & Hpre & Hno)].
  - exists EmptyString, []. repeat split. destruct sep; done.
  - cbn [split_go]. destruct (has_prefix sep (String c s)) eqn:Hhere.
    + eexists EmptyString, _. repeat split. destruct sep; done.
    + rewrite Heq. exists (String c first), rest. repeat split.
      * cbn [has_prefix]. rewrite Ascii.eqb_refl. exact Hpre.
      * rewrite Contains_cons, Hno, orb_false_r.
        destruct (has_prefix sep (String c first)) eqn:Hin; [| reflexivity].
        rewrite (has_prefix_trans sep (String c first) (String c s)) in Hhere;
          [discriminate | exact Hin |].
        cbn [has_prefix]. rewrite Ascii.eqb_refl. exact Hpre.
Qed.

Lemma cut_range_clean (u : string) : Contains (cut_range u) "..." = false.
Proof.
  unfold cut_range. destruct (Contains u "...") eqn:Hu; [| exact Hu].
  destruct (first_piece "..." u) as (first & rest & Heq & _ & Hno); [done |].
  unfold Split. rewrite Heq. exact Hno.
Qed.

Lemma pad3_long (ps : list string) : 3 <= length ps -> pad3 ps = ps.
Proof.
  intros Hlen. unfold pad3.
  replace (3 - length ps) with 0 by lia. apply app_nil_r.
Qed.

Lemma pad3_length (ps : list string) : 3 <= length (pad3 ps).
Proof. unfold pad3. rewrite length_app, length_replicate. lia. Qed.

Lemma pad3_no_dot (ps : list string) :
  Forall (fun p => no_dot p = true) ps ->
  Forall (fun p => no_dot p = true) (pad3 ps).
Proof.
  intros Hps. unfold pad3. apply Forall_app. split; [exact Hps |].
  apply Forall_replicate. reflexivity.
Qed.

Lemma pad3_nonempty (ps : list string) : pad3 ps <> [].
Proof. pose proof (pad3_length ps). destruct (pad3 ps); simpl in *; [lia | done]. Qed.

Lemma core_Split (u : string) : Split (core u) "." = pad3 (Split u ".").
Proof.
  unfold core. apply Split_Join; [apply pad3_nonempty |].
  apply pad3_no_dot, Split_no_dot.
Qed.

Lemma core_clean (u : string) :
  Contains u "..." = false -> Contains (core u) "..." = false.
Proof.
  intros Hu. unfold core.
  pose proof (Split_no_dot u) as Hall. pose proof (Join_Split u) as Hjoin.
  destruct (Split u ".") as [|a [|b [|c ps]]].
  - reflexivity.
  - inversion Hall; subst. change (pad3 [a]) with [a; "0"; "0"].
    rewrite Join_cons by done. rewrite Contains_skip by done. reflexivity.
  - inversion Hall as [|? ? Ha Hall']; subst. inversion Hall' as [|? ? Hb _]; subst.
    change (pad3 [a; b]) with [a; b; "0"].
    rewrite Join_cons by done. rewrite Contains_skip by done.
    rewrite Join_cons by done. norm_app. rewrite Contains_cons.
    rewrite Contains_skip by done.
    destruct b as [|x b]; [reflexivity |].
    cbn [no_dot] in Hb. apply andb_prop in Hb as [Hx _].
    apply negb_true_iff in Hx. norm_app. cbn [has_prefix]. rewrite Hx. reflexivity.
  - rewrite pad3_long by (simpl; lia). rewrite Hjoin. exact Hu.
Qed.

Lemma core_fixed (u : string) :
  Contains u "..." = false ->
  stripped_prefix (core u) = false ->
  normalizeVersion (core u) = core u.
Proof.
  intros Hu Hpre. unfold stripped_prefix in Hpre.
  apply orb_false_elim in Hpre as [Hpre Hge].
  apply orb_false_elim in Hpre as [Hpre Hcommit].
  apply orb_false_elim in Hpre as [Hv Hbranch].
  unfold normalizeVersion, strip_v. rewrite Hv, Hbranch, Hcommit.
  cbn [orb]. unfold strip_ge. rewrite Hge.
  unfold cut_range. rewrite (core_clean u Hu).
  rewrite core_Split. rewrite (pad3_long (pad3 _)) by apply pad3_length.
  reflexivity.
Qed.

Lemma normalizeVersion_shape (v : string) :
  exists u, Contains u "..." = false /\ normalizeVersion v = core u.
Proof.
  unfold normalizeVersion.
  destruct (_ || _).
  - exists "0.0.0". split; reflexivity.
  - eexists. split; [apply cut_range_clean | reflexivity].
Qed.

Lemma digit_not_dot (c : ascii) : Semver.is_digit c = true -> Ascii.eqb c "." = false.
Proof.
  intros Hc. destruct (Ascii.eqb_spec c "."); [subst; discriminate | reflexivity].
Qed.

Lemma all_digits_no_dot (s : string) : all_digits s = true -> no_dot s = true.
Proof.
  induction s as [|c s IH]; [done |]. cbn [all_digits no_dot].
  intros [Hc Hs]%andb_prop. rewrite (digit_not_dot c Hc). simpl. auto.
Qed.

Lemma numeric_no_dot (s : string) : numeric s = true -> no_dot s = true.
Proof. destruct s; [done |]. apply all_digits_no_dot. Qed.

Lemma numeric_digit_led (s : string) : numeric s = true -> digit_led s.
Proof.
  destruct s as [|d s]; [done |]. cbn [numeric all_digits].
  intros [Hd _]%andb_prop. by exists d, s.
Qed.

Lemma digit_led_app (s r : string) : digit_led s -> digit_led (s ++ r).
Proof. intros (d & rest & -> & Hd). exists d, (rest ++ r)%string. by split. Qed.

Lemma digit_led_prefix (s : string) (x : ascii) (p : string) :
  digit_led s -> Semver.is_digit x = false -> has_prefix (String x p) s = false.
Proof.
  intros (d & rest & -> & Hd) Hx. cbn [has_prefix].
  destruct (Ascii.eqb_spec d x); [congruence | reflexivity].
Qed.

Lemma digit_led_clean (s : string) : digit_led s -> stripped_prefix s = false.
Proof.
  intros Hs. unfold stripped_prefix, HasPrefix.
  rewrite !(digit_led_prefix s) by done. reflexivity.
Qed.

Lemma Join_numeric (ns : list string) :
  ns <> [] -> Forall (fun n => numeric n = true) ns ->
  digit_led (Join ns ".") /\ Contains (Join ns ".") "..." = false.
Proof.
  induction ns as [|n ns IH]; [done |]. intros _ Hall.
  inversion Hall as [|? ? Hn Hns]; subst.
  destruct ns as [|m ns].
  - cbn [Join]. split; [by apply numeric_digit_led |].
    by apply Contains_no_dot, numeric_no_dot.
  - destruct IH as [Hled Hclean]; [done | done |].
    rewrite Join_cons by done. split.
    + by apply digit_led_app, numeric_digit_led.
    + rewrite Contains_skip by by apply numeric_no_dot.
      norm_app. rewrite Contains_cons, Hclean, orb_false_r.
      destruct Hled as (d & rest & -> & Hd). cbn [has_prefix].
      by rewrite (digit_not_dot d Hd).
Qed.

Lemma append_assoc_s (a b c : string) :
  ((a ++ b) ++ c)%string = (a ++ b ++ c)%string.
Proof.
  induction a as [|x a IH]; [reflexivity |].
  rewrite !app_cons_s. by rewrite IH.
Qed.

Lemma Join_numeric_open (ns : list string) :
  ns <> [] -> Forall (fun n => numeric n = true) ns ->
  Contains (Join ns "." ++ "..") "..." = false.
Proof.
  induction ns as [|n ns IH]; [done |]. intros _ Hall.
  inversion Hall as [|? ? Hn Hns]; subst.
  assert (forall tail, digit_led tail -> Contains tail "..." = false ->
                       Contains (n ++ "." ++ tail) "..." = false) as Hstep.
  { intros tail (d & rest & -> & Hd) Htail.
    rewrite Contains_skip by by apply numeric_no_dot.
    norm_app. rewrite Contains_cons, Htail, orb_false_r. cbn [has_prefix].
    by rewrite (digit_not_dot d Hd). }
  destruct ns as [|m ns].
  - cbn [Join]. rewrite Contains_skip by by apply numeric_no_dot. reflexivity.
  - rewrite Join_cons by done.
    assert (((n ++ "." ++ Join (m :: ns) ".") ++ "..")
            = (n ++ "." ++ (Join (m :: ns) "." ++ "..")))%string as ->.
    { by rewrite !append_assoc_s. }
    apply Hstep.
    + apply digit_led_app. apply Join_numeric; done.
    + by apply IH.
Qed.

Lemma pad3_numeric (ns : list string) :
  ns <> [] -> Forall (fun n => numeric n = true) ns -> length ns <= 3 ->
  three_numeric (Join (pad3 ns) ".") = true /\ digit_led (Join (pad3 ns) ".").
Proof.
  intros Hne Hall Hlen. unfold three_numeric.
  assert (Forall (fun n => numeric n = true) (pad3 ns)) as Hpad.
  { unfold pad3. apply Forall_app. split; [done |]. by apply Forall_replicate. }
  rewrite Split_Join;
    [| apply pad3_nonempty | eapply Forall_impl; [exact Hpad | apply numeric_no_dot]].
  split.
  - destruct ns as [|a [|b [|c [|? ?]]]]; simpl in Hlen; try lia; try done;
      repeat match goal with H : Forall _ (_ :: _) |- _ => inversion H; subst; clear H end;
      cbn [pad3 length replicate app Nat.sub];
      repeat (apply andb_true_intro; split); done.
  - apply Join_numeric; [apply pad3_nonempty | done].
Qed.

(** [normalizeVersion] after its first stage. *)
Lemma normalize_digit_led (u : string) :
  digit_led u -> Contains u "..." = false ->
  normalizeVersion u = core u
  /\ normalizeVersion ("v" ++ u) = core u
  /\ normalizeVersion (">=" ++ u) = core u
  /\ normalizeVersion ("v>=" ++ u) = core u.
Proof.
  intros Hled Hclean.
  assert (normalizeVersion (">=" ++ u) = core u) as Hge.
  { unfold normalizeVersion.
    change (strip_v (">=" ++ u)) with (">=" ++ u)%string.
    change (strip_ge (">=" ++ u)) with u.
    change (HasPrefix (">=" ++ u) "branch=" || HasPrefix (">=" ++ u) "commit=")
      with false.
    unfold cut_range. rewrite Hclean. reflexivity. }
  assert (normalizeVersion u = core u) as Hplain.
  { pose proof (digit_led_clean u Hled) as Hpre. unfold stripped_prefix in Hpre.
    apply orb_false_elim in Hpre as [Hpre Hge'].
    apply orb_false_elim in Hpre as [Hpre Hcommit].
    apply orb_false_elim in Hpre as [Hv Hbranch].
    unfold normalizeVersion, strip_v. rewrite Hv, Hbranch, Hcommit. cbn [orb].
    unfold strip_ge. rewrite Hge'. unfold cut_range. rewrite Hclean. reflexivity. }
  split; [exact Hplain |]. split; [| split].
  - assert (strip_v u = u) as Hv.
    { unfold strip_v, HasPrefix. by rewrite (digit_led_prefix u). }
    unfold normalizeVersion in Hplain |- *. rewrite Hv in Hplain.
    change (strip_v ("v" ++ u)) with u. exact Hplain.
  - exact Hge.
  - exact Hge.
Qed.

(** *** Ranges *)

Lemma has_prefix_range (p a rest : string) :
  no_dot p = true ->
  has_prefix p (a ++ "..." ++ rest) = has_prefix p a.
Proof.
  revert a. induction p as [|x p IH]; intros a Hp; [reflexivity |].
  cbn [no_dot] in Hp. apply andb_prop in Hp as [Hx Hp].
  apply negb_true_iff in Hx.
  destruct a as [|c a].
  - norm_app. cbn [has_prefix].
    rewrite Ascii.eqb_sym, Hx. reflexivity.
  - rewrite app_cons_s. cbn [has_prefix]. by rewrite IH.
Qed.

Lemma drop_bytes_prefix (p a rest : string) :
  has_prefix p a = true ->
  drop_bytes (String.length p) (a ++ rest) = (drop_bytes (String.length p) a ++ rest)%string.
Proof.
  revert a. induction p as [|x p IH]; intros a Hp; [reflexivity |].
  destruct a as [|c a]; [discriminate |].
  cbn [has_prefix] in Hp. apply andb_prop in Hp as [_ Hp].
  rewrite app_cons_s. cbn [String.length drop_bytes]. by apply IH.
Qed.

Lemma Contains_app (a r sub : string) :
  Contains a sub = true -> Contains (a ++ r) sub = true.
Proof.
  induction a as [|c a IH].
  - cbn [Contains]. destruct sub as [|x sub]; [| discriminate].
    intros _. destruct r; reflexivity.
  - rewrite app_cons_s, !Contains_cons. intros [Hhere | Hlater]%orb_prop.
    + apply has_prefix_app in Hhere as [tail Htail].
      rewrite <- app_cons_s, Htail.
      assert (has_prefix sub ((sub ++ tail) ++ r) = true) as ->; [| reflexivity].
      clear. induction sub as [|x sub IH]; [reflexivity |].
      rewrite !app_cons_s. cbn [has_prefix].
      by rewrite Ascii.eqb_refl, IH.
    + rewrite (IH Hlater). apply orb_true_r.
Qed.

Lemma open_tail (c : ascii) (a : string) :
  Contains (String c a ++ "..") "..." = false ->
  Contains (a ++ "..") "..." = false.
Proof.
  rewrite app_cons_s, Contains_cons. intros [_ H]%orb_false_elim. exact H.
Qed.

(** The lower bound of a range, when it holds no [...] and does not end
    with a dot, is the first piece of the split at [...]. *)
Lemma range_first_piece (a upper : string) :
  Contains (a ++ "..") "..." = false ->
  exists rest, split_go "..." 0 (a ++ "..." ++ upper) = a :: rest.
Proof.
  induction a as [|c a IH]; intros Hopen.
  - norm_app. eexists. reflexivity.
  - destruct (IH (open_tail c a Hopen)) as [rest Hrest].
    rewrite app_cons_s. cbn [split_go].
    assert (has_prefix "..." (String c (a ++ "..." ++ upper)) = false) as ->.
    { rewrite app_cons_s, Contains_cons in Hopen.
      apply orb_false_elim in Hopen as [Hhere _].
      cbn [has_prefix] in Hhere |- *.
      destruct (Ascii.eqb c "."); [| reflexivity]. cbn [andb] in Hhere |- *.
      destruct a as [|d a]; [discriminate Hhere |].
      rewrite app_cons_s in Hhere |- *.
      destruct (Ascii.eqb d "."); [| reflexivity]. cbn [andb] in Hhere |- *.
      destruct a as [|e a]; [discriminate Hhere |].
      rewrite app_cons_s in Hhere |- *. exact Hhere. }
    rewrite Hrest. eexists. reflexivity.
Qed.

Lemma cut_range_lower (a upper : string) :
  Contains (a ++ "..") "..." = false ->
  cut_range (a ++ "..." ++ upper) = a /\ cut_range a = a.
Proof.
  intros Hopen. split.
  - unfold cut_range.
    assert (Contains (a ++ "..." ++ upper) "..." = true) as ->.
    { clear. induction a as [|c a IH]; [reflexivity |].
      rewrite app_cons_s, Contains_cons, IH. apply orb_true_r. }
    destruct (range_first_piece a upper Hopen) as [rest Hsplit].
    unfold Split. by rewrite Hsplit.
  - unfold cut_range. destruct (Contains a "...") eqn:Ha; [| reflexivity].
    apply (Contains_app a "..") in Ha. congruence.
Qed.

(** A range normalizes as its lower bound does. *)
Lemma normalizeVersion_range (a upper : string) :
  Contains (a ++ "..") "..." = false ->
  normalizeVersion (a ++ "..." ++ upper) = normalizeVersion a.
Proof.
  intros Hopen. unfold normalizeVersion.
  assert (exists a1, strip_v (a ++ "..." ++ upper) = (a1 ++ "..." ++ upper)%string
                     /\ strip_v a = a1
                     /\ Contains (a1 ++ "..") "..." = false) as (a1 & -> & -> & Hopen1).
  { unfold strip_v, HasPrefix. rewrite has_prefix_range by reflexivity.
    destruct (has_prefix "v" a) eqn:Hv.
    - exists (drop_bytes 1 a). split; [| split; [reflexivity |]].
      + apply (drop_bytes_prefix "v" a _ Hv).
      + destruct a as [|c a]; [discriminate |]. cbn [drop_bytes].
        by apply (open_tail c).
    - exists a. done. }
  unfold HasPrefix. rewrite !has_prefix_range by reflexivity.
  destruct (has_prefix "branch=" a1 || has_prefix "commit=" a1); [reflexivity |].
  assert (exists a2, strip_ge (a1 ++ "..." ++ upper) = (a2 ++ "..." ++ upper)%string
                     /\ strip_ge a1 = a2
                     /\ Contains (a2 ++ "..") "..." = false) as (a2 & -> & -> & Hopen2).
  { unfold strip_ge, HasPrefix. rewrite has_prefix_range by reflexivity.
    destruct (has_prefix ">=" a1) eqn:Hge.
    - exists (drop_bytes 2 a1). split; [| split; [reflexivity |]].
      + apply (drop_bytes_prefix ">=" a1 _ Hge).
      + destruct a1 as [|c a1]; [discriminate Hge |].
        destruct a1 as [|d a1];
          [cbn [has_prefix] in Hge; rewrite andb_false_r in Hge; discriminate |].
        cbn [drop_bytes]. by apply (open_tail d), (open_tail c).
    - exists a1. done. }
  destruct (cut_range_lower a2 upper Hopen2) as [-> ->]. reflexivity.
Qed.

(** C4. [normalizeVersion] is idempotent wherever its result does not start
    again with one of the prefixes it strips ([v], [>=]) or rewrites
    ([branch=], [commit=]); its result always has at least three
    dot-separated pieces; [branch=] and [commit=] references, with or
    without a leading [v], become [0.0.0]; a version of one to three
    dotted decimal numbers after an optional [v] and an optional [>=]
    becomes three dotted decimal numbers, where normalizing again changes
    nothing; and a range [A...B] normalizes as its lower bound [A] does
    when [A] holds no [...] and does not end with a dot, so that a range
    whose lower bound is such a version becomes the same three dotted
    decimal numbers. *)
Theorem normalizeVersion_law :
  (forall v,
      stripped_prefix (normalizeVersion v) = false ->
      normalizeVersion (normalizeVersion v) = normalizeVersion v)
  /\ (forall v, 3 <= length (Split (normalizeVersion v) "."))
  /\ (forall v,
      HasPrefix v "branch=" = true \/ HasPrefix v "commit=" = true ->
      normalizeVersion v = "0.0.0" /\ normalizeVersion ("v" ++ v) = "0.0.0")
  /\ (forall lead ns,
      In lead [""; "v"; ">="; "v>="] ->
      ns <> [] -> length ns <= 3 ->
      Forall (fun n => numeric n = true) ns ->
      let w := normalizeVersion (lead ++ Join ns ".") in
      w = Join (pad3 ns) "."
      /\ three_numeric w = true
      /\ normalizeVersion w = w)
  /\ (forall lower upper,
      Contains (lower ++ "..") "..." = false ->
      normalizeVersion (lower ++ "..." ++ upper) = normalizeVersion lower)
  /\ (forall lead ns upper,
      In lead [""; "v"; ">="; "v>="] ->
      ns <> [] -> length ns <= 3 ->
      Forall (fun n => numeric n = true) ns ->
      let w := normalizeVersion (lead ++ Join ns "." ++ "..." ++ upper) in
      w = Join (pad3 ns) "."
      /\ three_numeric w = true
      /\ normalizeVersion w = w).
Proof.
  assert (forall lead ns,
      In lead [""; "v"; ">="; "v>="] ->
      ns <> [] -> length ns <= 3 ->
      Forall (fun n => numeric n = true) ns ->
      let w := normalizeVersion (lead ++ Join ns ".") in
      w = Join (pad3 ns) "."
      /\ three_numeric w = true
      /\ normalizeVersion w = w) as Hnumeric; [| split; [| split; [| split; [| split; [| split]]]]].
  6: { apply normalizeVersion_range. }
  6: { intros lead ns upper Hlead Hne Hlen Hall.
       assert (normalizeVersion (lead ++ Join ns "." ++ "..." ++ upper)
               = normalizeVersion (lead ++ Join ns ".")) as ->;
         [| by apply Hnumeric].
       assert ((lead ++ Join ns "." ++ "..." ++ upper)
               = ((lead ++ Join ns ".") ++ "..." ++ upper))%string as ->.
       { cbn [In] in Hlead. destruct Hlead as [<-|[<-|[<-|[<-|[]]]]]; reflexivity. }
       apply normalizeVersion_range.
       rewrite append_assoc_s, Contains_skip; [by apply Join_numeric_open |].
       cbn [In] in Hlead. destruct Hlead as [<-|[<-|[<-|[<-|[]]]]]; reflexivity. }
  5: { exact Hnumeric. }
  2: { intros v Hpre. destruct (normalizeVersion_shape v) as (u & Hu & Hv).
       rewrite Hv in Hpre |- *. by apply core_fixed. }
  2: { intros v. destruct (normalizeVersion_shape v) as (u & _ & ->).
       rewrite core_Split. apply pad3_length. }
  2: { intros v [Hv|Hv]; apply has_prefix_app in Hv as [r ->]; split; reflexivity. }
  - intros lead ns Hlead Hne Hlen Hall w.
    destruct (Join_numeric ns Hne Hall) as [Hled Hclean].
    destruct (normalize_digit_led _ Hled Hclean) as (H0 & H1 & H2 & H3).
    destruct (pad3_numeric ns Hne Hall Hlen) as [Hthree Hled3].
    assert (w = core (Join ns ".")) as Hw.
    { subst w. cbn [In] in Hlead.
      destruct Hlead as [<-|[<-|[<-|[<-|[]]]]]; assumption. }
    assert (core (Join ns ".") = Join (pad3 ns) ".") as Hcore.
    { unfold core. rewrite Split_Join; [done | done |].
      eapply Forall_impl; [exact Hall | apply numeric_no_dot]. }
    rewrite Hw, Hcore. split; [done |]. split; [done |].
    rewrite <- Hcore. apply core_fixed; [done |].
    rewrite Hcore. by apply digit_led_clean.
Qed.


(** C4, as the specification states it, fails: normalizing ["vv1"] twice
    differs from normalizing it once, and ["1.2.3.4"] and ["abc"] do not
    become three dotted numbers. *)
Lemma normalizeVersion_not_idempotent :
  normalizeVersion (normalizeVersion "vv1") <> normalizeVersion "vv1"
  /\ three_numeric (normalizeVersion "1.2.3.4") = false
  /\ three_numeric (normalizeVersion "abc") = false.
Proof.
  split; [| split; reflexivity].
  intros Heq. vm_compute in Heq. discriminate.
Qed.

Lemma normalizeVersion_law_witness :
  normalizeVersion (normalizeVersion "1.0...2.0") = normalizeVersion "1.0...2.0"
  /\ normalizeVersion "vcommit=4f2a" = "0.0.0"
  /\ normalizeVersion "v>=1.2" = "1.2.0"
  /\ three_numeric (normalizeVersion "v>=1.2") = true
  /\ normalizeVersion "abc...def" = normalizeVersion "abc"
  /\ normalizeVersion "v1.0...2.0" = "1.0.0"
  /\ three_numeric (normalizeVersion "v1.0...2.0") = true.
Proof.
  destruct normalizeVersion_law as (Hidem & _ & Hrefs & Hnum & Hrange & Hbounds).
  split; [apply Hidem; reflexivity |].
  split; [apply (Hrefs "commit=4f2a"); right; reflexivity |].
  destruct (Hnum "v>=" ["1"; "2"]) as (Hw & Hthree & _);
    [cbn; tauto | discriminate | cbn; lia | repeat constructor |].
  split; [exact Hw |]. split; [exact Hthree |].
  split; [apply (Hrange "abc" "def"); reflexivity |].
  destruct (Hbounds "v" ["1"; "0"] "2.0") as (Hw' & Hthree' & _);
    [cbn; tauto | discriminate | cbn; lia | repeat constructor |].
  split; [exact Hw' | exact Hthree'].
Defined.

(** *** Cycle detection *)

Lemma children_universe (g : DependencyGraph) (a b : string) :
  edge g a b -> b ∈ universe g.
Proof.
  unfold edge, children, universe. intros Hb.
  destruct (edges g !! a) as [cs|] eqn:Ha; simpl in Hb; [| by apply elem_of_nil in Hb].
  apply elem_of_union_r, elem_of_list_to_set, list_elem_of_In, in_concat.
  exists cs. split; [| by apply list_elem_of_In].
  apply in_map_iff. exists (a, cs). split; [done |].
  apply list_elem_of_In, elem_of_map_to_list. done.
Qed.

Lemma chain_snoc (g : DependencyGraph) (l : list string) (x : string) :
  chain g l -> linked g l x -> chain g (l ++ [x]).
Proof.
  induction l as [|a l IH]; [done |]. intros Hl Hlink.
  destruct l as [|b l].
  - destruct Hlink as [|[p [Hp He]]]; [done |]. simpl in Hp. injection Hp as <-.
    simpl. done.
  - destruct Hl as [Hab Hl]. split; [done |]. apply IH; [done |].
    destruct Hlink as [|[p [Hp He]]]; [done |]. right. exists p. done.
Qed.

Lemma chain_app_r (g : DependencyGraph) (l1 l2 : list string) :
  chain g (l1 ++ l2) -> chain g l2.
Proof.
  induction l1 as [|a l1 IH]; [done |]. intros H. apply IH.
  destruct l1 as [|b l1]; simpl in *.
  - destruct l2; [done | by destruct H].
  - by destruct H.
Qed.

Lemma suffix_from_spec (node : string) (cur suf : list string) :
  suffix_from node cur = Some suf ->
  exists pre rest, cur = pre ++ suf /\ suf = node :: rest.
Proof.
  induction cur as [|n cur IH]; [done |]. cbn [suffix_from].
  destruct (String.eqb_spec n node) as [->|Hne].
  - intros [= <-]. by exists [], cur.
  - intros Hs. destruct (IH Hs) as (pre & rest & -> & ->).
    by exists (n :: pre), rest.
Qed.

Lemma suffix_from_elem (node : string) (cur : list string) :
  node ∈ cur -> is_Some (suffix_from node cur).
Proof.
  induction cur as [|n cur IH]; [by intros ?%elem_of_nil |].
  cbn [suffix_from]. destruct (String.eqb_spec n node); [by eauto |].
  intros [?|?]%elem_of_cons; [congruence | by apply IH].
Qed.

Section cycle_facts.
Variable g : DependencyGraph.

Lemma unvisited_shrinks (vis : gset string) (node : string) :
  node ∈ universe g -> node ∉ vis ->
  size (universe g ∖ ({[node]} ∪ vis)) < size (universe g ∖ vis).
Proof. intros Hin Hout. apply subset_size. set_solver. Qed.

Lemma unvisited_mono (vis vis' : gset string) :
  vis ⊆ vis' -> size (universe g ∖ vis') <= size (universe g ∖ vis).
Proof. intros Hsub. apply subseteq_size. set_solver. Qed.

Lemma wf_stack_mono (cur : list string) (vis vis' : gset string) :
  vis ⊆ vis' -> wf_stack g cur vis -> wf_stack g cur vis'.
Proof.
  intros Hsub (Hchain & Hnd & Hall). repeat split; [done | done |].
  eapply Forall_impl; [exact Hall |]. set_solver.
Qed.

Lemma wf_stack_push (cur : list string) (vis : gset string) (node : string) :
  wf_stack g cur vis -> linked g cur node -> node ∉ vis ->
  wf_stack g (cur ++ [node]) ({[node]} ∪ vis).
Proof.
  intros (Hchain & Hnd & Hall) Hlink Hnew. repeat split.
  - by apply chain_snoc.
  - apply NoDup_app. split; [done |]. split; [| apply NoDup_singleton].
    intros x Hx ->%list_elem_of_singleton.
    rewrite Forall_forall in Hall. by apply Hnew, Hall.
  - apply Forall_app. split.
    + eapply Forall_impl; [exact Hall |]. set_solver.
    + apply Forall_singleton. set_solver.
Qed.

Lemma found_cycle_good (cur suffix : list string) (vis : gset string) (node : string) :
  wf_stack g cur vis -> linked g cur node ->
  suffix_from node cur = Some suffix ->
  good_cycle g (suffix ++ [node]).
Proof.
  intros (Hchain & Hnd & _) Hlink Hsuf.
  destruct (suffix_from_spec _ _ _ Hsuf) as (pre & rest & -> & ->).
  exists node, rest. split; [done |]. split.
  - apply chain_snoc; [by eapply chain_app_r |].
    destruct Hlink as [Hnil|(p & Hp & He)]; [by destruct pre |].
    right. exists p. split; [| done].
    by rewrite last_app_cons in Hp.
  - apply NoDup_app in Hnd. tauto.
Qed.

Lemma dfs_sound (fuel : nat) :
  forall node cur st,
    size (universe g ∖ visited st) < fuel ->
    node ∈ universe g ->
    wf_stack g cur (visited st) -> linked g cur node -> cycles_ok g st ->
    exists b st',
      dfs fuel g node cur st = Some (b, st')
      /\ visited st ⊆ visited st' /\ cycles_ok g st'
      /\ cycles st `prefix_of` cycles st'.
Proof.
  induction fuel as [|fuel IH]; intros node cur st Hfuel Hnode Hwf Hlink Hok; [lia |].
  cbn [dfs]. case_bool_decide as Hpath.
  - destruct (suffix_from node cur) as [suffix|] eqn:Hsuf.
    + eexists true, _. split; [done |]. split; [done |]. split.
      * apply Forall_app. split; [done |]. apply Forall_singleton.
        by eapply found_cycle_good.
      * by eexists.
    + by exists true, st.
  - case_bool_decide as Hvis; [by exists false, st |].
    set (st1 := mkCS (cycles st) ({[node]} ∪ visited st) ({[node]} ∪ path st)).
    assert (forall todo sti,
               Forall (edge g node) todo ->
               visited st1 ⊆ visited sti -> cycles_ok g sti ->
               exists b st',
                 for_children (fun child s => dfs fuel g child (cur ++ [node]) s)
                              todo sti = Some (b, st')
                 /\ visited sti ⊆ visited st' /\ cycles_ok g st'
                 /\ cycles sti `prefix_of` cycles st') as Hloop.
    { induction todo as [|child todo IHtodo]; intros sti Hedges Hsub Hoki.
      - by exists false, sti.
      - inversion Hedges as [|? ? Hchild Hrest]; subst. cbn [for_children].
        destruct (IH child (cur ++ [node]) sti) as (b & st' & -> & Hgrow & Hok' & Hpre').
        + pose proof (unvisited_mono _ _ Hsub).
          pose proof (unvisited_shrinks (visited st) node Hnode Hvis).
          simpl in *. lia.
        + by eapply children_universe.
        + eapply wf_stack_mono; [exact Hsub |]. by apply wf_stack_push.
        + right. exists node. split; [apply last_snoc | done].
        + done.
        + destruct b; [by exists true, st' |].
          destruct (IHtodo st') as (b & st'' & -> & Hgrow' & Hok'' & Hpre'');
            [done | set_solver | done |].
          exists b, st''. split; [done |]. split; [set_solver |]. split; [done |].
          by etrans. }
    destruct (Hloop (children g node) st1) as (b & st2 & -> & Hgrow & Hok2 & Hpre2).
    + apply Forall_forall. done.
    + done.
    + done.
    + destruct b.
      * exists true, st2. split; [done |]. split; [simpl in *; set_solver | done].
      * eexists false, _. split; [done |]. split; [simpl in *; set_solver | done].
Qed.

Lemma unvisited_bound (vis : gset string) :
  size (universe g ∖ vis) < S (size (universe g)).
Proof.
  assert (universe g ∖ vis ⊆ universe g) as Hsub by set_solver.
  apply subseteq_size in Hsub. lia.
Qed.

Lemma for_roots_sound (roots : list string) :
  forall st,
    Forall (fun n => n ∈ universe g) roots -> cycles_ok g st ->
    exists st',
      for_roots visited (fun node s => dfs (S (size (universe g))) g node [] s)
                roots st = Some st'
      /\ cycles_ok g st' /\ cycles st `prefix_of` cycles st'.
Proof.
  induction roots as [|node roots IH]; intros st Hroots Hok; [by exists st |].
  inversion Hroots; subst. cbn [for_roots]. case_bool_decide; [by apply IH |].
  destruct (dfs_sound (S (size (universe g))) node [] st)
    as (b & st' & -> & _ & Hok' & Hpre'); [apply unvisited_bound | done | | by left | done |].
  { repeat split; [apply NoDup_nil_2 | done]. }
  destruct (IH st') as (st'' & -> & Hok'' & Hpre''); [done | done |].
  exists st''. split; [done |]. split; [done | by etrans].
Qed.

Lemma elem_of_black (st : CycleState) (a : string) :
  a ∈ black st <-> a ∈ visited st /\ a ∉ path st.
Proof. unfold black. apply elem_of_difference. Qed.

Lemma black_closed_tc (st : CycleState) (a b : string) :
  (forall a b, a ∈ black st -> edge g a b -> b ∈ black st) ->
  a ∈ black st -> tc (edge g) a b -> b ∈ black st.
Proof. intros Hclosed Ha Hab. induction Hab; eauto. Qed.

Lemma black_push (st : CycleState) (node a : string) :
  node ∉ visited st ->
  a ∈ black (mkCS (cycles st) ({[node]} ∪ visited st) ({[node]} ∪ path st))
  <-> a ∈ black st.
Proof.
  intros Hvis. rewrite !elem_of_black. simpl.
  rewrite !elem_of_union, !elem_of_singleton. split.
  - intros [[->|Ha] Hno]; [exfalso; apply Hno; by left |].
    split; [done |]. intros Hp. apply Hno. by right.
  - intros [Ha Hno]. split; [by right |].
    intros [->|Hp]; [by apply Hvis | by apply Hno].
Qed.

Lemma black_pop (st : CycleState) (node a : string) :
  node ∈ visited st -> node ∈ path st ->
  a ∈ black (mkCS (cycles st) (visited st) (path st ∖ {[node]}))
  <-> a ∈ black st \/ a = node.
Proof.
  intros Hvis Hpath. rewrite !elem_of_black. simpl.
  rewrite elem_of_difference, elem_of_singleton. split.
  - intros [Ha Hno]. destruct (decide (a = node)) as [->|Hne]; [by right |].
    left. split; [done |]. intros Hp. by apply Hno.
  - intros [[Ha Hno]| ->].
    + split; [done |]. intros [Hp _]. by apply Hno.
    + split; [done |]. intros [_ Hne]. by apply Hne.
Qed.

Lemma dfs_complete (fuel : nat) :
  forall node cur st b st',
    dfs fuel g node cur st = Some (b, st') ->
    tidy g st cur ->
    if b then exists c, cycles st' = cycles st ++ [c]
    else cycles st' = cycles st /\ tidy g st' cur
         /\ node ∈ black st' /\ black st ⊆ black st'
         /\ visited st ⊆ visited st'.
Proof.
  induction fuel as [|fuel IH]; intros node cur st b st' Hrun Htidy; [done |].
  cbn [dfs] in Hrun. case_bool_decide as Hpath.
  - destruct Htidy as (Hp & _ & _).
    destruct (suffix_from_elem node cur) as [suffix Hsuf].
    { rewrite Hp in Hpath. by apply elem_of_list_to_set in Hpath. }
    rewrite Hsuf in Hrun. injection Hrun as <- <-. by eexists.
  - case_bool_decide as Hvis.
    { injection Hrun as <- <-. split; [done |]. split; [done |].
      split; [by apply elem_of_black |]. split; intros a Ha; exact Ha. }
    set (st1 := mkCS (cycles st) ({[node]} ∪ visited st) ({[node]} ∪ path st)) in *.
    pose proof (fun a => black_push st node a Hvis) as Hblack1. fold st1 in Hblack1.
    assert (tidy g st1 (cur ++ [node])) as Htidy1.
    { destruct Htidy as (Hp & Hclosed & Hacyclic). split; [| split].
      - simpl. rewrite list_to_set_app_L, Hp. simpl.
        clear. set_solver.
      - intros x y Hx Hxy. apply Hblack1. apply Hblack1 in Hx. by eapply Hclosed.
      - intros x Hx. apply Hblack1 in Hx. by apply Hacyclic. }
    assert (forall todo sti b st',
               for_children (fun child s => dfs fuel g child (cur ++ [node]) s)
                            todo sti = Some (b, st') ->
               tidy g sti (cur ++ [node]) -> cycles sti = cycles st ->
               if b then exists c, cycles st' = cycles st ++ [c]
               else cycles st' = cycles st /\ tidy g st' (cur ++ [node])
                    /\ black sti ⊆ black st' /\ visited sti ⊆ visited st'
                    /\ Forall (fun child => child ∈ black st') todo) as Hloop.
    { clear Hrun. induction todo as [|child todo IHtodo];
        intros sti b' st'' Hfor Htidyi Hsame.
      - injection Hfor as <- <-. split; [done |]. split; [done |].
        split; [intros a Ha; exact Ha |]. split; [intros a Ha; exact Ha |].
        constructor.
      - cbn [for_children] in Hfor.
        destruct (dfs fuel g child (cur ++ [node]) sti) as [[b1 st1']|] eqn:Hchild;
          [| done].
        apply IH in Hchild; [| done]. destruct b1.
        + injection Hfor as <- <-. destruct Hchild as [c Hc]. exists c. congruence.
        + destruct Hchild as (Hcyc & Htidy' & Hin & Hsub & Hvsub).
          apply IHtodo in Hfor; [| done | congruence].
          destruct b'; [done |].
          destruct Hfor as (Hcyc' & Htidy'' & Hsub' & Hvsub' & Hall).
          split; [done |]. split; [done |].
          split; [intros a Ha; by apply Hsub', Hsub |].
          split; [intros a Ha; by apply Hvsub', Hvsub |].
          constructor; [by apply Hsub' | done]. }
    destruct (for_children _ (children g node) st1) as [[b2 st2]|] eqn:Hfor; [| done].
    apply Hloop in Hfor; [| done | done]. clear Hloop.
    destruct b2.
    + injection Hrun as <- <-. done.
    + injection Hrun as <- <-.
      destruct Hfor as (Hcyc & (Hp2 & Hclosed2 & Hacyclic2) & Hsub & Hvsub & Hall).
      destruct Htidy as (Hp & Hclosed & Hacyclic).
      rewrite Forall_forall in Hall.
      assert (node ∈ visited st2) as Hnode2.
      { apply Hvsub. simpl. apply elem_of_union_l. by apply elem_of_singleton. }
      assert (node ∈ path st2) as Hnodep.
      { rewrite Hp2, list_to_set_app_L. apply elem_of_union_r.
        simpl. clear. set_solver. }
      pose proof (fun a => black_pop st2 node a Hnode2 Hnodep) as Hblack3.
      split; [done |]. split; [| split; [| split]].
      * split; [| split].
        -- simpl. rewrite Hp2, list_to_set_app_L. simpl.
           assert (node ∉ (list_to_set cur : gset string)) as Hfresh
               by (by rewrite <- Hp).
           clear -Hfresh. set_solver.
        -- intros x y Hx Hxy. apply Hblack3. left. apply Hblack3 in Hx as [Hx| ->].
           ++ by eapply Hclosed2.
           ++ by apply Hall.
        -- intros x Hx Hcycle. apply Hblack3 in Hx as [Hx| ->].
           ++ by eapply Hacyclic2.
           ++ assert (node ∈ black st2) as Hbad.
              { inversion Hcycle as [? y Hxy|? y ? Hxy Hyz]; subst.
                - by apply Hall.
                - eapply black_closed_tc; [exact Hclosed2 | | exact Hyz].
                  by apply Hall. }
              apply elem_of_black in Hbad as [_ Hbad]. by apply Hbad.
      * apply Hblack3. by right.
      * intros x Hx. apply Hblack3. left. apply Hsub. by apply Hblack1.
      * intros x Hx. apply Hvsub. simpl. by apply elem_of_union_r.
Qed.

End cycle_facts.

Section cycle_facts2.
Variable g : DependencyGraph.

Lemma for_roots_seen {S : Type} (seen : S -> gset string)
  (visit : string -> S -> option (bool * S)) (roots : list string) (st : S) :
  Forall (fun n => n ∈ seen st) roots -> for_roots seen visit roots st = Some st.
Proof.
  induction roots as [|node roots IH]; [done |]. intros Hall.
  inversion Hall; subst. cbn [for_roots]. rewrite bool_decide_eq_true_2 by done.
  by apply IH.
Qed.

Lemma for_roots_complete (roots : list string) :
  forall st st',
    for_roots visited (fun node s => dfs (S (size (universe g))) g node [] s)
              roots st = Some st' ->
    Forall (fun n => n ∈ universe g) roots ->
    tidy g st [] -> cycles st = [] ->
    cycles st' <> []
    \/ (tidy g st' [] /\ black st ⊆ black st'
        /\ Forall (fun n => n ∈ black st') roots).
Proof.
  induction roots as [|node roots IH]; intros st st' Hrun Hroots Htidy Hnone.
  - injection Hrun as <-. right. done.
  - inversion Hroots as [|? ? Hnode Hrest]; subst. cbn [for_roots] in Hrun.
    assert (path st = ∅) as Hp by (destruct Htidy as (-> & _); done).
    case_bool_decide as Hvis.
    + destruct (IH _ _ Hrun Hrest Htidy Hnone) as [Hfound|(Ht & Hsub & Hall)];
        [by left |].
      right. split; [done |]. split; [done |]. constructor; [| done].
      apply Hsub. apply elem_of_black. split; [done |]. rewrite Hp. apply not_elem_of_empty.
    + destruct (dfs _ g node [] st) as [[b st1]|] eqn:Hdfs; [| done].
      pose proof (dfs_complete g _ _ _ _ _ _ Hdfs Htidy) as Hstep.
      destruct b.
      * left. destruct Hstep as [c Hc]. rewrite Hnone in Hc.
        destruct (dfs_sound g (S (size (universe g))) node [] st)
          as (b' & st1' & Heq & _ & Hok1 & _);
          [apply unvisited_bound | done | | by left | by unfold cycles_ok; rewrite Hnone |].
        { repeat split; [apply NoDup_nil_2 | done]. }
        rewrite Hdfs in Heq. injection Heq as <- <-.
        destruct (for_roots_sound g roots st1 Hrest Hok1) as (st'' & Heq & _ & [more Hmore]).
        rewrite Hrun in Heq. injection Heq as <-.
        rewrite Hmore, Hc. done.
      * destruct Hstep as (Hsame & Htidy1 & Hin & Hsub & _).
        destruct (IH _ _ Hrun Hrest Htidy1) as [Hfound|(Ht & Hsub' & Hall)];
          [congruence | by left |].
        right. split; [done |]. split; [intros x Hx; by apply Hsub', Hsub |].
        constructor; [by apply Hsub' | done].
Qed.

(** In a graph whose edges all leave nodes, a search from every node that
    reports nothing proves the graph acyclic. *)
Lemma detectCycles_from_complete (roots : list string) (found : list (list string)) :
  detectCycles_from g roots = Some found ->
  Forall (fun n => n ∈ universe g) roots ->
  (forall a, a ∈ dom (edges g) -> a ∈ roots) ->
  (exists a, tc (edge g) a a) ->
  found <> [].
Proof.
  unfold detectCycles_from. intros Hrun Hroots Hcover [a Hcycle].
  destruct (for_roots _ _ roots _) as [st'|] eqn:Hfor; [| done].
  injection Hrun as <-.
  assert (tidy g (mkCS [] ∅ ∅) []) as Hstart.
  { split; [done |]. split.
    - intros x y Hx. apply elem_of_black in Hx as [Hx _]. simpl in Hx.
      by apply not_elem_of_empty in Hx.
    - intros x Hx. apply elem_of_black in Hx as [Hx _]. simpl in Hx.
      by apply not_elem_of_empty in Hx. }
  destruct (for_roots_complete roots _ _ Hfor Hroots Hstart eq_refl)
    as [Hfound|(Htidy & _ & Hall)]; [done |].
  exfalso. destruct Htidy as (_ & _ & Hacyclic). apply (Hacyclic a); [| done].
  rewrite Forall_forall in Hall. apply Hall, Hcover.
  assert (exists b, edge g a b) as [b Hab].
  { inversion Hcycle; subst; eauto. }
  unfold edge, children in Hab. apply elem_of_dom.
  destruct (edges g !! a); [done | by apply elem_of_nil in Hab].
Qed.

Lemma detectCycles_from_sound (roots : list string) :
  Forall (fun n => n ∈ universe g) roots ->
  exists found,
    detectCycles_from g roots = Some found /\ Forall (good_cycle g) found.
Proof.
  intros Hroots. unfold detectCycles_from.
  destruct (for_roots_sound g roots (mkCS [] ∅ ∅) Hroots) as (st' & -> & Hok & _);
    [by constructor |].
  by exists (cycles st').
Qed.

End cycle_facts2.

Lemma add_edges_dom (from : string) (kids : list Dependency)
  (es : gmap string (list string)) :
  dom (foldl (fun es child => add_edge from (Name child) es) es kids)
    ⊆ {[from]} ∪ dom es.
Proof.
  revert es. induction kids as [|kid kids IH]; intros es; [set_solver |].
  cbn [foldl]. etrans; [apply IH |]. unfold add_edge. rewrite dom_insert. set_solver.
Qed.

Lemma add_node_dom (dep : Dependency) (ns : gmap string Node) :
  dom (add_node dep ns) = {[Name dep]} ∪ dom ns.
Proof.
  unfold add_node. destruct (ns !! Name dep); by rewrite dom_insert_L.
Qed.

Lemma buildDependencyGraph_sources (deps : list Dependency) :
  forall g,
    dom (edges g) ⊆ dom (nodes g) ->
    dom (edges (buildDependencyGraph g deps))
      ⊆ dom (nodes (buildDependencyGraph g deps)).
Proof.
  induction deps as [|dep deps IH]; intros g Hg; [done |].
  apply IH. simpl. rewrite add_node_dom.
  pose proof (add_edges_dom (Name dep) (Dependencies dep) (edges g)). set_solver.
Qed.

Lemma elem_of_ABC (x : string) :
  x ∈ ["A"; "B"; "C"] -> x = "A" \/ x = "B" \/ x = "C".
Proof. rewrite !elem_of_cons, elem_of_nil. tauto. Qed.

Lemma E6_run (roots : list string) :
  roots <> [] -> Forall (fun n => n ∈ ["A"; "B"; "C"]) roots ->
  exists c, detectCycles_from graph_E6 roots = Some [c]
            /\ same_nodes c ["A"; "B"; "C"].
Proof.
  destruct roots as [|r rest]; [done |]. intros _ Hall.
  inversion Hall as [|? ? Hr Hrest]; subst.
  unfold detectCycles_from. cbn [for_roots].
  rewrite bool_decide_eq_false_2 by set_solver.
  destruct (dfs _ graph_E6 r [] _) as [[b st1]|] eqn:Hdfs.
  - apply elem_of_ABC in Hr as [->|[->| ->]]; vm_compute in Hdfs;
      injection Hdfs as <- <-.
    all: rewrite for_roots_seen.
    all: try (eexists; split; [reflexivity |]; intros n; cbn [cycles];
              rewrite !elem_of_cons, !elem_of_nil; tauto).
    all: eapply Forall_impl; [exact Hrest |]; intros x Hx;
      apply elem_of_ABC in Hx as [->|[->| ->]]; vm_compute; reflexivity.
  - exfalso. apply elem_of_ABC in Hr as [->|[->| ->]]; vm_compute in Hdfs; done.
Qed.

Lemma two_cycles_simple :
  simple_cycle graph_two_cycles ["A"; "B"]
  /\ simple_cycle graph_two_cycles ["A"; "C"].
Proof.
  assert (children graph_two_cycles "A" = ["B"; "C"]) as HA by (vm_compute; reflexivity).
  assert (children graph_two_cycles "B" = ["A"]) as HB by (vm_compute; reflexivity).
  assert (children graph_two_cycles "C" = ["A"]) as HC by (vm_compute; reflexivity).
  split; (split; [| repeat constructor; set_solver]);
    cbn [chain app]; unfold edge; rewrite HA, ?HB, ?HC; set_solver.
Qed.

Lemma two_cycles_all_orders :
  Forall (fun roots =>
            exists c, detectCycles_from graph_two_cycles roots = Some [c]
                      /\ "C" ∉ c)
         (permutations ["A"; "B"; "C"]).
Proof.
  repeat constructor; (eexists; split; [vm_compute; reflexivity |]);
    rewrite !elem_of_cons, elem_of_nil; intros H;
    repeat destruct H as [H|H]; done.
Qed.

Section oracle.
Variable go_range : nat -> forall E : Type, gmap string E -> list (string * E).
Hypothesis go_range_perm :
  forall site E (m : gmap string E), go_range site E m ≡ₚ map_to_list m.

Lemma range_keys (site : nat) (E : Type) (m : gmap string E) (k : string) :
  k ∈ (go_range site E m).*1 <-> k ∈ dom m.
Proof.
  rewrite (go_range_perm site E m), list_elem_of_fmap, elem_of_dom. split.
  - intros ([k' v] & -> & Hin). apply elem_of_map_to_list in Hin. by exists v.
  - intros [v Hv]. exists (k, v). split; [done |]. by apply elem_of_map_to_list.
Qed.

Lemma dom_graph_E6 :
  dom (nodes graph_E6) = (list_to_set ["A"; "B"; "C"] : gset string).
Proof. vm_compute. reflexivity. Qed.

Lemma dom_graph_two_cycles :
  dom (nodes graph_two_cycles) = (list_to_set ["A"; "B"; "C"] : gset string).
Proof. vm_compute. reflexivity. Qed.

Lemma range_nonempty (site : nat) (E : Type) (m : gmap string E) :
  m <> ∅ -> (go_range site E m).*1 <> [].
Proof.
  intros Hm Hnil. apply Hm. apply map_to_list_empty_iff.
  apply Permutation_nil_r. rewrite <- (go_range_perm site E m).
  by destruct (go_range site E m).
Qed.

(** On the graph built from any list of records, [detectCycles] returns;
    every cycle it returns is a closed path of the graph through distinct
    nodes; it returns at least one cycle whenever the graph has one; and
    for the records A->B, B->C, C->A it returns a cycle whose nodes are
    exactly A, B and C. *)
Theorem detectCycles_reports_cycles (deps : list Dependency) :
  let g := buildDependencyGraph NewDependencyGraph deps in
  exists found,
    detectCycles go_range g = Some found
    /\ Forall (good_cycle g) found
    /\ ((exists a, tc (edge g) a a) -> found <> [])
    /\ (deps = records_E6 -> covers found ["A"; "B"; "C"]).
Proof.
  intros g. unfold detectCycles.
  assert (Forall (fun n => n ∈ universe g) (go_range 0 Node (nodes g)).*1) as Hroots.
  { apply Forall_forall. intros n Hn%range_keys. unfold universe. set_solver. }
  destruct (detectCycles_from_sound g _ Hroots) as (found & Hrun & Hgood).
  exists found. split; [done |]. split; [done |]. split.
  - eapply detectCycles_from_complete; [done | done |].
    intros a Ha. apply range_keys.
    by apply (buildDependencyGraph_sources deps NewDependencyGraph).
  - intros ->. destruct (E6_run (go_range 0 Node (nodes g)).*1) as (c & Hc & Hsame).
    + by apply range_nonempty.
    + apply Forall_forall. intros n Hn%range_keys.
      change (dom (nodes g)) with (dom (nodes graph_E6)) in Hn.
      rewrite dom_graph_E6 in Hn. by apply elem_of_list_to_set in Hn.
    + pose proof (eq_trans (eq_sym Hrun) Hc) as Heq. injection Heq as ->.
      exists c. split; [by apply list_elem_of_singleton | done].
Qed.

(** C3. For the records A -> B, A -> C, B -> A, C -> A, whose graph has the
    simple cycles through A, B and through A, C, [detectCycles] returns one
    cycle, and C is not on it, whatever the order in which the roots are
    visited: the search returns at the first node it meets again, without
    looking at the other children and without clearing the marks of the
    current path, so the cycle through A and C is not covered. *)
Theorem detectCycles_misses_in_any_order :
  simple_cycle graph_two_cycles ["A"; "B"]
  /\ simple_cycle graph_two_cycles ["A"; "C"]
  /\ exists c,
      detectCycles go_range graph_two_cycles = Some [c]
      /\ "C" ∉ c
      /\ ~ covers [c] ["A"; "C"].
Proof.
  split; [apply two_cycles_simple |]. split; [apply two_cycles_simple |].
  unfold detectCycles.
  pose proof two_cycles_all_orders as Hall. rewrite Forall_forall in Hall.
  destruct (Hall (go_range 0 Node (nodes graph_two_cycles)).*1) as (c & Hc & Hno).
  - apply permutations_Permutation. symmetry.
    apply NoDup_Permutation.
    + rewrite (go_range_perm 0 Node _). apply NoDup_fst_map_to_list.
    + repeat constructor; set_solver.
    + intros x. rewrite range_keys, dom_graph_two_cycles.
      apply elem_of_list_to_set.
  - exists c. split; [done |]. split; [done |].
    intros (r & ->%list_elem_of_singleton & Hsame).
    apply Hno, Hsame. set_solver.
Qed.

End oracle.
Lemma range_sorted_perm :
  forall site E (m : gmap string E), range_sorted site E m ≡ₚ map_to_list m.
Proof. reflexivity. Qed.

Lemma edge_children (g : DependencyGraph) (a b : string) (kids : list string) :
  children g a = kids -> b ∈ kids -> edge g a b.
Proof. intros <-. done. Qed.

Lemma detectCycles_reports_cycles_witness :
  exists found,
    detectCycles range_sorted graph_E6 = Some found
    /\ found <> [] /\ covers found ["A"; "B"; "C"].
Proof.
  destruct (detectCycles_reports_cycles range_sorted range_sorted_perm records_E6)
    as (found & Hrun & _ & Hsome & Hcover).
  exists found. split; [exact Hrun |]. split; [| by apply Hcover].
  apply Hsome. exists "A".
  eapply tc_l; [apply (edge_children _ "A" "B" ["B"]); [reflexivity | by left] |].
  eapply tc_l; [apply (edge_children _ "B" "C" ["C"]); [reflexivity | by left] |].
  apply tc_once, (edge_children _ "C" "A" ["A"]); [reflexivity | by left].
Defined.

Lemma detectCycles_misses_in_any_order_witness :
  exists c,
    detectCycles range_sorted graph_two_cycles = Some [c]
    /\ "C" ∉ c
    /\ ~ covers [c] ["A"; "C"].
Proof.
  exact (proj2 (proj2 (detectCycles_misses_in_any_order range_sorted range_sorted_perm))).
Defined.

(** In the order of the sorted names the cycle returned is A, B, A. *)
Lemma detectCycles_misses_cycle :
  detectCycles range_sorted graph_two_cycles = Some [["A"; "B"; "A"]]
  /\ simple_cycle graph_two_cycles ["A"; "C"]
  /\ ~ covers [["A"; "B"; "A"]] ["A"; "C"].
Proof.
  split; [vm_compute; reflexivity |]. split.
  - split.
    + cbn [chain app]. unfold edge. 
      assert (children graph_two_cycles "A" = ["B"; "C"]) as -> by (vm_compute; reflexivity).
      assert (children graph_two_cycles "C" = ["A"]) as -> by (vm_compute; reflexivity).
      set_solver.
    + repeat constructor; set_solver.
  - intros (r & Hr & Hsame). apply list_elem_of_singleton in Hr as ->.
    assert ("C" ∈ ["A"; "B"; "A"]) as Hbad by (apply Hsame; set_solver).
    set_solver.
Qed.


(** *** Dependency paths *)

Section path_facts.
Variable g : DependencyGraph.
Variable target : string.

Lemma path_dfs_sound (fuel : nat) :
  forall node st,
    size (universe g ∖ seen st) < fuel ->
    node ∈ universe g ->
    exists b st',
      path_dfs fuel g target node st = Some (b, st')
      /\ seen st ⊆ seen st'
      /\ if b then exists walk, trail st' = trail st ++ node :: walk
                                /\ walk_to g target node walk
         else trail st' = trail st.
Proof.
  induction fuel as [|fuel IH]; intros node st Hfuel Hnode; [lia |].
  cbn [path_dfs]. destruct (String.eqb_spec node target) as [->|Hne].
  - eexists true, _. split; [done |]. split; [done |].
    exists []. split; [done |]. split; done.
  - case_bool_decide as Hseen; [by exists false, st |].
    set (st1 := mkPS ({[node]} ∪ seen st) (trail st ++ [node])).
    assert (seen st ⊆ seen st1) as Hsub1.
    { intros x Hx. simpl. by apply elem_of_union_r. }
    assert (forall todo sti,
               Forall (edge g node) todo ->
               seen st1 ⊆ seen sti -> trail sti = trail st1 ->
               exists b st',
                 for_children (fun child s => path_dfs fuel g target child s)
                              todo sti = Some (b, st')
                 /\ seen sti ⊆ seen st'
                 /\ if b then exists walk, trail st' = trail st ++ node :: walk
                                           /\ walk_to g target node walk
                    else trail st' = trail st1) as Hloop.
    { induction todo as [|child todo IHtodo]; intros sti Hedges Hsub Htrail.
      - by exists false, sti.
      - inversion Hedges as [|? ? Hchild Hrest]; subst. cbn [for_children].
        destruct (IH child sti) as (b & st' & -> & Hgrow & Hres).
        + pose proof (unvisited_mono g _ _ Hsub) as Hm.
          pose proof (unvisited_shrinks g (seen st) node Hnode Hseen) as Hs.
          simpl in Hm. lia.
        + by eapply children_universe.
        + destruct b.
          * exists true, st'. split; [done |]. split; [done |].
            destruct Hres as (walk & Hwalk & Hchain & Hlast).
            exists (child :: walk). split.
            -- rewrite Hwalk, Htrail. simpl. by rewrite <- app_assoc.
            -- split; [by split |]. by rewrite last_cons_cons.
          * destruct (IHtodo st') as (b & st'' & -> & Hgrow' & Hres');
              [done | by etrans | congruence |].
            exists b, st''. split; [done |]. split; [by etrans | done]. }
    destruct (Hloop (children g node) st1) as (b & st2 & -> & Hgrow & Hres).
    + by apply Forall_forall.
    + done.
    + done.
    + destruct b.
      * exists true, st2. split; [done |]. split; [by etrans | done].
      * eexists false, _. split; [done |]. split; [by etrans |].
        simpl. rewrite Hres. simpl. apply removelast_last.
Qed.

Lemma path_dfs_complete (fuel : nat) :
  forall node st st',
    path_dfs fuel g target node st = Some (false, st') ->
    searched g target st ->
    searched g target st' /\ node ∈ seen st' /\ seen st ⊆ seen st'
    /\ trail st' = trail st.
Proof.
  induction fuel as [|fuel IH]; intros node st st' Hrun Hinv; [done |].
  cbn [path_dfs] in Hrun. destruct (String.eqb_spec node target) as [->|Hne]; [done |].
  case_bool_decide as Hseen; [by injection Hrun as <- |].
  set (st1 := mkPS ({[node]} ∪ seen st) (trail st ++ [node])) in *.
  assert (searched g target st1) as Hinv1.
  { destruct Hinv as [Ht Hclosed]. split.
    - simpl. intros [Hin|Hin]%elem_of_union; [| by apply Ht].
      apply elem_of_singleton in Hin. by apply Hne.
    - intros x y Hx Hoff Hxy. simpl in Hx, Hoff. simpl.
      apply elem_of_union in Hx as [Hx|Hx].
      + apply elem_of_singleton in Hx as ->. exfalso. apply Hoff.
        apply elem_of_app. right. by apply list_elem_of_singleton.
      + apply elem_of_union_r. eapply Hclosed; [exact Hx | | exact Hxy].
        intros Hin. apply Hoff, elem_of_app. by left. }
  assert (forall todo sti st',
             for_children (fun child s => path_dfs fuel g target child s)
                          todo sti = Some (false, st') ->
             searched g target sti -> trail sti = trail st1 ->
             searched g target st' /\ seen sti ⊆ seen st' /\ trail st' = trail st1
             /\ Forall (fun child => child ∈ seen st') todo) as Hloop.
  { clear Hrun. induction todo as [|child todo IHtodo];
      intros sti st'' Hfor Hinvi Htrail.
    - injection Hfor as <-. split; [done |]. split; [done |]. split; [done |].
      constructor.
    - cbn [for_children] in Hfor.
      destruct (path_dfs fuel g target child sti) as [[[] st1']|] eqn:Hchild;
        try done.
      apply IH in Hchild as (Hinv' & Hin & Hsub & Htr); [| done].
      apply IHtodo in Hfor as (Hinv'' & Hsub' & Htr' & Hall); [| done | congruence].
      split; [done |]. split; [by etrans |]. split; [done |].
      constructor; [by apply Hsub' | done]. }
  destruct (for_children _ (children g node) st1) as [[[] st2]|] eqn:Hfor; try done.
  injection Hrun as <-.
  apply Hloop in Hfor as ((Ht2 & Hclosed2) & Hsub & Htr & Hall); [| done | done].
  clear Hloop. rewrite Forall_forall in Hall.
  assert (node ∈ seen st2) as Hnode2.
  { apply Hsub. simpl. apply elem_of_union_l. by apply elem_of_singleton. }
  split; [| split; [| split]].
  - split; [done |]. intros x y Hx Hoff Hxy. simpl in Hx, Hoff. simpl.
    rewrite Htr in Hoff. simpl in Hoff. rewrite removelast_last in Hoff.
    destruct (decide (x = node)) as [->|Hxne].
    + by apply Hall.
    + eapply Hclosed2; [exact Hx | | exact Hxy]. rewrite Htr. simpl.
      intros [Hin|Hin]%elem_of_app; [by apply Hoff |].
      apply list_elem_of_singleton in Hin. by apply Hxne.
  - done.
  - simpl. intros x Hx. apply Hsub. simpl. by apply elem_of_union_r.
  - simpl. rewrite Htr. simpl. apply removelast_last.
Qed.

Lemma searched_closed (st : PathState) (a b : string) :
  searched g target st -> trail st = [] -> a ∈ seen st ->
  rtc (edge g) a b -> b ∈ seen st.
Proof.
  intros [_ Hclosed] Htrail Ha Hab. induction Hab as [|x y z Hxy _ IH]; [done |].
  apply IH. eapply Hclosed; [exact Ha | | exact Hxy].
  rewrite Htrail. apply not_elem_of_nil.
Qed.

Lemma path_roots_spec (roots : list string) :
  forall st,
    Forall (fun n => n ∈ universe g) roots ->
    searched g target st -> trail st = [] ->
    exists found,
      path_roots (S (size (universe g))) g target roots st = Some found
      /\ (found = []
          \/ exists r walk, found = r :: walk /\ r ∈ roots /\ walk_to g target r walk)
      /\ ((exists r, (r ∈ roots \/ r ∈ seen st) /\ rtc (edge g) r target) ->
          found <> []).
Proof.
  induction roots as [|node roots IH]; intros st Hroots Hinv Htrail.
  - exists []. split; [done |]. split; [by left |].
    intros (r & [Hr|Hr] & Hreach); [by apply elem_of_nil in Hr |].
    destruct Hinv as [Ht ?]. exfalso. apply Ht.
    eapply searched_closed; [by split | done | exact Hr | exact Hreach].
  - inversion Hroots as [|? ? Hnode Hrest]; subst. cbn [path_roots].
    case_bool_decide as Hseen.
    + destruct (IH st Hrest Hinv Htrail) as (found & -> & Hshape & Hreach).
      exists found. split; [done |]. split.
      * destruct Hshape as [->|(r & walk & -> & Hr & Hw)]; [by left |].
        right. exists r, walk. split; [done |]. split; [by right | done].
      * intros (r & [Hr|Hr] & Hrt); apply Hreach; exists r; (split; [| done]).
        -- apply elem_of_cons in Hr as [->|Hr]; [by right | by left].
        -- by right.
    + destruct (path_dfs_sound (S (size (universe g))) node st)
        as (b & st' & Hrun & Hgrow & Hres); [apply unvisited_bound | done |].
      rewrite Hrun. destruct b.
      * destruct Hres as (walk & Hwalk & Hw). rewrite Htrail in Hwalk. simpl in Hwalk.
        exists (trail st'). split; [done |]. rewrite Hwalk. split; [| done].
        right. exists node, walk. split; [done |]. split; [by left | done].
      * apply path_dfs_complete in Hrun as (Hinv' & Hin & Hsub & Htr); [| done].
        destruct (IH st' Hrest Hinv') as (found & -> & Hshape & Hreach); [congruence |].
        exists found. split; [done |]. split.
        -- destruct Hshape as [->|(r & walk & -> & Hr & Hw)]; [by left |].
           right. exists r, walk. split; [done |]. split; [by right | done].
        -- intros (r & [Hr|Hr] & Hrt); apply Hreach; exists r; (split; [| done]).
           ++ apply elem_of_cons in Hr as [->|Hr]; [by right | by left].
           ++ right. by apply Hsub.
Qed.

End path_facts.

(** *** The version table *)

Lemma extend_extend (old : option (list string)) (l1 l2 : list string) :
  extend (extend old l1) l2 = extend old (l1 ++ l2).
Proof.
  destruct l1 as [|x l1]; [done |]. destruct l2 as [|y l2].
  - simpl. by rewrite app_nil_r.
  - simpl. by rewrite <- app_assoc.
Qed.

Lemma is_at_spec (name version : string) (dep : Dependency) :
  is_at name version dep = true <-> Name dep = name /\ Version dep = version.
Proof.
  unfold is_at. rewrite andb_true_iff, !String.eqb_eq. done.
Qed.

Lemma lookup2_record (name version by_ n v : string)
  (vm : gmap string (gmap string (list string))) :
  lookup2 (record_version name version by_ vm) n v
  = extend (lookup2 vm n v)
           (if String.eqb name n && String.eqb version v then [by_] else []).
Proof.
  unfold lookup2, record_version.
  destruct (String.eqb_spec name n) as [->|Hn].
  - rewrite lookup_insert_eq. simpl.
    destruct (String.eqb_spec version v) as [->|Hv].
    + rewrite lookup_insert_eq. simpl. by destruct (vm !! n).
    + rewrite lookup_insert_ne by done. simpl. by destruct (vm !! n).
  - rewrite lookup_insert_ne by done. done.
Qed.

Lemma is_at_swap (name version : string) (dep : Dependency) :
  String.eqb (Name dep) name && String.eqb (Version dep) version
  = is_at name version dep.
Proof. done. Qed.

Lemma lookup2_children (parent n v : string) (kids : list Dependency) :
  forall vm,
    lookup2 (foldl (fun vm child =>
                      record_version (Name child) (Version child) parent vm)
                   vm kids) n v
    = extend (lookup2 vm n v)
             (flat_map (fun child => if is_at n v child then [parent] else []) kids).
Proof.
  induction kids as [|kid kids IH]; intros vm; [done |].
  cbn [foldl flat_map]. rewrite IH, lookup2_record, extend_extend. done.
Qed.

Lemma lookup2_collect (dep : Dependency) (n v : string)
  (vm : gmap string (gmap string (list string))) :
  lookup2 (collect_dep vm dep) n v = extend (lookup2 vm n v) (requirers_of n v dep).
Proof.
  unfold collect_dep, requirers_of.
  rewrite lookup2_children, lookup2_record, extend_extend. done.
Qed.

Lemma lookup2_fold (deps : list Dependency) (n v : string) :
  forall vm,
    lookup2 (foldl collect_dep vm deps) n v
    = extend (lookup2 vm n v) (requirers deps n v).
Proof.
  induction deps as [|dep deps IH]; intros vm; [done |].
  cbn [foldl]. unfold requirers. cbn [flat_map].
  rewrite IH, lookup2_collect, extend_extend. done.
Qed.

(** The table holds, for each name and version, exactly the requirers in
    reading order; a pair that never occurs has no entry. *)
Lemma versionMap_lookup (deps : list Dependency) (n v : string) :
  lookup2 (versionMap deps) n v = extend None (requirers deps n v).
Proof. unfold versionMap. by rewrite lookup2_fold. Qed.

Lemma occurs_requirers (deps : list Dependency) (n v : string) :
  occurs deps n v -> requirers deps n v <> [].
Proof.
  intros (dep & Hdep & Hat) Hnil. unfold requirers in Hnil.
  assert (requirers_of n v dep = []) as Hone.
  { apply list_elem_of_In in Hdep.
    destruct (requirers_of n v dep) as [|x l] eqn:Hr; [done |].
    assert (In x (flat_map (requirers_of n v) deps)) as Hin.
    { apply in_flat_map. exists dep. split; [done |]. rewrite Hr. by left. }
    rewrite Hnil in Hin. done. }
  unfold requirers_of in Hone. apply app_eq_nil in Hone as [Hroot Hkids].
  destruct Hat as [Hat|(child & Hchild & Hat)].
  - apply is_at_spec in Hat. rewrite Hat in Hroot. done.
  - apply is_at_spec in Hat. apply list_elem_of_In in Hchild.
    assert (In (Name dep)
               (flat_map (fun child => if is_at n v child then [Name dep] else [])
                         (Dependencies dep))) as Hin.
    { apply in_flat_map. exists child. split; [done |]. rewrite Hat. by left. }
    rewrite Hkids in Hin. done.
Qed.

Lemma versionMap_occurs (deps : list Dependency) (n v : string) :
  occurs deps n v ->
  exists versions,
    versionMap deps !! n = Some versions
    /\ versions !! v = Some (requirers deps n v).
Proof.
  intros Hocc. pose proof (versionMap_lookup deps n v) as Hl.
  pose proof (occurs_requirers deps n v Hocc) as Hne.
  unfold lookup2 in Hl. destruct (versionMap deps !! n) as [versions|].
  - exists versions. split; [done |]. simpl in Hl. rewrite Hl.
    by destruct (requirers deps n v).
  - simpl in Hl. by destruct (requirers deps n v).
Qed.

Lemma versionMap_entry (deps : list Dependency) (n v : string)
  (versions : gmap string (list string)) (sources : list string) :
  versionMap deps !! n = Some versions -> versions !! v = Some sources ->
  sources = requirers deps n v /\ sources <> [].
Proof.
  intros Hn Hv. pose proof (versionMap_lookup deps n v) as Hl.
  unfold lookup2 in Hl. rewrite Hn in Hl. simpl in Hl. rewrite Hv in Hl.
  destruct (requirers deps n v); [done |]. injection Hl as ->. done.
Qed.

(** *** The graph built from the records *)

Lemma children_add_edge (from to a : string) (es : gmap string (list string)) :
  default [] (add_edge from to es !! a)
  = default [] (es !! a) ++ (if String.eqb from a then [to] else []).
Proof.
  unfold add_edge. destruct (String.eqb_spec from a) as [->|Hne].
  - by rewrite lookup_insert_eq.
  - rewrite lookup_insert_ne by done. by rewrite app_nil_r.
Qed.

Lemma edge_add_dep (g : DependencyGraph) (dep : Dependency) (a b : string) :
  edge (add_dep g dep) a b
  <-> edge g a b \/ (a = Name dep /\ exists kid, kid ∈ Dependencies dep /\ Name kid = b).
Proof.
  unfold edge, children, add_dep. cbn [edges].
  generalize (edges g) as es. clear g.
  induction (Dependencies dep) as [|kid kids IH]; intros es.
  - cbn [foldl]. split; [by left |]. intros [H|(_ & kid & Hk & _)]; [done |].
    by apply elem_of_nil in Hk.
  - cbn [foldl]. rewrite IH, children_add_edge, elem_of_app. split.
    + intros [[H|H]|(-> & kid' & Hk & <-)].
      * by left.
      * right. destruct (String.eqb_spec (Name dep) a) as [<-|]; [| by apply elem_of_nil in H].
        apply list_elem_of_singleton in H as ->. split; [done |].
        exists kid. split; [by left | done].
      * right. split; [done |]. exists kid'. split; [by right | done].
    + intros [H|(-> & kid' & Hk & <-)].
      * left. by left.
      * apply elem_of_cons in Hk as [->|Hk].
        -- left. right. rewrite String.eqb_refl. by apply list_elem_of_singleton.
        -- right. split; [done |]. by exists kid'.
Qed.

Lemma buildDependencyGraph_spec (deps : list Dependency) :
  forall g,
    (forall dep, dep ∈ deps ->
       Name dep ∈ dom (nodes (buildDependencyGraph g deps)))
    /\ (forall a, a ∈ dom (nodes g) ->
          a ∈ dom (nodes (buildDependencyGraph g deps)))
    /\ (forall a b,
          edge (buildDependencyGraph g deps) a b
          <-> edge g a b
              \/ exists dep kid, dep ∈ deps /\ kid ∈ Dependencies dep
                   /\ Name dep = a /\ Name kid = b).
Proof.
  induction deps as [|dep deps IH]; intros g.
  - split; [| split].
    + intros dep Hdep. by apply elem_of_nil in Hdep.
    + done.
    + intros a b. split; [by left |]. intros [H|(dep & kid & Hdep & _)]; [done |].
      by apply elem_of_nil in Hdep.
  - destruct (IH (add_dep g dep)) as (Hnodes & Hkeep & Hedges).
    assert (forall a, a ∈ dom (nodes g) -> a ∈ dom (nodes (add_dep g dep))) as Hstep.
    { intros a Ha. simpl. rewrite add_node_dom. by apply elem_of_union_r. }
    split; [| split].
    + intros d [->|Hd]%elem_of_cons; [| by apply Hnodes].
      apply Hkeep. simpl. rewrite add_node_dom.
      apply elem_of_union_l. by apply elem_of_singleton.
    + intros a Ha. by apply Hkeep, Hstep.
    + intros a b. cbn [buildDependencyGraph foldl].
      change (foldl add_dep (add_dep g dep) deps)
        with (buildDependencyGraph (add_dep g dep) deps).
      rewrite Hedges, edge_add_dep. split.
      * intros [[H|(-> & kid & Hk & <-)]|(d & kid & Hd & Hk & <- & <-)].
        -- by left.
        -- right. exists dep, kid. split; [by left | done].
        -- right. exists d, kid. split; [by right | done].
      * intros [H|(d & kid & Hd & Hk & <- & <-)]; [by left; left |].
        apply elem_of_cons in Hd as [->|Hd].
        -- left. right. split; [done |]. by exists kid.
        -- right. by exists d, kid.
Qed.

(** *** Conflict detection *)

Section conflicts.
Variable SemVer : Type.
Variable NewVersion : string -> option SemVer.
Variable Compare : SemVer -> SemVer -> comparison.
Variable String_ : SemVer -> string.
Variable go_range : nat -> forall E : Type, gmap string E -> list (string * E).

(** The loops visit every binding once, and [Compare] is a total
    preorder. *)
Hypothesis go_range_perm :
  forall site E (m : gmap string E), go_range site E m ≡ₚ map_to_list m.
Hypothesis Compare_antisym : forall v o, Compare o v = CompOpp (Compare v o).
Hypothesis Compare_trans :
  forall a b c, Compare a b <> Gt -> Compare b c <> Gt -> Compare a c <> Gt.

Lemma not_above_le (v o : SemVer) : not_above Compare v o <-> Compare v o <> Gt.
Proof using Compare_antisym.
  unfold not_above, LessThan. rewrite (Compare_antisym v o).
  destruct (Compare v o); simpl; split; congruence.
Qed.

Lemma not_above_refl (v : SemVer) : not_above Compare v v.
Proof using Compare_antisym.
  apply not_above_le. pose proof (Compare_antisym v v) as H.
  destruct (Compare v v); simpl in H; congruence.
Qed.

Lemma not_above_trans : Transitive (not_above Compare).
Proof using Compare_antisym Compare_trans.
  intros a b c Hab Hbc. apply not_above_le. apply not_above_le in Hab, Hbc.
  by eapply Compare_trans.
Qed.

Lemma not_above_total : Total (not_above Compare).
Proof using Compare_antisym.
  intros a b. unfold not_above, LessThan. rewrite (Compare_antisym b a).
  destruct (Compare b a); simpl; auto.
Qed.

Lemma sorted_head (l : list SemVer) (lo x : SemVer) :
  StronglySorted (not_above Compare) l -> head l = Some lo -> x ∈ l ->
  not_above Compare lo x.
Proof using Compare_antisym.
  intros Hs Hhead Hx. destruct l as [|y l]; [done |]. injection Hhead as ->.
  apply StronglySorted_inv in Hs as [_ Hall].
  apply elem_of_cons in Hx as [->|Hx]; [apply not_above_refl |].
  rewrite Forall_forall in Hall. by apply Hall.
Qed.

Lemma sorted_last (l : list SemVer) (hi x : SemVer) :
  StronglySorted (not_above Compare) l -> last l = Some hi -> x ∈ l ->
  not_above Compare x hi.
Proof using Compare_antisym.
  induction l as [|y l IH]; intros Hs Hlast Hx; [by apply elem_of_nil in Hx |].
  apply StronglySorted_inv in Hs as [Hs Hall].
  destruct l as [|z l].
  - injection Hlast as ->. apply list_elem_of_singleton in Hx as ->.
    apply not_above_refl.
  - rewrite last_cons_cons in Hlast.
    apply elem_of_cons in Hx as [->|Hx]; [| by apply IH].
    rewrite Forall_forall in Hall. apply Hall. by eapply last_Some_elem_of.
Qed.

Lemma sort_Slice_spec (l : list SemVer) :
  sort_Slice Compare l ≡ₚ l
  /\ StronglySorted (not_above Compare) (sort_Slice Compare l).
Proof using Compare_antisym Compare_trans.
  unfold sort_Slice. split; [apply merge_sort_Permutation |].
  apply StronglySorted_merge_sort; [apply not_above_trans | apply not_above_total].
Qed.

Lemma range_lookup (site : nat) (E : Type) (m : gmap string E) (k : string) (x : E) :
  (k, x) ∈ go_range site E m <-> m !! k = Some x.
Proof using go_range_perm.
  rewrite (go_range_perm site E m). apply elem_of_map_to_list.
Qed.

Lemma parse_versions_elem (versions : gmap string (list string)) (sv : SemVer) :
  sv ∈ parse_versions NewVersion go_range versions
  <-> exists v, v ∈ dom versions /\ NewVersion (normalizeVersion v) = Some sv.
Proof using go_range_perm.
  unfold parse_versions. rewrite list_elem_of_omap. split.
  - intros ([v srcs] & Hin & Hparse). exists v. split; [| done].
    apply range_lookup in Hin. apply elem_of_dom. by exists srcs.
  - intros (v & [srcs Hv]%elem_of_dom & Hparse). exists (v, srcs). split; [| done].
    by apply range_lookup.
Qed.

Lemma findDependencyPath_spec (deps : list Dependency) (pkg : string) :
  let g := buildDependencyGraph NewDependencyGraph deps in
  exists p,
    findDependencyPath go_range g pkg = Some p
    /\ ((exists v, occurs deps pkg v) -> path_to g pkg p).
Proof using go_range_perm.
  intros g. unfold findDependencyPath, findDependencyPath_from.
  set (roots := (go_range 4 Node (nodes g)).*1).
  assert (forall n, n ∈ roots <-> n ∈ dom (nodes g)) as Hkeys.
  { intros n. apply (range_keys go_range go_range_perm). }
  destruct (buildDependencyGraph_spec deps NewDependencyGraph)
    as (Hnodes & _ & Hedges). fold g in Hnodes, Hedges.
  destruct (path_roots_spec g pkg roots (mkPS ∅ [])) as (p & Hrun & Hshape & Hreach).
  - apply Forall_forall. intros n Hn%Hkeys. unfold universe.
    apply elem_of_union_l, elem_of_union_l. exact Hn.
  - split; [apply not_elem_of_empty |]. intros a b Ha. by apply not_elem_of_empty in Ha.
  - done.
  - exists p. split; [done |]. intros [v (dep & Hdep & Hat)].
    assert (p <> []) as Hne.
    { apply Hreach. destruct Hat as [[<- _]|(kid & Hkid & <- & _)].
      - exists (Name dep). split; [| done]. left. by apply Hkeys, Hnodes.
      - exists (Name dep). split; [left; by apply Hkeys, Hnodes |].
        apply rtc_once, Hedges. right. by exists dep, kid. }
    destruct Hshape as [->|(r & walk & -> & Hr & Hchain & Hlast)]; [done |].
    exists r, walk. split; [done |]. split; [by apply Hkeys |]. done.
Qed.

Lemma requirers_occurs (deps : list Dependency) (n v : string) :
  requirers deps n v <> [] -> occurs deps n v.
Proof.
  intros Hne. destruct (requirers deps n v) as [|x l] eqn:Hreq; [done |].
  assert (In x (requirers deps n v)) as Hin by (rewrite Hreq; by left).
  unfold requirers in Hin. apply in_flat_map in Hin as (dep & Hdep & Hx).
  exists dep. split; [by apply list_elem_of_In |].
  unfold requirers_of in Hx. apply in_app_or in Hx as [Hx|Hx].
  - left. destruct (is_at n v dep) eqn:Hat; [| done]. by apply is_at_spec.
  - right. apply in_flat_map in Hx as (kid & Hkid & Hx').
    exists kid. split; [by apply list_elem_of_In |].
    destruct (is_at n v kid) eqn:Hat; [| done]. by apply is_at_spec.
Qed.

(** One package of the table: the conflicts written for it. *)
Lemma conflicts_of_spec (deps : list Dependency) (pkg : string)
  (versions : gmap string (list string)) :
  let g := buildDependencyGraph NewDependencyGraph deps in
  versionMap deps !! pkg = Some versions ->
  exists cs,
    conflicts_of NewVersion Compare String_ go_range g pkg versions = Some cs
    /\ Forall (fun c => Package c = pkg /\ carries NewVersion Compare String_ deps g c) cs
    /\ (forall v1 v2 sv1 sv2,
          v1 ∈ dom versions -> v2 ∈ dom versions ->
          NewVersion (normalizeVersion v1) = Some sv1 ->
          NewVersion (normalizeVersion v2) = Some sv2 ->
          Equal Compare sv1 sv2 = false ->
          cs <> []).
Proof using go_range_perm Compare_antisym Compare_trans.
  intros g Hpkg. unfold conflicts_of.
  set (semvers := parse_versions NewVersion go_range versions).
  destruct (sort_Slice_spec semvers) as [Hperm Hsorted].
  assert (forall v1 v2 sv1 sv2,
             v1 ∈ dom versions -> v2 ∈ dom versions ->
             NewVersion (normalizeVersion v1) = Some sv1 ->
             NewVersion (normalizeVersion v2) = Some sv2 ->
             Equal Compare sv1 sv2 = false ->
             sv1 ∈ semvers /\ sv2 ∈ semvers /\ v1 <> v2) as Hpair.
  { intros v1 v2 sv1 sv2 H1 H2 Hp1 Hp2 Hneq.
    split; [apply parse_versions_elem; by exists v1 |].
    split; [apply parse_versions_elem; by exists v2 |].
    intros ->. rewrite Hp1 in Hp2. injection Hp2 as ->.
    unfold Equal in Hneq. pose proof (Compare_antisym sv2 sv2) as H.
    destruct (Compare sv2 sv2); simpl in H; congruence. }
  destruct (findDependencyPath_spec deps pkg) as (p & Hp & Hpath). fold g in Hp, Hpath.
  destruct (1 <? size versions)%nat eqn:Hsize; cycle 1.
  { exists []. split; [done |]. split; [constructor |].
    intros v1 v2 sv1 sv2 H1 H2 Hp1 Hp2 Hneq. exfalso.
    destruct (Hpair _ _ _ _ H1 H2 Hp1 Hp2 Hneq) as (_ & _ & Hne).
    apply Nat.ltb_ge in Hsize.
    apply elem_of_dom in H1 as [s1 H1]. apply elem_of_dom in H2 as [s2 H2].
    assert (size versions = S (S (size (delete v2 (delete v1 versions))))) as Hsz.
    { rewrite <- (insert_delete_id versions v1 s1) at 1 by done.
      rewrite map_size_insert_None by apply lookup_delete_eq.
      rewrite <- (insert_delete_id (delete v1 versions) v2 s2) at 1
        by (by rewrite lookup_delete_ne).
      rewrite map_size_insert_None by apply lookup_delete_eq. done. }
    lia. }
  destruct (1 <? length semvers)%nat eqn:Hlen; cycle 1.
  { exists []. split; [done |]. split; [constructor |].
    intros v1 v2 sv1 sv2 H1 H2 Hp1 Hp2 Hneq. exfalso.
    destruct (Hpair _ _ _ _ H1 H2 Hp1 Hp2 Hneq) as (Hs1 & Hs2 & _).
    apply Nat.ltb_ge in Hlen.
    destruct semvers as [|x [|y l]]; simpl in Hlen; [| | lia].
    - by apply elem_of_nil in Hs1.
    - apply list_elem_of_singleton in Hs1 as ->.
      apply list_elem_of_singleton in Hs2 as ->.
      unfold Equal in Hneq. pose proof (Compare_antisym x x) as H.
      destruct (Compare x x); simpl in H; congruence. }
  destruct (head (sort_Slice Compare semvers)) as [lo|] eqn:Hlo; cycle 1.
  { exfalso. apply head_None in Hlo. rewrite Hlo in Hperm.
    apply Permutation_nil_l in Hperm. rewrite <- Hperm in Hlen. done. }
  destruct (last (sort_Slice Compare semvers)) as [hi|] eqn:Hhi; cycle 1.
  { exfalso. apply last_None in Hhi. rewrite Hhi in Hlo. done. }
  assert (forall x, x ∈ semvers -> not_above Compare lo x /\ not_above Compare x hi)
    as Hbounds.
  { intros x Hx. rewrite <- Hperm in Hx. split.
    - by eapply sorted_head.
    - by eapply sorted_last. }
  destruct (Equal Compare lo hi) eqn:Hequal; cbn [negb].
  { exists []. split; [done |]. split; [constructor |].
    intros v1 v2 sv1 sv2 H1 H2 Hp1 Hp2 Hneq. exfalso.
    destruct (Hpair _ _ _ _ H1 H2 Hp1 Hp2 Hneq) as (Hs1 & Hs2 & _).
    destruct (Hbounds sv1 Hs1) as [Hlo1 Hhi1]. destruct (Hbounds sv2 Hs2) as [Hlo2 Hhi2].
    assert (not_above Compare hi lo) as Hback.
    { apply not_above_le. unfold Equal in Hequal.
      rewrite (Compare_antisym lo hi). destruct (Compare lo hi); done. }
    assert (not_above Compare sv1 sv2) as H12.
    { eapply not_above_trans; [exact Hhi1 |]. eapply not_above_trans; [exact Hback | exact Hlo2]. }
    assert (not_above Compare sv2 sv1) as H21.
    { eapply not_above_trans; [exact Hhi2 |]. eapply not_above_trans; [exact Hback | exact Hlo1]. }
    apply not_above_le in H12, H21. rewrite (Compare_antisym sv1 sv2) in H21.
    unfold Equal in Hneq. destruct (Compare sv1 sv2); simpl in H21; congruence. }
  assert (newest NewVersion Compare versions hi) as Hnewest.
  { split.
    - apply parse_versions_elem. change (hi ∈ semvers). rewrite <- Hperm.
      by eapply last_Some_elem_of.
    - intros v sv Hv Hparse. apply (Hbounds sv). apply parse_versions_elem. by exists v. }
  set (emit := fun kv : string * list string =>
                 trail ← findDependencyPath go_range g pkg;
                 Some (mkConflict pkg kv.1 (String_ hi) (GoStrings.Join kv.2 ", ") trail)).
  assert (forall kvs,
             (forall v srcs, (v, srcs) ∈ kvs -> versions !! v = Some srcs) ->
             exists cs, mapM emit kvs = Some cs /\ length cs = length kvs
               /\ Forall (fun c => Package c = pkg
                                   /\ carries NewVersion Compare String_ deps g c) cs)
    as Hemit.
  { induction kvs as [|[v srcs] kvs IH]; intros Hin.
    - exists []. split; [done |]. split; [done | constructor].
    - destruct IH as (cs & Hcs & Hl & Hall).
      { intros v' s' H'. apply Hin. by right. }
      exists (mkConflict pkg v (String_ hi) (GoStrings.Join srcs ", ") p :: cs).
      split; [| split].
      + change (mapM emit ((v, srcs) :: kvs))
          with (y ← emit (v, srcs); k ← mapM emit kvs; mret (y :: k)).
        rewrite Hcs. unfold emit. rewrite Hp. reflexivity.
      + simpl. by rewrite Hl.
      + constructor; [| done]. split; [done |].
        assert (versions !! v = Some srcs) as Hv by (apply Hin; by left).
        destruct (versionMap_entry deps pkg v versions srcs Hpkg Hv) as [-> Hne].
        exists versions, hi. simpl. repeat (split; [done |]).
        apply Hpath. exists v. by apply requirers_occurs. }
  destruct (Hemit (go_range 3 (list string) versions)) as (cs & Hcs & Hl & Hall).
  { intros v srcs Hin. by apply range_lookup in Hin. }
  exists cs. split; [done |]. split; [done |].
  intros _ _ _ _ _ _ _ _ _ ->. simpl in Hl.
  assert (length (go_range 3 (list string) versions) = size versions) as Hsz.
  { rewrite (go_range_perm 3 _ versions). apply length_map_to_list. }
  rewrite Hsz in Hl. apply Nat.ltb_lt in Hsize. lia.
Qed.

Lemma detectVersionConflicts_spec (deps : list Dependency) :
  let g := buildDependencyGraph NewDependencyGraph deps in
  exists cs,
    detectVersionConflicts NewVersion Compare String_ go_range g deps = Some cs
    /\ Forall (carries NewVersion Compare String_ deps g) cs
    /\ (forall name v1 v2 sv1 sv2,
          occurs deps name v1 -> occurs deps name v2 ->
          NewVersion (normalizeVersion v1) = Some sv1 ->
          NewVersion (normalizeVersion v2) = Some sv2 ->
          Equal Compare sv1 sv2 = false ->
          exists c, c ∈ cs /\ Package c = name).
Proof using go_range_perm Compare_antisym Compare_trans.
  intros g. unfold detectVersionConflicts.
  set (body := fun kv : string * gmap string (list string) =>
                 conflicts_of NewVersion Compare String_ go_range g kv.1 kv.2).
  assert (forall kvs,
             (forall pkg versions, (pkg, versions) ∈ kvs ->
                                   versionMap deps !! pkg = Some versions) ->
             exists css,
               mapM body kvs = Some css
               /\ Forall (carries NewVersion Compare String_ deps g) (concat css)
               /\ (forall pkg versions cs,
                     (pkg, versions) ∈ kvs -> body (pkg, versions) = Some cs ->
                     forall c, c ∈ cs -> c ∈ concat css)) as Hloop.
  { induction kvs as [|[pkg versions] kvs IH]; intros Hin.
    - exists []. split; [done |]. split; [constructor |].
      intros ? ? ? H. by apply elem_of_nil in H.
    - destruct IH as (css & Hcss & Hall & Hfind).
      { intros pkg' versions' H'. apply Hin. by right. }
      destruct (conflicts_of_spec deps pkg versions) as (cs & Hcs & Hcarry & _).
      { apply Hin. by left. }
      assert (body (pkg, versions) = Some cs) as Hb by exact Hcs.
      exists (cs :: css). split; [| split].
      + change (mapM body ((pkg, versions) :: kvs))
          with (y ← body (pkg, versions); k ← mapM body kvs; mret (y :: k)).
        rewrite Hb, Hcss. reflexivity.
      + simpl. apply Forall_app. split; [| done].
        eapply Forall_impl; [exact Hcarry |]. by intros c [_ Hc].
      + intros pkg' versions' cs' [Heq|Hin']%elem_of_cons Hbody c Hc.
        * injection Heq as -> ->. rewrite Hb in Hbody. injection Hbody as <-.
          simpl. apply elem_of_app. by left.
        * simpl. apply elem_of_app. right. by eapply Hfind. }
  destruct (Hloop (go_range 1 _ (versionMap deps))) as (css & Hcss & Hall & Hfind).
  { intros pkg versions Hin. by apply range_lookup in Hin. }
  exists (concat css). split; [by rewrite Hcss |]. split; [done |].
  intros name v1 v2 sv1 sv2 Ho1 Ho2 Hp1 Hp2 Hneq.
  destruct (versionMap_occurs deps name v1 Ho1) as (versions & Hname & Hv1).
  destruct (versionMap_occurs deps name v2 Ho2) as (versions' & Hname' & Hv2).
  rewrite Hname in Hname'. injection Hname' as <-.
  destruct (conflicts_of_spec deps name versions Hname) as (cs & Hcs & Hcarry & Hsome).
  assert (body (name, versions) = Some cs) as Hb by exact Hcs.
  assert (cs <> []) as Hne.
  { apply (Hsome v1 v2 sv1 sv2); try done; apply elem_of_dom; eauto. }
  destruct cs as [|c cs]; [done |].
  exists c. split.
  - apply (Hfind name versions (c :: cs)); [by apply range_lookup | done | by left].
  - apply Forall_inv in Hcarry. by destruct Hcarry.
Qed.

(** C2. [Analyze] on a fresh analyzer returns; every conflict it emits
    carries an original version of its package, the newest normalized
    version seen for the package, the requirers of that version joined by
    [", "] and a dependency path to the package; and whenever a name occurs
    with two distinct versions whose normalized forms both parse and are
    not equal, at least one emitted conflict names it. *)
Theorem Analyze_reports_conflicts (deps : list Dependency) :
  exists res a',
    Analyze NewVersion Compare String_ go_range NewDependencyAnalyzer deps
      = Some (res, a')
    /\ graph a' = buildDependencyGraph NewDependencyGraph deps
    /\ Forall (carries NewVersion Compare String_ deps (graph a')) (Conflicts res)
    /\ (forall name v1 v2 sv1 sv2,
          occurs deps name v1 -> occurs deps name v2 -> v1 <> v2 ->
          NewVersion (normalizeVersion v1) = Some sv1 ->
          NewVersion (normalizeVersion v2) = Some sv2 ->
          Equal Compare sv1 sv2 = false ->
          exists c, c ∈ Conflicts res /\ Package c = name).
Proof using go_range_perm Compare_antisym Compare_trans.
  unfold Analyze. cbn [graph NewDependencyAnalyzer].
  destruct (detectCycles_reports_cycles go_range go_range_perm deps)
    as (found & Hfound & _).
  destruct (detectVersionConflicts_spec deps) as (cs & Hcs & Hcarry & Hsome).
  cbv zeta in Hfound, Hcs, Hcarry. rewrite Hfound, Hcs.
  eexists _, _. split; [reflexivity |]. cbn [graph Conflicts].
  split; [done |]. split; [done |].
  intros name v1 v2 sv1 sv2 Ho1 Ho2 _. by apply Hsome.
Qed.

End conflicts.

Lemma Analyze_reports_conflicts_witness :
  exists res a',
    Analyze Semver.NewVersion Semver.Compare Semver.String_ range_sorted
            NewDependencyAnalyzer records_conflict = Some (res, a')
    /\ exists c, c ∈ Conflicts res /\ Package c = "B".
Proof.
  destruct (Analyze_reports_conflicts Semver.Version Semver.NewVersion
              Semver.Compare Semver.String_ range_sorted range_sorted_perm
              Semver.Compare_antisym Semver.Compare_le_trans records_conflict)
    as (res & a' & Hrun & _ & _ & Hsome).
  exists res, a'. split; [exact Hrun |].
  apply (Hsome "B" "2.0" "v1.5" (Semver.mkVersion 2 0 0) (Semver.mkVersion 1 5 0)).
  - exists (mkDep "A" "1.0" "library" "" "" [mkDep "B" "2.0" "library" "" "" []]).
    split; [apply list_elem_of_here |]. right.
    exists (mkDep "B" "2.0" "library" "" "" []).
    split; [apply list_elem_of_here | split; reflexivity].
  - exists (mkDep "B" "v1.5" "library" "" "" []).
    split; [apply list_elem_of_further, list_elem_of_here |].
    left. split; reflexivity.
  - discriminate.
  - reflexivity.
  - reflexivity.
  - reflexivity.
Defined.

Example Analyze_conflict_example :
  (Conflicts ∘ fst) <$>
    Analyze Semver.NewVersion Semver.Compare Semver.String_ range_sorted
            NewDependencyAnalyzer records_conflict
  = Some [mkConflict "B" "v1.5" "2.0.0" "root" ["A"; "B"];
          mkConflict "B" "2.0" "2.0.0" "A" ["A"; "B"]].
Proof. vm_compute. reflexivity. Qed.

End Analyzer.

(** ** The resolver (package [analyzer], resolver file) *)

Module Resolver.

Import GoStrings.
Import Analyzer.

(** [ResolutionStrategy] is an [int]; the three named values. *)
Definition ResolutionStrategy : Type := Z.
Definition StrategyNewest : ResolutionStrategy := 0%Z.
Definition StrategyOldest : ResolutionStrategy := 1%Z.
Definition StrategyMinimal : ResolutionStrategy := 2%Z.

Record ResolveOptions : Type := mkOptions {
  Strategy : ResolutionStrategy;
  Strict : bool
}.

Record ResolveResult : Type := mkResolved {
  Resolved : list Dependency;
  Unresolved : list string;
  Errors : list string
}.

(** Modelled from the spec: the graph type behind [NewDependencyGraph],
    [AddNode], [AddEdge], [GetNode], [GetEdges] and [GetAllNodes], whose
    code is not in the sources.  Nodes are keyed by name and listed in
    insertion order; a second record of a name appends its version to the
    node's versions; edges between the same two names collapse; a node is
    read back as a record whose version joins the node's versions with
    commas, the form in which the resolver conjoins constraints. *)
Record Graph : Type := mkGraph {
  order : list string;
  node_of : gmap string Node;
  edge_of : gmap string (list string)
}.

Definition NewGraph : Graph := mkGraph [] ∅ ∅.

Definition AddNode (dep : Dependency) (g : Graph) : Graph :=
  mkGraph (if bool_decide (Name dep ∈ dom (node_of g)) then order g
           else order g ++ [Name dep])
          (add_node dep (node_of g)) (edge_of g).

Definition AddEdge (from to : string) (g : Graph) : Graph :=
  if contains (default [] (edge_of g !! from)) to then g
  else mkGraph (order g) (node_of g) (add_edge from to (edge_of g)).

Definition GetEdges (g : Graph) (name : string) : list string :=
  default [] (edge_of g !! name).

Definition GetNode (g : Graph) (name : string) : option Dependency :=
  n ← node_of g !! name;
  Some (mkDep (NodeName n) (Join (Versions n) ",") (NodeType n) (NodeSource n)
              (NodeScope n) []).

Definition GetAllNodes (g : Graph) : list Dependency :=
  omap (GetNode g) (order g).

(** The graph as the analyzer's lemmas read it. *)
Definition as_graph (g : Graph) : DependencyGraph :=
  Analyzer.mkGraph (node_of g) (edge_of g).

(** The first loop of [Resolve]. *)
Definition add_record (g : Graph) (dep : Dependency) : Graph :=
  foldl (fun g child => AddEdge (Name dep) (Name child) g)
        (AddNode dep g) (Dependencies dep).

Definition build (deps : list Dependency) : Graph := foldl add_record NewGraph deps.

(** *** [topologicalSort] *)

Record SortState : Type := mkSS {
  sorted : list Dependency;
  done_ : gset string;
  temp : gset string
}.

(** The closure [visit]; [true] is the error
    ["circular dependency detected"]. *)
Fixpoint visit (fuel : nat) (g : Graph) (name : string) (st : SortState)
  : option (bool * SortState) :=
  match fuel with
  | O => None
  | S fuel' =>
      if bool_decide (name ∈ temp st) then Some (true, st)
      else if bool_decide (name ∈ done_ st) then Some (false, st)
      else
        let st1 := mkSS (sorted st) (done_ st) ({[name]} ∪ temp st) in
        match for_children (fun dep s => visit fuel' g dep s) (GetEdges g name) st1 with
        | Some (false, st2) =>
            Some (false,
                  mkSS (match GetNode g name with
                        | Some node => sorted st2 ++ [node]
                        | None => sorted st2
                        end)
                       ({[name]} ∪ done_ st2) (temp st2 ∖ {[name]}))
        | other => other
        end
  end.

(** The loop of [topologicalSort] over [GetAllNodes]. *)
Fixpoint sort_nodes (fuel : nat) (g : Graph) (todo : list Dependency)
  (st : SortState) : option (result (list Dependency)) :=
  match todo with
  | [] => Some (Ok (sorted st))
  | node :: rest =>
      if bool_decide (Name node ∈ done_ st) then sort_nodes fuel g rest st
      else match visit fuel g (Name node) st with
           | None => None
           | Some (true, _) => Some (Err "circular dependency detected")
           | Some (false, st') => sort_nodes fuel g rest st'
           end
  end.

Definition topologicalSort (g : Graph) : option (result (list Dependency)) :=
  sort_nodes (S (size (universe (as_graph g)))) g (GetAllNodes g) (mkSS [] ∅ ∅).

(** [fmt.Sprintf("%v", cycles)] for a [[][]string]. *)
Definition show_list (items : list string) : string :=
  ("[" ++ Join items " " ++ "]")%string.

Definition show_cycles (found : list (list string)) : string :=
  show_list (map show_list found).

Section resolver.

(** The semver library: versions with their comparison and printer,
    [semver.NewConstraint] and [Constraints.Check]. *)
Variable SemVer : Type.
Variable NewVersion : string -> option SemVer.
Variable Compare : SemVer -> SemVer -> comparison.
Variable String_ : SemVer -> string.
Variable Constraints : Type.
Variable NewConstraint : string -> result Constraints.
Variable Check : Constraints -> SemVer -> bool.

(** [DependencyGraph.FindCycles], whose code is not in the sources. *)
Variable FindCycles : Graph -> list (list string).

(** [checkConstraints] *)
Definition checkConstraints (version : SemVer) (constraints : list Constraints)
  : bool :=
  forallb (fun c => Check c version) constraints.

(** [findMinimalVersion]; [None] is the [nil] it returns on an empty
    slice. *)
Definition findMinimalVersion (versions : list SemVer) : option SemVer :=
  match versions with
  | [] => None
  | first :: rest =>
      Some (fold_left (fun minimal version =>
                         if LessThan Compare version minimal then version
                         else minimal)
                      rest first)
  end.

(** [selectVersion] *)
Definition selectVersion (versions : list SemVer) (constraints : list Constraints)
  (strategy : ResolutionStrategy) : result SemVer :=
  match versions with
  | [] => Err "no available versions"
  | _ =>
      let compatible :=
        List.filter (fun version => checkConstraints version constraints) versions in
      match compatible with
      | [] => Err "no compatible versions found"
      | first :: _ =>
          let newest := default first (last compatible) in
          if (strategy =? StrategyNewest)%Z then Ok newest
          else if (strategy =? StrategyOldest)%Z then Ok first
          else if (strategy =? StrategyMinimal)%Z
               then Ok (default first (findMinimalVersion compatible))
               else Ok newest
      end
  end.

(** [parseVersionConstraints] *)
Fixpoint parse_parts (parts : list string) : result (list Constraints) :=
  match parts with
  | [] => Ok []
  | part :: rest =>
      match NewConstraint (TrimSpace part) with
      | Err e =>
          Err ("invalid version constraint '" ++ part ++ "': " ++ e)%string
      | Ok c =>
          match parse_parts rest with
          | Err e => Err e
          | Ok cs => Ok (c :: cs)
          end
      end
  end.

Definition parseVersionConstraints (dep : Dependency) : result (list Constraints) :=
  if String.eqb (Version dep) "" then Ok []
  else parse_parts (Split (Version dep) ",").

(** [getAvailableVersions]: the fixed list of the source, parsed and
    sorted. *)
Definition available : list string :=
  ["1.0.0"; "1.1.0"; "1.2.0"; "2.0.0"; "2.1.0"; "2.2.0"].

Definition getAvailableVersions (dep : Dependency) : result (list SemVer) :=
  Ok (sort_Slice Compare (omap NewVersion available)).

Definition with_version (dep : Dependency) (version : string) : Dependency :=
  mkDep (Name dep) version (Type_ dep) (Source dep) (Scope dep) (Dependencies dep).

(** [resolveDependency] *)
Definition resolveDependency (dep : Dependency) (resolved : gmap string Dependency)
  (opts : ResolveOptions) : result Dependency :=
  match resolved !! Name dep with
  | Some resolvedDep => Ok resolvedDep
  | None =>
      match parseVersionConstraints dep with
      | Err e => Err ("invalid version constraints: " ++ e)%string
      | Ok constraints =>
          match getAvailableVersions dep with
          | Err e => Err ("failed to get available versions: " ++ e)%string
          | Ok versions =>
              match selectVersion versions constraints (Strategy opts) with
              | Err e => Err ("failed to select version: " ++ e)%string
              | Ok version => Ok (with_version dep (String_ version))
              end
          end
      end
  end.

(** The last loop of [Resolve]. *)
Fixpoint resolve_all (opts : ResolveOptions) (todo : list Dependency)
  (resolved : gmap string Dependency) (res : ResolveResult) : ResolveResult :=
  match todo with
  | [] => res
  | dep :: rest =>
      match resolveDependency dep resolved opts with
      | Err e =>
          resolve_all opts rest resolved
            (if Strict opts
             then mkResolved (Resolved res) (Unresolved res) (Errors res ++ [e])
             else mkResolved (Resolved res) (Unresolved res ++ [Name dep]) (Errors res))
      | Ok resolvedDep =>
          resolve_all opts rest (<[Name dep := resolvedDep]> resolved)
            (mkResolved (Resolved res ++ [resolvedDep]) (Unresolved res) (Errors res))
      end
  end.

(** [Resolve]; [None] only if the sort ran out of fuel. *)
Definition Resolve (deps : list Dependency) (opts : ResolveOptions)
  : option (result ResolveResult) :=
  let graph := build deps in
  let found := FindCycles graph in
  if (0 <? length found)%nat && Strict opts
  then Some (Err ("circular dependencies detected: " ++ show_cycles found)%string)
  else
    match topologicalSort graph with
    | None => None
    | Some (Err e) => Some (Err ("failed to sort dependencies: " ++ e)%string)
    | Some (Ok sorted) =>
        Some (Ok (resolve_all opts sorted ∅ (mkResolved [] [] [])))
    end.

End resolver.

Arguments checkConstraints {SemVer Constraints} Check version constraints.
Arguments findMinimalVersion {SemVer} Compare versions.
Arguments selectVersion {SemVer} Compare {Constraints} Check versions constraints strategy.
Arguments parseVersionConstraints {Constraints} NewConstraint dep.
Arguments getAvailableVersions {SemVer} NewVersion Compare dep.
Arguments resolveDependency {SemVer} NewVersion Compare String_ {Constraints}
  NewConstraint Check dep resolved opts.
Arguments resolve_all {SemVer} NewVersion Compare String_ {Constraints}
  NewConstraint Check opts todo resolved res.
Arguments Resolve {SemVer} NewVersion Compare String_ {Constraints}
  NewConstraint Check FindCycles deps opts.

(** The reference semver model as the resolver's library. *)
Definition semver_constraint (s : string) : result Semver.Constraints :=
  match Semver.NewConstraint s with
  | Some c => Ok c
  | None => Err "improper constraint"
  end.

(** Records A -> B -> A, and one requirement [B >= 1.0]. *)
Definition records_cycle : list Dependency :=
  [mkDep "A" "1.0.0" "library" "" "" [mkDep "B" "" "library" "" "" []];
   mkDep "B" "1.0.0" "library" "" "" [mkDep "A" "" "library" "" "" []]].


(** The candidates and the constraint of the resolver scenario. *)
Definition candidates_E5 : list Semver.Version :=
  [Semver.mkVersion 1 0 0; Semver.mkVersion 1 1 0; Semver.mkVersion 2 0 0].

Definition at_least_1_0 : Semver.Constraints :=
  Semver.mkConstraint Semver.OpGe (Semver.mkVersion 1 0 0).

(** A version satisfies a constraint set when every constraint of the
    set accepts it. *)
Definition satisfies {SemVer Constraints : Type}
  (Check : Constraints -> SemVer -> bool) (constraints : list Constraints)
  (v : SemVer) : Prop :=
  forall c, c ∈ constraints -> Check c v = true.

(** Five candidates and two constraints, [>= 1.1] and [< 2.1], that
    exclude the least and the greatest of them. *)
Definition candidates_wide : list Semver.Version :=
  [Semver.mkVersion 1 0 0; Semver.mkVersion 1 1 0; Semver.mkVersion 1 2 0;
   Semver.mkVersion 2 0 0; Semver.mkVersion 2 1 0].

Definition at_least_1_1 : Semver.Constraints :=
  Semver.mkConstraint Semver.OpGe (Semver.mkVersion 1 1 0).

Definition below_2_1 : Semver.Constraints :=
  Semver.mkConstraint Semver.OpLt (Semver.mkVersion 2 1 0).

(** *** Version selection *)

Section select_facts.
Variable SemVer : Type.
Variable Compare : SemVer -> SemVer -> comparison.
Variable Constraints : Type.
Variable Check : Constraints -> SemVer -> bool.
Hypothesis Compare_antisym : forall v o, Compare o v = CompOpp (Compare v o).

Lemma StronglySorted_filter (f : SemVer -> bool) (l : list SemVer) :
  StronglySorted (not_above Compare) l ->
  StronglySorted (not_above Compare) (List.filter f l).
Proof using Type.
  induction 1 as [|a l Hs IH Hall]; simpl; [constructor |].
  destruct (f a); [| exact IH]. constructor; [exact IH |].
  apply List.Forall_forall. intros x [Hx _]%filter_In.
  rewrite List.Forall_forall in Hall. by apply Hall.
Qed.

Lemma findMinimalVersion_sorted (first : SemVer) (rest : list SemVer) :
  StronglySorted (not_above Compare) (first :: rest) ->
  findMinimalVersion Compare (first :: rest) = Some first.
Proof using Type.
  intros Hs. apply StronglySorted_inv in Hs as [_ Hall].
  unfold findMinimalVersion. f_equal.
  induction rest as [|v rest IH]; [done |].
  apply Forall_cons in Hall as [Hv Hall]. cbn [fold_left].
  unfold not_above in Hv. rewrite Hv. by apply IH.
Qed.

Lemma checkConstraints_satisfies (v : SemVer) (constraints : list Constraints) :
  checkConstraints Check v constraints = true <-> satisfies Check constraints v.
Proof using Type.
  unfold checkConstraints, satisfies. rewrite forallb_forall.
  split; intros H c Hc; apply H; by apply list_elem_of_In.
Qed.

Lemma filter_none (f : SemVer -> bool) (l : list SemVer) :
  List.filter f l = [] -> Forall (fun v => f v = false) l.
Proof using Type.
  induction l as [|a l IH]; [constructor |]. simpl.
  destruct (f a) eqn:Ha; [discriminate |]. intros H. constructor; auto.
Qed.

Lemma filter_first (f : SemVer -> bool) (l : list SemVer) (x : SemVer)
  (rest : list SemVer) :
  List.filter f l = x :: rest ->
  exists before after,
    l = before ++ x :: after /\ Forall (fun v => f v = false) before /\ f x = true.
Proof using Type.
  induction l as [|a l IH]; [discriminate |]. simpl.
  destruct (f a) eqn:Ha.
  - intros [= -> _]. by exists [], l.
  - intros H. destruct (IH H) as (before & after & -> & Hbefore & Hx).
    exists (a :: before), after. split; [done |]. split; [by constructor | done].
Qed.

Lemma filter_last (f : SemVer -> bool) (l : list SemVer) (x : SemVer) :
  last (List.filter f l) = Some x ->
  exists before after,
    l = before ++ x :: after /\ Forall (fun v => f v = false) after /\ f x = true.
Proof using Type.
  induction l as [|a l IH]; [discriminate |]. simpl.
  destruct (f a) eqn:Ha; [| intros H; destruct (IH H) as (before & after & -> & ? & ?);
                              by exists (a :: before), after].
  destruct (List.filter f l) as [|b kept] eqn:Hkept.
  - intros [= <-]. exists [], l. split; [done |]. split; [by apply filter_none | done].
  - rewrite last_cons_cons. intros H.
    destruct (IH H) as (before & after & -> & ? & ?).
    by exists (a :: before), after.
Qed.

Lemma selectVersion_sorted (versions : list SemVer) (constraints : list Constraints) :
  versions <> [] ->
  StronglySorted (not_above Compare) versions ->
  (exists v, v ∈ versions /\ satisfies Check constraints v) ->
  exists lo hi,
    selectVersion Compare Check versions constraints StrategyNewest = Ok hi
    /\ selectVersion Compare Check versions constraints StrategyOldest = Ok lo
    /\ selectVersion Compare Check versions constraints StrategyMinimal = Ok lo
    /\ satisfies Check constraints hi
    /\ (exists before after,
          versions = before ++ hi :: after
          /\ Forall (fun v => ~ satisfies Check constraints v) after)
    /\ satisfies Check constraints lo
    /\ (exists before after,
          versions = before ++ lo :: after
          /\ Forall (fun v => ~ satisfies Check constraints v) before)
    /\ forall v, v ∈ versions -> satisfies Check constraints v ->
                 LessThan Compare v lo = false /\ LessThan Compare hi v = false.
Proof using Compare_antisym.
  intros Hne Hsorted (v & Hv & Hsat).
  apply checkConstraints_satisfies in Hsat.
  pose proof (StronglySorted_filter
                (fun v => checkConstraints Check v constraints) versions Hsorted) as Hs.
  assert (forall l, Forall (fun v => checkConstraints Check v constraints = false) l ->
                    Forall (fun v => ~ satisfies Check constraints v) l) as Hnot.
  { intros l Hl. eapply Forall_impl; [exact Hl |]. intros x Hx Hsx.
    apply checkConstraints_satisfies in Hsx. simpl in Hx. congruence. }
  pose proof (filter_first (fun v => checkConstraints Check v constraints) versions)
    as Hfirst.
  pose proof (filter_last (fun v => checkConstraints Check v constraints) versions)
    as Hlast.
  unfold selectVersion. destruct versions as [|v0 versions']; [done |].
  set (compatible := List.filter _ (v0 :: versions')) in *.
  assert (forall c, c ∈ compatible
                    <-> c ∈ v0 :: versions' /\ checkConstraints Check c constraints = true)
    as Hin.
  { intros c. unfold compatible. rewrite !list_elem_of_In. apply filter_In. }
  destruct compatible as [|lo rest] eqn:Hcompat.
  { exfalso. assert (v ∈ ([] : list SemVer)) as H by (by apply Hin).
    by apply elem_of_nil in H. }
  destruct (last (lo :: rest)) as [hi|] eqn:Hhi; [| by apply last_None in Hhi].
  destruct (Hfirst lo rest eq_refl) as (before & after & Hsplit & Hbefore & Hlo).
  destruct (Hlast hi eq_refl) as (before' & after' & Hsplit' & Hafter' & Hhi').
  exists lo, hi. cbn [default].
  split; [done |]. split; [done |].
  split; [rewrite findMinimalVersion_sorted by done; reflexivity |].
  split; [by apply checkConstraints_satisfies |].
  split; [exists before', after'; split; [done | by apply Hnot] |].
  split; [by apply checkConstraints_satisfies |].
  split; [exists before, after; split; [done | by apply Hnot] |].
  intros c Hc Hcc. apply checkConstraints_satisfies in Hcc.
  assert (c ∈ lo :: rest) as Hmem by (by apply Hin). split.
  - by eapply (sorted_head SemVer Compare Compare_antisym (lo :: rest)).
  - by eapply (sorted_last SemVer Compare Compare_antisym (lo :: rest)).
Qed.

End select_facts.

(** C5. On an ascending-sorted non-empty candidate list of which some
    candidate satisfies every constraint, [selectVersion] returns under
    strategy newest the last candidate of the list that satisfies every
    constraint, which no satisfying candidate exceeds, and under strategies
    oldest and minimal the first such candidate, below which no satisfying
    candidate lies; with candidates 1.0.0, 1.1.0, 2.0.0 and the constraint
    [>= 1.0], newest gives 2.0.0 and minimal gives 1.0.0. *)
Theorem selectVersion_strategy :
  (forall (SemVer Constraints : Type) (Compare : SemVer -> SemVer -> comparison)
          (Check : Constraints -> SemVer -> bool)
          (versions : list SemVer) (constraints : list Constraints),
      (forall v o, Compare o v = CompOpp (Compare v o)) ->
      versions <> [] ->
      StronglySorted (not_above Compare) versions ->
      (exists v, v ∈ versions /\ satisfies Check constraints v) ->
      exists lo hi,
        selectVersion Compare Check versions constraints StrategyNewest = Ok hi
        /\ selectVersion Compare Check versions constraints StrategyOldest = Ok lo
        /\ selectVersion Compare Check versions constraints StrategyMinimal = Ok lo
        /\ satisfies Check constraints hi
        /\ (exists before after,
              versions = before ++ hi :: after
              /\ Forall (fun v => ~ satisfies Check constraints v) after)
        /\ satisfies Check constraints lo
        /\ (exists before after,
              versions = before ++ lo :: after
              /\ Forall (fun v => ~ satisfies Check constraints v) before)
        /\ forall v, v ∈ versions -> satisfies Check constraints v ->
                     LessThan Compare v lo = false /\ LessThan Compare hi v = false)
  /\ semver_constraint ">= 1.0" = Ok at_least_1_0
  /\ selectVersion Semver.Compare Semver.Check candidates_E5 [at_least_1_0]
                   StrategyNewest = Ok (Semver.mkVersion 2 0 0)
  /\ selectVersion Semver.Compare Semver.Check candidates_E5 [at_least_1_0]
                   StrategyMinimal = Ok (Semver.mkVersion 1 0 0).
Proof.
  split; [| by vm_compute].
  intros SemVer Constraints Compare Check versions constraints Hanti Hne Hs Hex.
  by apply selectVersion_sorted.
Qed.

Lemma selectVersion_strategy_witness :
  selectVersion Semver.Compare Semver.Check candidates_wide
                [at_least_1_1; below_2_1] StrategyNewest = Ok (Semver.mkVersion 2 0 0)
  /\ selectVersion Semver.Compare Semver.Check candidates_wide
                   [at_least_1_1; below_2_1] StrategyOldest = Ok (Semver.mkVersion 1 1 0)
  /\ selectVersion Semver.Compare Semver.Check candidates_wide
                   [at_least_1_1; below_2_1] StrategyMinimal = Ok (Semver.mkVersion 1 1 0)
  /\ ~ satisfies Semver.Check [at_least_1_1; below_2_1] (Semver.mkVersion 1 0 0)
  /\ ~ satisfies Semver.Check [at_least_1_1; below_2_1] (Semver.mkVersion 2 1 0).
Proof.
  destruct selectVersion_strategy as [Hgeneral _].
  destruct (Hgeneral Semver.Version Semver.Constraints Semver.Compare Semver.Check
              candidates_wide [at_least_1_1; below_2_1])
    as (lo & hi & Hnew & Hold & Hmin & _).
  - apply Semver.Compare_antisym.
  - discriminate.
  - repeat constructor.
  - exists (Semver.mkVersion 1 2 0). split.
    + do 2 apply list_elem_of_further. apply list_elem_of_here.
    + intros c Hc. apply elem_of_cons in Hc as [-> | Hc];
        [reflexivity | apply list_elem_of_singleton in Hc as ->; reflexivity].
  - assert (hi = Semver.mkVersion 2 0 0) as Ehi.
    { assert (Ok hi = Ok (Semver.mkVersion 2 0 0) :> result Semver.Version) as E
        by (rewrite <- Hnew; vm_compute; reflexivity).
      by injection E. }
    assert (lo = Semver.mkVersion 1 1 0) as Elo.
    { assert (Ok lo = Ok (Semver.mkVersion 1 1 0) :> result Semver.Version) as E
        by (rewrite <- Hold; vm_compute; reflexivity).
      by injection E. }
    subst lo hi. split; [exact Hnew |]. split; [exact Hold |]. split; [exact Hmin |].
    split.
    + intros Hsat. specialize (Hsat at_least_1_1 (list_elem_of_here _ _)).
      discriminate Hsat.
    + intros Hsat.
      specialize (Hsat below_2_1 (list_elem_of_further _ _ _ (list_elem_of_here _ _))).
      discriminate Hsat.
Defined.

(** *** Cycles and the resolver *)

(** C6, at the failing input: with records A -> B -> A and [Strict] false,
    [Resolve] fails in [topologicalSort], whatever [FindCycles] found. *)
Theorem Resolve_fails_on_cycle_when_not_strict
  (FindCycles : Graph -> list (list string)) :
  Resolve Semver.NewVersion Semver.Compare Semver.String_ semver_constraint
          Semver.Check FindCycles records_cycle (mkOptions StrategyNewest false)
  = Some (Err "failed to sort dependencies: circular dependency detected").
Proof.
  unfold Resolve. cbn [Strict]. rewrite andb_false_r.
  assert (topologicalSort (build records_cycle)
          = Some (Err "circular dependency detected")) as -> by (by vm_compute).
  reflexivity.
Qed.
End Resolver.

(** ** The scan engine (packages [models], [utils] and [scanner]) *)

Module Scanner.

Import GoStrings.

(** [models.Dependency], the fields the scan engine and the submodule
    extractor write or read. *)
Record Dependency : Type := mkDependency {
  Name : string;
  Version : string;
  Type_ : string;
  Description : string;
  Source : string;
  Repository : string;
  Branch : string;
  Dependencies : list string;
  Vulnerabilities : list string;
  BuildSystem : string;
  DetectedBy : string;
  ConfigFile : string;
  ConfigFileType : string
}.

(** [models.DependencyResult] *)
Record DependencyResult : Type := mkResult {
  TotalDeps : nat;
  DirectDeps : nat;
  IndirectDeps : nat;
  VulnerableDeps : nat;
  Deps : list Dependency;
  Errors : list string
}.

Definition NewDependencyResult : DependencyResult := mkResult 0 0 0 0 [] [].

(** [DependencyResult.AddDependency] *)
Definition AddDependency (dep : Dependency) (r : DependencyResult) : DependencyResult :=
  mkResult (S (TotalDeps r))
           (match Dependencies dep with [] => S (DirectDeps r) | _ => DirectDeps r end)
           (match Dependencies dep with [] => IndirectDeps r | _ => S (IndirectDeps r) end)
           (match Vulnerabilities dep with [] => VulnerableDeps r | _ => S (VulnerableDeps r) end)
           (Deps r ++ [dep]) (Errors r).

(** [Scanner.addDependencies], run under the scanner's mutex. *)
Definition addDependencies (deps : list Dependency) (r : DependencyResult)
  : DependencyResult :=
  foldl (fun r dep => AddDependency dep r) r deps.

(** [r.Errors = append(r.Errors, err)] is a read of the slice followed by a
    write of the extended slice; [AddError] runs them back to back. *)
Definition store_errors (errors : list string) (r : DependencyResult)
  : DependencyResult :=
  mkResult (TotalDeps r) (DirectDeps r) (IndirectDeps r) (VulnerableDeps r)
           (Deps r) errors.

Definition AddError (err : string) (r : DependencyResult) : DependencyResult :=
  store_errors (Errors r ++ [err]) r.

(** [utils.IsHidden]; on Windows the hidden attribute of [os.Stat(name)]
    is consulted for a name that has no leading dot. *)
Definition IsHidden (windows : bool) (stat_hidden : string -> bool) (name : string)
  : bool :=
  if HasPrefix name "." then true
  else if windows then stat_hidden name
  else false.

(** [filepath.Ext] of a file name: the suffix from its last dot. *)
Fixpoint Ext (name : string) : string :=
  match name with
  | EmptyString => EmptyString
  | String c rest =>
      match Ext rest with
      | EmptyString => if Ascii.eqb c "." then name else EmptyString
      | ext => ext
      end
  end.

(** The extractors [detectFileType] can return. *)
Inductive ExtractorKind : Type :=
| CMakeExtractor | MakeExtractor | ConanExtractor | VcpkgExtractor
| SubmoduleExtractor | MesonExtractor | PkgConfigExtractor
| AutoconfExtractor | ControlExtractor.

(** [Scanner.detectFileType], on the name of the entry. *)
Definition detectFileType (filename : string) : option ExtractorKind :=
  let ext := Ext filename in
  if String.eqb filename "CMakeLists.txt" || String.eqb ext ".cmake"
  then Some CMakeExtractor
  else if String.eqb filename "Makefile" || String.eqb filename "makefile"
  then Some MakeExtractor
  else if String.eqb filename "conanfile.txt" || String.eqb filename "conanfile.py"
  then Some ConanExtractor
  else if String.eqb filename "vcpkg.json" then Some VcpkgExtractor
  else if String.eqb filename ".gitmodules" then Some SubmoduleExtractor
  else if String.eqb filename "meson.build" then Some MesonExtractor
  else if String.eqb ext ".pc" then Some PkgConfigExtractor
  else if String.eqb filename "configure" || String.eqb filename "configure.ac"
  then Some AutoconfExtractor
  else if String.eqb ext ".dsc" then Some ControlExtractor
  else None.

(** What [filepath.Walk] finds: a file, a directory with its entries in
    the order [Walk] reads them, an entry whose [Lstat] fails, a directory
    whose listing fails. *)
Inductive Tree : Type :=
| File (name : string)
| Dir (name : string) (entries : list Tree)
| NoStat (name : string) (err : string)
| NoRead (name : string) (err : string).

(** What the walk function of [Scan] returns before it looks at the cache:
    an error, [filepath.SkipDir], [nil] for a hidden file, or the entry
    handed to [detectFileType]. *)
Inductive Verdict : Type :=
| Abort (err : string)
| SkipDir
| Ignore
| Inspect.

Definition judge (windows : bool) (stat_hidden : string -> bool)
  (name : string) (is_dir : bool) (err : option string) : Verdict :=
  match err with
  | Some e => Abort e
  | None =>
      if IsHidden windows stat_hidden name
      then (if is_dir then SkipDir else Ignore)
      else Inspect
  end.

(** A file the walk hands to an extractor. *)
Record Task : Type := mkTask {
  task_path : string;
  task_kind : ExtractorKind
}.

Definition task_of (path name : string) : list Task :=
  match detectFileType name with
  | Some kind => [mkTask path kind]
  | None => []
  end.

Definition join_path (dir name : string) : string := (dir ++ "/" ++ name)%string.

(** [filepath.Walk] with the walk function of [Scan]: the tasks in walk
    order, and the error that stopped the walk, if one did. *)
Fixpoint walk (windows : bool) (stat_hidden : string -> bool) (path : string)
  (t : Tree) : list Task * option string :=
  match t with
  | File name =>
      match judge windows stat_hidden name false None with
      | Inspect => (task_of path name, None)
      | Abort e => ([], Some e)
      | _ => ([], None)
      end
  | NoStat name e => ([], Some e)
  | NoRead name e => ([], Some e)
  | Dir name entries =>
      match judge windows stat_hidden name true None with
      | Abort e => ([], Some e)
      | SkipDir | Ignore => ([], None)
      | Inspect =>
          let '(tasks, e) :=
            (fix walk_entries (todo : list Tree) : list Task * option string :=
               match todo with
               | [] => ([], None)
               | entry :: rest =>
                   let name' :=
                     match entry with
                     | File n | Dir n _ | NoStat n _ | NoRead n _ => n
                     end in
                   match walk windows stat_hidden (join_path path name') entry with
                   | (tasks, Some e) => (tasks, Some e)
                   | (tasks, None) =>
                       let '(more, e) := walk_entries rest in (tasks ++ more, e)
                   end
               end) entries in
          (task_of path name ++ tasks, e)
      end
  end.

(** *** Workers *)

(** Where a worker goroutine stands: about to extract; about to read the
    error list; about to write the error list it read, extended; about to
    update the cache; about to add its records.  [AddError] holds no lock,
    so its read and its write of [r.Errors] are two steps, each taken here
    as a whole; this is exact for the runs in which no two workers are
    inside [AddError] at once, and for the others it gives the outcomes in
    which neither access is torn. *)
Inductive PC : Type :=
| Start
| ErrRead (msg : string)
| ErrWrite (old : list string) (msg : string)
| OkSet (deps : list Dependency)
| OkAdd (deps : list Dependency).

Record Worker : Type := mkWorker {
  w_task : Task;
  w_pc : PC
}.

Section scan.

(** [Config.EnableCache], [Config.MaxWorkers] after [NewScanner], the
    platform of [IsHidden], the extractors, and the digest of the cache. *)
Variable EnableCache : bool.
Variable MaxWorkers : nat.
Variable windows : bool.
Variable stat_hidden : string -> bool.
Variable Extract : ExtractorKind -> string -> result (list Dependency).
Variable sha256_hex : string -> string.

(** The scanner while [Scan] runs: the tasks the walk has still to reach,
    the workers in flight, the result, the cache and the machine. *)
Record Config : Type := mkConfig {
  todo : list Task;
  active : list Worker;
  result_ : DependencyResult;
  cache : Cache.t Dependency;
  world : Cache.World Dependency
}.

Definition extract_error (path err : string) : string :=
  ("Failed to extract dependencies from " ++ path ++ ": " ++ err)%string.

(** One step of the walking goroutine: a cache hit adds the cached
    records; otherwise a worker is started, which needs a free slot of the
    semaphore. *)
Definition walk_step (cfg : Config) : option Config :=
  match todo cfg with
  | [] => None
  | task :: rest =>
      let dispatch :=
        if (length (active cfg) <? MaxWorkers)%nat
        then Some (mkConfig rest (active cfg ++ [mkWorker task Start])
                            (result_ cfg) (cache cfg) (world cfg))
        else None in
      if EnableCache then
        match Cache.Get Dependency sha256_hex (task_path task) (cache cfg) (world cfg) with
        | ((deps, true), c, w) =>
            Some (mkConfig rest (active cfg) (addDependencies deps (result_ cfg)) c w)
        | _ => dispatch
        end
      else dispatch
  end.

(** One step of a worker; [None] in the first component when it is done. *)
Definition worker_step (w : Worker) (cfg : Config) : option Worker * Config :=
  let path := task_path (w_task w) in
  match w_pc w with
  | Start =>
      match Extract (task_kind (w_task w)) path with
      | Err e => (Some (mkWorker (w_task w) (ErrRead (extract_error path e))), cfg)
      | Ok deps =>
          (Some (mkWorker (w_task w) (if EnableCache then OkSet deps else OkAdd deps)),
           cfg)
      end
  | ErrRead msg =>
      (Some (mkWorker (w_task w) (ErrWrite (Errors (result_ cfg)) msg)), cfg)
  | ErrWrite old msg =>
      (None, mkConfig (todo cfg) (active cfg)
                      (store_errors (old ++ [msg]) (result_ cfg))
                      (cache cfg) (world cfg))
  | OkSet deps =>
      let '(_, c, wd) := Cache.Set_ Dependency sha256_hex path deps (cache cfg) (world cfg) in
      (Some (mkWorker (w_task w) (OkAdd deps)),
       mkConfig (todo cfg) (active cfg) (result_ cfg) c wd)
  | OkAdd deps =>
      (None, mkConfig (todo cfg) (active cfg)
                      (addDependencies deps (result_ cfg))
                      (cache cfg) (world cfg))
  end.

(** The scheduler's choices: the walking goroutine, or the worker at a
    position of the list of workers in flight. *)
Inductive Choice : Type :=
| Walk
| Step (i : nat).

Definition step (cfg : Config) (c : Choice) : option Config :=
  match c with
  | Walk => walk_step cfg
  | Step i =>
      w ← active cfg !! i;
      let '(w', cfg') := worker_step w cfg in
      Some (mkConfig (todo cfg')
                     (match w' with
                      | Some next => <[i := next]> (active cfg')
                      | None => delete i (active cfg')
                      end)
                     (result_ cfg') (cache cfg') (world cfg'))
  end.

(** A run under a schedule; [None] if a choice is not enabled. *)
Fixpoint run (schedule : list Choice) (cfg : Config) : option Config :=
  match schedule with
  | [] => Some cfg
  | c :: rest => cfg' ← step cfg c; run rest cfg'
  end.

Definition finished (cfg : Config) : bool :=
  match todo cfg, active cfg with
  | [], [] => true
  | _, _ => false
  end.

(** [Scan] under a schedule, from a fresh result: the error it returns, if
    any, and the scanner it leaves.  [None] if the schedule is not a
    complete run.  When the walk fails, [Scan] returns without waiting for
    the workers. *)
Definition Scan (root : string) (tree : Tree) (c : Cache.t Dependency)
  (w : Cache.World Dependency) (schedule : list Choice)
  : option (option string * Config) :=
  let '(tasks, failure) := walk windows stat_hidden root tree in
  cfg ← run schedule (mkConfig tasks [] NewDependencyResult c w);
  match failure with
  | Some e =>
      match todo cfg with
      | [] => Some (Some ("扫描目录失败: " ++ e)%string, cfg)
      | _ => None
      end
  | None => if finished cfg then Some (None, cfg) else None
  end.

(** Running the worker in flight to its end. *)
Fixpoint drain (fuel : nat) (cfg : Config) : option Config :=
  match active cfg with
  | [] => Some cfg
  | _ =>
      match fuel with
      | O => None
      | S fuel' => cfg' ← step cfg (Step 0); drain fuel' cfg'
      end
  end.

(** The run in which every worker runs to its end as soon as it is
    started: one worker at a time. *)
Fixpoint one_by_one (tasks : nat) (cfg : Config) : option Config :=
  match tasks with
  | O => Some cfg
  | S tasks' =>
      cfg1 ← walk_step cfg; cfg2 ← drain 3 cfg1; one_by_one tasks' cfg2
  end.

End scan.

Arguments walk_step EnableCache MaxWorkers sha256_hex cfg : assert.
Arguments worker_step EnableCache Extract sha256_hex w cfg : assert.
Arguments step EnableCache MaxWorkers Extract sha256_hex cfg c : assert.
Arguments run EnableCache MaxWorkers Extract sha256_hex schedule cfg : assert.
Arguments Scan EnableCache MaxWorkers windows stat_hidden Extract sha256_hex
  root tree c w schedule : assert.

(** The tree of the submodule example: a project with a [.gitmodules] file
    beside its [Makefile]. *)
Definition tree_gitmodules : Tree :=
  Dir "proj" [File ".gitmodules"; File "Makefile"].

(** Two build files whose extractors fail, and the interleaving in which the
    two workers both read the error list before either writes it. *)
Definition tree_two_failures : Tree :=
  Dir "proj" [File "Makefile"; File "meson.build"].

Definition always_fails (kind : ExtractorKind) (path : string)
  : result (list Dependency) :=
  Err "unreadable".

Definition racing : list Choice :=
  [Walk; Walk; Step 0; Step 1; Step 0; Step 1; Step 0; Step 0].

(** The entries of a directory, walked in order until one fails. *)
Definition walk_entries (windows : bool) (stat_hidden : string -> bool)
  (path : string) : list Tree -> list Task * option string :=
  fix walk_entries (todo : list Tree) : list Task * option string :=
    match todo with
    | [] => ([], None)
    | entry :: rest =>
        let name' :=
          match entry with
          | File n | Dir n _ | NoStat n _ | NoRead n _ => n
          end in
        match walk windows stat_hidden (join_path path name') entry with
        | (tasks, Some e) => (tasks, Some e)
        | (tasks, None) =>
            let '(more, e) := walk_entries rest in (tasks ++ more, e)
        end
    end.

Lemma walk_Dir windows stat_hidden path name entries :
  walk windows stat_hidden path (Dir name entries) =
  match judge windows stat_hidden name true None with
  | Abort e => ([], Some e)
  | SkipDir | Ignore => ([], None)
  | Inspect =>
      let '(tasks, e) := walk_entries windows stat_hidden path entries in
      (task_of path name ++ tasks, e)
  end.
Proof. reflexivity. Qed.

(** Induction over a tree and the entries of its directories. *)
Lemma Tree_entries_ind (P : Tree -> Prop) :
  (forall name, P (File name)) ->
  (forall name entries, Forall P entries -> P (Dir name entries)) ->
  (forall name err, P (NoStat name err)) ->
  (forall name err, P (NoRead name err)) ->
  forall t, P t.
Proof.
  intros HF HD HS HR. fix IH 1. intros [name|name entries|name e|name e].
  - apply HF.
  - apply HD. induction entries as [|t ts IHts]; constructor.
    + apply IH.
    + apply IHts.
  - apply HS.
  - apply HR.
Qed.

Lemma detectFileType_submodule name :
  detectFileType name = Some SubmoduleExtractor -> name = ".gitmodules".
Proof.
  unfold detectFileType. repeat case_match; try discriminate.
  intros _. by apply String.eqb_eq.
Qed.

Lemma task_of_visible windows stat_hidden path name :
  IsHidden windows stat_hidden name = false ->
  Forall (fun task => task_kind task <> SubmoduleExtractor) (task_of path name).
Proof.
  intros Hvis. unfold task_of. destruct (detectFileType name) as [kind|] eqn:E;
    constructor; [|constructor].
  simpl. intros ->. apply detectFileType_submodule in E as ->.
  discriminate Hvis.
Qed.

(** C8. Whatever the tree, the platform and the place of a [.gitmodules]
    file in it, the walk of [Scan] hands no file to the submodule extractor:
    the name [.gitmodules] begins with a dot, [IsHidden] holds for it and the
    walk function returns before [detectFileType] is asked. *)
Theorem Scan_never_dispatches_submodule_extractor windows stat_hidden path tree :
  Forall (fun task => task_kind task <> SubmoduleExtractor)
         (walk windows stat_hidden path tree).1.
Proof.
  revert path. induction tree as [name|name entries IH|name e|name e]
    using Tree_entries_ind; intros path.
  - simpl. unfold judge. destruct (IsHidden windows stat_hidden name) eqn:Hh.
    + constructor.
    + eapply task_of_visible; eauto.
  - rewrite walk_Dir. unfold judge.
    destruct (IsHidden windows stat_hidden name) eqn:Hh; [constructor|].
    assert (Forall (fun task => task_kind task <> SubmoduleExtractor)
              (walk_entries windows stat_hidden path entries).1) as Hent.
    { induction IH as [|t ts Ht _ IHts]; simpl; [constructor|].
      specialize (Ht (join_path path
        match t with File n | Dir n _ | NoStat n _ | NoRead n _ => n end)).
      destruct (walk windows stat_hidden _ t) as [tasks [e|]]; simpl in *; [done|].
      fold (walk_entries windows stat_hidden path) in *.
      destruct (walk_entries windows stat_hidden path ts) as [more e'].
      simpl in *. by apply Forall_app. }
    destruct (walk_entries windows stat_hidden path entries) as [tasks e].
    simpl in *. apply Forall_app. split; [|done].
    eapply task_of_visible; eauto.
  - constructor.
  - constructor.
Qed.

(** The project of the example: only the [Makefile] is handed to an
    extractor. *)
Lemma walk_gitmodules stat_hidden :
  walk false stat_hidden "proj" tree_gitmodules
  = ([mkTask "proj/Makefile" MakeExtractor], None).
Proof. reflexivity. Qed.

(** C7. Two files whose extractors fail, two workers: in the interleaving
    [racing] both workers read the empty error list before either writes,
    [Scan] returns without error, and the error list holds the message of
    [meson.build] alone; the message naming [Makefile] is lost. *)
Theorem Scan_loses_an_error_message stat_hidden sha256_hex c w :
  exists cfg,
    Scan false 2 false stat_hidden always_fails sha256_hex
         "proj" tree_two_failures c w racing = Some (None, cfg)
    /\ Errors (result_ cfg) = [extract_error "proj/meson.build" "unreadable"]
    /\ extract_error "proj/Makefile" "unreadable" ∉ Errors (result_ cfg).
Proof.
  eexists. split; [vm_compute; reflexivity|]. split; [reflexivity|].
  intros Hin. apply list_elem_of_singleton in Hin. discriminate Hin.
Qed.

End Scanner.

(** ** Go's [regexp], the part the Ninja extractor uses *)

Module GoRegexp.

Import GoStrings.

(** The syntax of the expressions: literals, classes of one byte, sequence,
    the greedy repetitions [*], [+], [?], numbered capture groups, and the
    anchors [^] and [$] (without flags: begin and end of the text).  The
    classes of the expressions used here are ASCII classes and their
    complements, so matching byte by byte gives the match that matching
    rune by rune gives. *)
Inductive Regexp : Type :=
| Lit (s : string)
| Class (member : ascii -> bool)
| Cat (r1 r2 : Regexp)
| Star (r : Regexp)
| Plus (r : Regexp)
| Quest (r : Regexp)
| Capture (i : nat) (r : Regexp)
| BeginText
| EndText.

(** [\s] is [[\t\n\f\r ]]; [.] is every byte but the line feed. *)
Definition perl_space (c : ascii) : bool :=
  match nat_of_ascii c with
  | 9 | 10 | 12 | 13 | 32 => true
  | _ => false
  end.

Definition any_char (c : ascii) : bool := negb (Ascii.eqb c "010").

Definition none_of (excluded : string) (c : ascii) : bool :=
  negb (existsb (Ascii.eqb c) (list_ascii_of_string excluded)).

Definition not_space (c : ascii) : bool := negb (perl_space c).

Fixpoint seq_re (rs : list Regexp) : Regexp :=
  match rs with
  | [] => Lit ""
  | [r] => r
  | r :: rest => Cat r (seq_re rest)
  end.

Fixpoint NumSubexp (r : Regexp) : nat :=
  match r with
  | Cat r1 r2 => NumSubexp r1 + NumSubexp r2
  | Star r' | Plus r' | Quest r' => NumSubexp r'
  | Capture _ r' => S (NumSubexp r')
  | _ => 0
  end.

(** The text between two positions given by what is left of the input. *)
Definition matched (rest rest' : string) : string :=
  substring 0 (String.length rest - String.length rest') rest.

(** Leftmost-first matching, the match a backtracking search finds first:
    [exec_re r text rest caps k] matches [r] at the head of [rest] and
    hands what is left and the groups to [k]; when [k] fails the next
    alternative is tried.  An iteration of a repetition has to consume
    input. *)
Fixpoint exec_re (r : Regexp) (text rest : string) (caps : list string)
  (k : string -> list string -> option (list string)) {struct r}
  : option (list string) :=
  let repeat_ (r' : Regexp) :=
    fix loop (fuel : nat) (rest : string) (caps : list string)
      : option (list string) :=
      match fuel with
      | O => k rest caps
      | S fuel' =>
          match exec_re r' text rest caps
                  (fun rest' caps' =>
                     if (String.length rest' <? String.length rest)%nat
                     then loop fuel' rest' caps' else None) with
          | Some m => Some m
          | None => k rest caps
          end
      end in
  match r with
  | Lit s =>
      if has_prefix s rest then k (drop_bytes (String.length s) rest) caps
      else None
  | Class member =>
      match rest with
      | String c rest' => if member c then k rest' caps else None
      | EmptyString => None
      end
  | Cat r1 r2 =>
      exec_re r1 text rest caps (fun rest' caps' => exec_re r2 text rest' caps' k)
  | Star r' => repeat_ r' (String.length rest) rest caps
  | Plus r' =>
      exec_re r' text rest caps
        (fun rest' caps' => repeat_ r' (String.length rest') rest' caps')
  | Quest r' =>
      match exec_re r' text rest caps k with
      | Some m => Some m
      | None => k rest caps
      end
  | Capture i r' =>
      exec_re r' text rest caps
        (fun rest' caps' => k rest' (<[i := matched rest rest']> caps'))
  | BeginText =>
      if (String.length rest =? String.length text)%nat then k rest caps else None
  | EndText =>
      match rest with
      | EmptyString => k rest caps
      | _ => None
      end
  end.

(** The leftmost match: the start positions are tried from the left. *)
Fixpoint find_at (re : Regexp) (text rest : string) : list string :=
  match exec_re re text rest (replicate (S (NumSubexp re)) EmptyString)
          (fun rest' caps => Some (<[0 := matched rest rest']> caps)) with
  | Some m => m
  | None =>
      match rest with
      | EmptyString => []
      | String _ rest' => find_at re text rest'
      end
  end.

(** [Regexp.FindStringSubmatch]: the match and the text of each group
    (empty for a group that took no part), [nil] when nothing matches. *)
Definition FindStringSubmatch (re : Regexp) (s : string) : list string :=
  find_at re s s.

End GoRegexp.

(** ** The Ninja extractor (package [extractor]) *)

Module Ninja.

Import GoStrings GoRegexp.

(** The fields of [models.Dependency] the extractor fills. *)
Record Dependency : Type := mkDependency {
  Name : string;
  Type_ : string;
  FilePath : string;
  Line : nat;
  Parent : string;
  Rule : string
}.

(** A call that returns, or a run-time panic. *)
Inductive Outcome (A : Type) : Type :=
| Done (a : A)
| Panic (msg : string).
Arguments Done {A} a.
Arguments Panic {A} msg.

(** What [os.Open] and the [bufio.Scanner] give: no file, or the lines
    read and the error that ended the reading, if one did. *)
Inductive NinjaFile : Type :=
| Unopened (err : string)
| Content (lines : list string) (scan_err : option string).

(** [^build\s+([^:]+):\s+([^\s]+)\s+([^|#]+)(?:\|\s+([^#]+))?], then the
    optional group of [#] and [.*], then [$]. *)
Definition buildRuleRegex : Regexp :=
  seq_re [BeginText; Lit "build"; Plus (Class perl_space);
          Capture 1 (Plus (Class (none_of ":"))); Lit ":"; Plus (Class perl_space);
          Capture 2 (Plus (Class not_space)); Plus (Class perl_space);
          Capture 3 (Plus (Class (none_of "|#")));
          Quest (seq_re [Lit "|"; Plus (Class perl_space);
                         Capture 4 (Plus (Class (none_of "#")))]);
          Quest (Cat (Lit "#") (Star (Class any_char)));
          EndText].

(** [^include\s+([^#]+)], then the optional group of [#] and [.*], then
    [$]. *)
Definition includeRegex : Regexp :=
  seq_re [BeginText; Lit "include"; Plus (Class perl_space);
          Capture 1 (Plus (Class (none_of "#")));
          Quest (Cat (Lit "#") (Star (Class any_char)));
          EndText].

(** [^subninja\s+([^#]+)], then the optional group of [#] and [.*], then
    [$]. *)
Definition subninjaDirRegex : Regexp :=
  seq_re [BeginText; Lit "subninja"; Plus (Class perl_space);
          Capture 1 (Plus (Class (none_of "#")));
          Quest (Cat (Lit "#") (Star (Class any_char)));
          EndText].

(** [^\s*([^=]+)\s*=\s*([^#]+)], then the optional group of [#] and
    [.*], then [$]. *)
Definition variableRegex : Regexp :=
  seq_re [BeginText; Star (Class perl_space);
          Capture 1 (Plus (Class (none_of "=")));
          Star (Class perl_space); Lit "="; Star (Class perl_space);
          Capture 2 (Plus (Class (none_of "#")));
          Quest (Cat (Lit "#") (Star (Class any_char)));
          EndText].

(** [matches[i]] *)
Definition index (matches : list string) (i : nat) : string :=
  nth i matches EmptyString.

(** The body of the loop of [expandVariables] for one entry of the table. *)
Definition expand_one (value : string) (entry : string * string) : string :=
  let '(name, val) := entry in
  ReplaceAll (ReplaceAll value ("$" ++ name) val) ("${" ++ name ++ "}") val.

(** The extractor between two lines: the variable table, the records so
    far, the line counter, and the number of [range] loops run so far. *)
Record State : Type := mkState {
  variables : gmap string string;
  dependencies : list Dependency;
  lineNum : nat;
  clock : nat
}.

Definition NewState : State := mkState ∅ [] 0 0.

Section extract.

(** The order in which the [n]-th [range] loop of a run visits a table. *)
Variable go_range : nat -> gmap string string -> list (string * string).

(** [expandVariables] *)
Definition expandVariables (now : nat) (value : string)
  (table : gmap string string) : string :=
  foldl expand_one value (go_range now table).

(** The loops over the inputs of a build statement: one record for each,
    its name expanded. *)
Definition add_records (type_ filePath parent rule : string)
  (names : list string) (st : State) : State :=
  foldl (fun st name =>
           mkState (variables st)
                   (dependencies st ++
                    [mkDependency (expandVariables (clock st) name (variables st))
                                  type_ filePath (lineNum st) parent rule])
                   (lineNum st) (S (clock st)))
        st names.

(** The directive of an [include] or [subninja] line. *)
Definition add_directive (type_ filePath : string) (path : string) (st : State)
  : State :=
  add_records type_ filePath EmptyString EmptyString [TrimSpace path] st.

(** One turn of the loop of [Extract]. *)
Definition process_line (filePath : string) (st : State) (text : string)
  : Outcome State :=
  let st := mkState (variables st) (dependencies st) (S (lineNum st)) (clock st) in
  let line := TrimSpace text in
  if String.eqb line "" || HasPrefix line "#" then Done st
  else
    let matches := FindStringSubmatch variableRegex line in
    if (2 <? length matches)%nat then
      Done (mkState (<[TrimSpace (index matches 1) := TrimSpace (index matches 2)]>
                       (variables st))
                    (dependencies st) (lineNum st) (clock st))
    else
    let matches := FindStringSubmatch includeRegex line in
    if (1 <? length matches)%nat then
      Done (add_directive "ninja_include" filePath (index matches 1) st)
    else
    let matches := FindStringSubmatch subninjaDirRegex line in
    if (1 <? length matches)%nat then
      Done (add_directive "ninja_subninja" filePath (index matches 1) st)
    else
    let matches := FindStringSubmatch buildRuleRegex line in
    if (3 <? length matches)%nat then
      let outputs := Fields (index matches 1) in
      let rule := index matches 2 in
      let inputs := Fields (index matches 3) in
      let implicitDeps :=
        if (4 <? length matches)%nat && negb (String.eqb (index matches 4) "")
        then Fields (index matches 4) else [] in
      match outputs with
      | parent :: _ =>
          Done (add_records "ninja_implicit" filePath parent rule implicitDeps
                  (add_records "ninja_input" filePath parent rule inputs st))
      | [] =>
          match inputs ++ implicitDeps with
          | [] => Done st
          | _ => Panic "index out of range [0] with length 0"
          end
      end
    else Done st.

Fixpoint process_lines (filePath : string) (st : State) (lines : list string)
  : Outcome State :=
  match lines with
  | [] => Done st
  | text :: rest =>
      match process_line filePath st text with
      | Done st' => process_lines filePath st' rest
      | Panic msg => Panic msg
      end
  end.

(** [NinjaExtractor.Extract] *)
Definition Extract (projectPath filePath : string) (file : NinjaFile)
  : Outcome (result (list Dependency)) :=
  match file with
  | Unopened err =>
      Done (Err ("failed to open file " ++ filePath ++ ": " ++ err)%string)
  | Content lines scan_err =>
      match process_lines filePath NewState lines with
      | Panic msg => Panic msg
      | Done st =>
          match scan_err with
          | Some err =>
              Done (Err ("error scanning file " ++ filePath ++ ": " ++ err)%string)
          | None => Done (Ok (dependencies st))
          end
      end
  end.

End extract.

(** The file of the example. *)
Definition lines_E1 : list string :=
  ["srcdir = src"; "objdir = build/obj"; "build $objdir/main.o: cxx $srcdir/main.cpp"].

(** The visiting order of sorted keys, one of the orders a run can take. *)
Definition range_sorted (now : nat) (table : gmap string string)
  : list (string * string) :=
  map_to_list table.


Section extract_facts.
Variable go_range : nat -> gmap string string -> list (string * string).
Hypothesis go_range_perm :
  forall now table, go_range now table ≡ₚ map_to_list table.

(** C9. For the three lines of the example, in whatever order the variable
    table is visited, [Extract] returns one record: the input
    [src/main.cpp] of line 3, of type [ninja_input] and rule [cxx], whose
    parent is the first output as written, [$objdir/main.o]: the parent is
    not passed through [expandVariables]. *)
Theorem Extract_E1 (projectPath filePath : string) :
  Extract go_range projectPath filePath (Content lines_E1 None)
  = Done (Ok [mkDependency "src/main.cpp" "ninja_input" filePath 3
                           "$objdir/main.o" "cxx"]).
Proof.
  pose proof (go_range_perm 0 (<["objdir" := "build/obj"]> (<["srcdir" := "src"]> ∅)))
    as Horder.
  symmetry in Horder. apply permutations_Permutation in Horder.
  vm_compute in Horder. vm_compute.
  apply elem_of_cons in Horder as [Horder | Horder];
    [| apply list_elem_of_singleton in Horder];
    rewrite Horder; reflexivity.
Qed.

End extract_facts.

Lemma Extract_E1_witness :
  Extract range_sorted "proj" "proj/build.ninja" (Content lines_E1 None)
  = Done (Ok [mkDependency "src/main.cpp" "ninja_input" "proj/build.ninja" 3
                           "$objdir/main.o" "cxx"]).
Proof. apply (Extract_E1 range_sorted). intros now table. reflexivity. Defined.

(** A reference to a variable that is not in the table is rewritten when a
    name of the table is a prefix of its name. *)
Lemma expandVariables_rewrites_unknown :
  expandVariables range_sorted 0 "$srcdir/main.cpp" {["src" := "lib"]}
  = "libdir/main.cpp".
Proof. reflexivity. Qed.

End Ninja.

(** ** More about the cache *)

Module CacheFacts.

Import Cache.

(** An entry is expired at [now] when [RemoveExpired] deletes it. *)
Definition expired {Dependency : Type} (now : Z)
  (kv : string * CacheEntry Dependency) : Prop :=
  (staleness < Sub now (UpdateTime _ kv.2))%Z.

(** An entry is intact when its file can be hashed and has the hash the
    entry stores. *)
Definition intact {Dependency : Type} (sha256_hex : string -> string)
  (w : World Dependency) (kv : string * CacheEntry Dependency) : Prop :=
  hashFile _ sha256_hex w kv.1 = Ok (Hash _ kv.2).

#[local] Instance expired_dec {Dependency : Type} now (kv : string * CacheEntry Dependency) :
  Decision (expired now kv).
Proof. unfold expired. apply _. Defined.

#[local] Instance FileState_eq_dec : EqDecision FileState.
Proof. solve_decision. Defined.

#[local] Instance result_string_eq_dec : EqDecision (result string).
Proof. solve_decision. Defined.

#[local] Instance intact_dec {Dependency : Type} sha w (kv : string * CacheEntry Dependency) :
  Decision (intact sha w kv).
Proof. unfold intact. apply _. Defined.

(** No file of the table exists without being readable. *)
Definition all_readable {Dependency : Type} (c : t Dependency)
  (w : World Dependency) : Prop :=
  set_Forall (fun path => files _ w !! path <> Some Unreadable) (dom (entries _ c)).

(** The visiting order of sorted keys, one of the orders a loop can take. *)
Definition sorted_range (E : Type) (m : gmap string E) : list (string * E) :=
  map_to_list m.

(** A machine with a file that cannot be read. *)
Definition broken_machine : World string :=
  mkWorld string {[ "CMakeLists.txt" := Content "find_package(Boost)";
                    "Makefile" := Unreadable ]}
          None None None None None demo_json demo_unjson 0.

(** A machine with two cached files, one old and one changed. *)
Definition two_files (now : Z) : World string :=
  mkWorld string {[ "CMakeLists.txt" := Content "find_package(Boost)";
                    "Makefile" := Content "all:" ]}
          None None None None None demo_json demo_unjson now.

Definition two_entries : t string :=
  mkCache string {[ "CMakeLists.txt" := mkEntry string "find_package(Boost)" 10 ["boost"];
                    "Makefile" := mkEntry string "old" 0 ["zlib"] ]} "d".

Section facts.
Variable Dependency : Type.
Variable sha256_hex : string -> string.
Variable go_range : forall E : Type, gmap string E -> list (string * E).
Hypothesis go_range_perm :
  forall E (m : gmap string E), go_range E m ≡ₚ map_to_list m.

Notation Entry := (CacheEntry Dependency).
Notation Table := (gmap string (CacheEntry Dependency)).

Lemma expire_fold_none now (l : list (string * Entry)) (acc : Table * nat) k :
  acc.1 !! k = None -> (fold_left (expire_step _ now) l acc).1 !! k = None.
Proof using Type.
  revert acc. induction l as [|[k' e'] l IH]; intros acc Hk; [done |].
  simpl. apply IH. unfold expire_step. simpl.
  destruct (_ <? _)%Z; [| done]. simpl.
  destruct (decide (k' = k)) as [->|Hne];
    [apply lookup_delete_eq | by rewrite lookup_delete_ne].
Qed.

Lemma expire_fold_hit now (l : list (string * Entry)) (acc : Table * nat) k e :
  (k, e) ∈ l -> expired now (k, e) ->
  (fold_left (expire_step _ now) l acc).1 !! k = None.
Proof using Type.
  revert acc. induction l as [|[k' e'] l IH]; intros acc Hin Hexp.
  - by apply elem_of_nil in Hin.
  - apply elem_of_cons in Hin as [Heq | Hin]; [| by apply IH].
    injection Heq as <- <-. simpl. apply expire_fold_none.
    unfold expire_step. simpl. unfold expired in Hexp. simpl in Hexp.
    destruct (Z.ltb_spec staleness (Sub now (UpdateTime _ e))); [| lia].
    simpl. apply lookup_delete_eq.
Qed.

Lemma expire_fold_keep now (l : list (string * Entry)) (acc : Table * nat) k :
  (forall e, (k, e) ∈ l -> ~ expired now (k, e)) ->
  (fold_left (expire_step _ now) l acc).1 !! k = acc.1 !! k.
Proof using Type.
  revert acc. induction l as [|[k' e'] l IH]; intros acc Hkeep; [done |].
  simpl. rewrite IH.
  - unfold expire_step. simpl.
    destruct (Z.ltb_spec staleness (Sub now (UpdateTime _ e'))); [| done].
    simpl. destruct (decide (k' = k)) as [->|Hne].
    + exfalso. apply (Hkeep e'); [apply list_elem_of_here | done].
    + by rewrite lookup_delete_ne.
  - intros e He. apply Hkeep. by apply list_elem_of_further.
Qed.

Lemma expire_fold_count now (l : list (string * Entry)) (acc : Table * nat) :
  NoDup l.*1 ->
  (forall k, k ∈ l.*1 -> is_Some (acc.1 !! k)) ->
  let r := fold_left (expire_step _ now) l acc in
  (r.2 + size r.1 = acc.2 + size acc.1)%nat.
Proof using Type.
  revert acc. induction l as [|[k' e'] l IH]; intros acc Hnd Hdom; [done |].
  simpl. apply NoDup_cons in Hnd as [Hnotin Hnd].
  rewrite IH; [| done |].
  - unfold expire_step. simpl. destruct (_ <? _)%Z; [| done]. simpl.
    rewrite map_size_delete_Some by (apply Hdom; apply list_elem_of_here).
    assert (0 < size acc.1)%nat; [| lia].
    destruct (Hdom k') as [x Hx]; [apply list_elem_of_here |].
    destruct (decide (size acc.1 = 0)%nat) as [Hz|]; [| lia].
    apply map_size_empty_inv in Hz. rewrite Hz, lookup_empty in Hx. done.
  - intros k Hk. unfold expire_step. simpl.
    destruct (_ <? _)%Z; simpl.
    + rewrite lookup_delete_ne.
      * apply Hdom. by apply list_elem_of_further.
      * intros ->. done.
    + apply Hdom. by apply list_elem_of_further.
Qed.

(** [RemoveExpired] keeps exactly the entries that are not older than
    seven days, whatever the order of its loop; it returns the number of
    entries it deleted, saves the table it is left with when it deleted
    one, and leaves the machine alone otherwise. *)
Theorem RemoveExpired_keeps_fresh (c : t Dependency) (w : World Dependency) :
  let count := (RemoveExpired _ go_range c w).1.1 in
  let c' := (RemoveExpired _ go_range c w).1.2 in
  let w' := (RemoveExpired _ go_range c w).2 in
  entries _ c' = filter (fun kv => ~ expired (clock _ w) kv) (entries _ c)
  /\ (count + size (entries _ c') = size (entries _ c))%nat
  /\ (count = 0%nat -> w' = w)
  /\ ((0 < count)%nat -> w' = (save _ c' w).2).
Proof using go_range_perm.
  unfold RemoveExpired.
  pose proof (go_range_perm _ (entries _ c)) as Hperm.
  pose proof (expire_fold_count (clock _ w) (go_range _ (entries _ c))
                (entries _ c, 0%nat)) as Hcount.
  assert (forall k e, (k, e) ∈ go_range Entry (entries _ c) <-> entries _ c !! k = Some e)
    as Hin.
  { intros k e. rewrite Hperm. apply elem_of_map_to_list. }
  destruct (fold_left _ _ _) as [m count] eqn:Hfold. simpl in *.
  assert (m = filter (fun kv => ~ expired (clock _ w) kv) (entries _ c)) as Hm.
  { apply map_eq. intros k. apply option_eq. intros e.
    rewrite map_lookup_filter_Some.
    replace m with (fold_left (expire_step _ (clock _ w)) (go_range _ (entries _ c))
                      (entries _ c, 0%nat)).1 by (by rewrite Hfold).
    destruct (entries _ c !! k) as [e0|] eqn:Hk.
    - destruct (decide (expired (clock _ w) (k, e0))) as [Hexp | Hfresh].
      + rewrite (expire_fold_hit _ _ _ k e0); [| by apply Hin | done].
        split; [done |]. intros [[= ->] Hno]. done.
      + rewrite expire_fold_keep; simpl.
        * rewrite Hk. split; [intros [= ->]; done | intros [? _]; done].
        * intros e1 He1. apply Hin in He1. congruence.
    - rewrite expire_fold_none by done. split; [done | intros [? _]; done]. }
  assert (count + size m = size (entries _ c))%nat as Hsize.
  { apply Hcount.
    - rewrite Hperm. apply NoDup_fst_map_to_list.
    - intros k Hk. apply list_elem_of_fmap in Hk as ([k' e] & -> & Hk).
      apply Hin in Hk. eauto. }
  destruct (0 <? count)%nat eqn:Hpos; simpl.
  - split; [done |]. split; [done |]. split.
    + intros ->. done.
    + done.
  - split; [done |]. split; [done |]. split; [done |].
    intros Hlt. apply Nat.ltb_ge in Hpos. lia.
Qed.

Lemma validate_loop_ok (w : World Dependency) (l : list (string * Entry)) (m : Table) :
  (forall k e, (k, e) ∈ l -> files _ w !! k <> Some Unreadable) ->
  (validate_loop _ sha256_hex w l m).1 = None
  /\ forall k,
      (validate_loop _ sha256_hex w l m).2 !! k =
      if decide (Exists (fun kv => kv.1 = k /\ ~ intact sha256_hex w kv) l)
      then None else m !! k.
Proof using Type.
  revert m. induction l as [|[p e] l IH]; intros m Hread.
  - split; [done |]. intros k. destruct (decide _) as [Hex|]; [| done].
    by apply Exists_nil in Hex.
  - assert (forall k e, (k, e) ∈ l -> files _ w !! k <> Some Unreadable) as Hread'.
    { intros k e0 Hin. apply (Hread k e0). by apply list_elem_of_further. }
    assert (forall m',
      (~ intact sha256_hex w (p, e) -> m' = delete p m) ->
      (intact sha256_hex w (p, e) -> m' = m) ->
      forall k,
        (if decide (Exists (fun kv => kv.1 = k /\ ~ intact sha256_hex w kv) l)
         then None else m' !! k) =
        (if decide (Exists (fun kv => kv.1 = k /\ ~ intact sha256_hex w kv) ((p, e) :: l))
         then None else m !! k)) as Hstep.
    { intros m' Hbad Hgood k.
      destruct (decide (Exists _ l)) as [Hex | Hno].
      - rewrite decide_True; [done | by apply Exists_cons_tl].
      - destruct (decide (intact sha256_hex w (p, e))) as [Hi | Hni].
        + rewrite (Hgood Hi). rewrite decide_False; [done |].
          intros [[_ Hhd] | Htl]%Exists_cons; done.
        + rewrite (Hbad Hni). destruct (decide (p = k)) as [->|Hne].
          * rewrite lookup_delete_eq. rewrite decide_True; [done |].
            by apply Exists_cons_hd.
          * rewrite lookup_delete_ne by done. rewrite decide_False; [done |].
            intros [[Hhd _] | Htl]%Exists_cons; done. }
    simpl. unfold hashFile.
    pose proof (Hread p e (list_elem_of_here _ _)) as Hp.
    destruct (files _ w !! p) as [[|bytes]|] eqn:Hfile; [done | |].
    + destruct (String.eqb_spec (sha256_hex bytes) (Hash _ e)) as [Heq | Hne]; simpl.
      * destruct (IH m Hread') as [-> Hlook]. split; [done |].
        intros k. rewrite Hlook. apply Hstep; [| done].
        intros Hni. exfalso. apply Hni. unfold intact, hashFile. simpl.
        rewrite Hfile. by rewrite Heq.
      * destruct (IH (delete p m) Hread') as [-> Hlook]. split; [done |].
        intros k. rewrite Hlook. apply Hstep; [done |].
        unfold intact, hashFile. simpl. rewrite Hfile. intros [= Hi]. done.
    + destruct (IH (delete p m) Hread') as [-> Hlook]. split; [done |].
      intros k. rewrite Hlook. apply Hstep; [done |].
      unfold intact, hashFile. simpl. rewrite Hfile. done.
Qed.

Lemma validate_loop_sub (w : World Dependency) (l : list (string * Entry)) (m : Table) :
  (validate_loop _ sha256_hex w l m).2 ⊆ m.
Proof using Type.
  revert m. induction l as [|[p e] l IH]; intros m; [done |].
  simpl. destruct (files _ w !! p) as [st|].
  - destruct (hashFile _ _ w p) as [hash | err]; [| done].
    destruct (negb _); [| apply IH].
    etrans; [apply IH | apply delete_subseteq].
  - etrans; [apply IH | apply delete_subseteq].
Qed.

Lemma validate_loop_stops (w : World Dependency) (l : list (string * Entry)) (m : Table) :
  (exists k e, (k, e) ∈ l /\ files _ w !! k = Some Unreadable) ->
  is_Some (validate_loop _ sha256_hex w l m).1.
Proof using Type.
  revert m. induction l as [|[p e] l IH]; intros m (k & e0 & Hin & Hk).
  - by apply elem_of_nil in Hin.
  - simpl. apply elem_of_cons in Hin as [[= <- <-] | Hin].
    + rewrite Hk. unfold hashFile. rewrite Hk. simpl. eauto.
    + destruct (files _ w !! p) as [st|]; [| apply IH; eauto].
      destruct (hashFile _ _ w p) as [hash | err]; [| simpl; eauto].
      destruct (negb _); apply IH; eauto.
Qed.

(** When every file of the table that exists can be read, [Validate] keeps
    exactly the entries whose file exists and still has the stored hash,
    whatever the order of its loop, and saves the table it is left with. *)
Theorem Validate_keeps_intact (c : t Dependency) (w : World Dependency) :
  all_readable c w ->
  let c' := (Validate _ sha256_hex go_range c w).1.2 in
  entries _ c' = filter (intact sha256_hex w) (entries _ c)
  /\ dir _ c' = dir _ c
  /\ (Validate _ sha256_hex go_range c w).1.1 = (save _ c' w).1
  /\ (Validate _ sha256_hex go_range c w).2 = (save _ c' w).2.
Proof using go_range_perm.
  intros Hread. unfold Validate.
  pose proof (go_range_perm _ (entries _ c)) as Hperm.
  assert (forall k e, (k, e) ∈ go_range Entry (entries _ c) <-> entries _ c !! k = Some e)
    as Hin.
  { intros k e. rewrite Hperm. apply elem_of_map_to_list. }
  destruct (validate_loop_ok w (go_range _ (entries _ c)) (entries _ c)) as [Hnone Hlook].
  { intros k e Hk. apply Hread. apply Hin in Hk. apply elem_of_dom. eauto. }
  destruct (validate_loop _ _ _ _ _) as [err m]. simpl in *. subst err.
  assert (m = filter (intact sha256_hex w) (entries _ c)) as ->.
  { apply map_eq. intros k. apply option_eq. intros e.
    rewrite map_lookup_filter_Some, Hlook.
    destruct (decide (Exists _ _)) as [Hex | Hno].
    - split; [done |]. intros [Hk Hi]. exfalso.
      apply Exists_exists in Hex as ([k' e'] & Hin' & Hk' & Hni). simpl in Hk'. subst k'.
      apply Hin in Hin'. rewrite Hk in Hin'. injection Hin' as <-. done.
    - split.
      + intros Hk. split; [done |].
        destruct (decide (intact sha256_hex w (k, e))) as [|Hni]; [done |].
        exfalso. apply Hno. apply Exists_exists. exists (k, e).
        split; [by apply Hin | done].
      + intros [? _]. done. }
  destruct (save _ _ w) as [err w'] eqn:Hsave. simpl. rewrite Hsave. done.
Qed.

(** When a file of the table exists and cannot be read, [Validate] returns
    an error without saving: the machine is as it was, and the table has
    lost at most the entries the loop deleted before it stopped. *)
Theorem Validate_stops_on_unreadable (c : t Dependency) (w : World Dependency) :
  (exists path, path ∈ dom (entries _ c) /\ files _ w !! path = Some Unreadable) ->
  is_Some (Validate _ sha256_hex go_range c w).1.1
  /\ (Validate _ sha256_hex go_range c w).2 = w
  /\ entries _ (Validate _ sha256_hex go_range c w).1.2 ⊆ entries _ c.
Proof using go_range_perm.
  intros (path & Hdom & Hfile). unfold Validate.
  pose proof (validate_loop_stops w (go_range _ (entries _ c)) (entries _ c)) as Hstop.
  pose proof (validate_loop_sub w (go_range _ (entries _ c)) (entries _ c)) as Hsub.
  destruct (validate_loop _ _ _ _ _) as [[err|] m]; simpl in *.
  - split; [eauto |]. done.
  - exfalso. destruct Hstop as [x Hx]; [| done].
    apply elem_of_dom in Hdom as [e He]. exists path, e. split; [| done].
    rewrite (go_range_perm _ (entries _ c)). by apply elem_of_map_to_list.
Qed.

(** After [Validate], every entry left in the table is a hit for a later
    [Get] of its path as long as the file is as it was and the entry is not
    older than seven days when [Get] looks at the clock, and a miss once it
    is older. *)
Theorem Validate_survivors_hit (c : t Dependency) (w : World Dependency) :
  all_readable c w ->
  let c1 := (Validate _ sha256_hex go_range c w).1.2 in
  forall path entry (later : World Dependency),
    entries _ c1 !! path = Some entry ->
    files _ later !! path = files _ w !! path ->
    ((clock _ later - UpdateTime _ entry <= staleness)%Z ->
     Get _ sha256_hex path c1 later = ((Deps _ entry, true), c1, later))
    /\ ((staleness < clock _ later - UpdateTime _ entry)%Z ->
        Get _ sha256_hex path c1 later = (miss _, c1, later)).
Proof using go_range_perm.
  intros Hread c1 path entry later Hentry Hsame.
  destruct (Validate_keeps_intact c w Hread) as (Hc1 & _ & _ & _).
  fold c1 in Hc1. pose proof Hentry as Hkept.
  rewrite Hc1 in Hkept. apply map_lookup_filter_Some in Hkept as [_ Hintact].
  unfold intact in Hintact. simpl in Hintact.
  assert (hashFile _ sha256_hex later path = Ok (Hash _ entry)) as Hhash.
  { rewrite <- Hintact. unfold hashFile. by rewrite Hsame. }
  unfold Get. rewrite Hhash, Hentry, String.eqb_refl. simpl. unfold Since. split.
  - intros Hfresh. apply Sub_le in Hfresh.
    destruct (Z.ltb_spec staleness (Sub (clock _ later) (UpdateTime _ entry)));
      [lia | done].
  - intros Hstale. apply Sub_gt in Hstale.
    destruct (Z.ltb_spec staleness (Sub (clock _ later) (UpdateTime _ entry)));
      [done | lia].
Qed.

(** After [Clear], [Get] is a miss for every path on every machine, and
    when the cache directory could be removed [Clear] returns no error,
    [cache.json] is gone and a cache created afterwards is empty. *)
Theorem Clear_forgets_everything (c : t Dependency) (w : World Dependency) :
  let c' := (Clear _ c w).1.2 in
  let w' := (Clear _ c w).2 in
  (forall path w2, Get _ sha256_hex path c' w2 = (miss _, c', w2))
  /\ (remove_err _ w = None ->
      (Clear _ c w).1.1 = None
      /\ cache_json _ w' = None
      /\ entries _ (NewCache _ (dir _ c) w') = ∅).
Proof using Type.
  intros c' w'. split.
  - intros path w2. unfold Get.
    destruct (hashFile _ _ w2 path); [| done].
    assert (entries _ c' !! path = None) as ->; [| done].
    unfold c', Clear. destruct (remove_err _ w) as [[e remains]|]; apply lookup_empty.
  - intros Hrm. unfold w', Clear, NewCache, load. rewrite Hrm. simpl.
    split; [done |]. split; [done |].
    destruct (mkdir_err _ w); [done |]. by destruct (read_err _ w).
Qed.

End facts.

Lemma sorted_range_perm (E : Type) (m : gmap string E) :
  sorted_range E m ≡ₚ map_to_list m.
Proof. reflexivity. Qed.

Lemma two_files_readable (now : Z) : all_readable two_entries (two_files now).
Proof.
  unfold all_readable. apply (bool_decide_unpack _). vm_compute. exact I.
Qed.

Lemma RemoveExpired_keeps_fresh_witness :
  let w := two_files (staleness + 5) in
  entries _ (RemoveExpired string sorted_range two_entries w).1.2
  = filter (fun kv => ~ expired (clock _ w) kv) (entries _ two_entries).
Proof.
  exact (proj1 (RemoveExpired_keeps_fresh string sorted_range sorted_range_perm
                  two_entries (two_files (staleness + 5)))).
Defined.

Lemma Validate_keeps_intact_witness :
  entries _ (Validate string id sorted_range two_entries (two_files 0)).1.2
  = filter (intact id (two_files 0)) (entries _ two_entries).
Proof.
  exact (proj1 (Validate_keeps_intact string id sorted_range sorted_range_perm
                  two_entries (two_files 0) (two_files_readable 0))).
Defined.

Lemma Validate_stops_on_unreadable_witness :
  (Validate string id sorted_range two_entries broken_machine).2 = broken_machine.
Proof.
  refine (proj1 (proj2 (Validate_stops_on_unreadable string id sorted_range
                          sorted_range_perm two_entries broken_machine _))).
  exists "Makefile". split; [| reflexivity].
  apply (bool_decide_unpack _). vm_compute. exact I.
Defined.

Lemma Validate_survivors_hit_witness :
  let c1 := (Validate string id sorted_range two_entries (two_files 20)).1.2 in
  Get string id "CMakeLists.txt" c1 (two_files (staleness + 10))
  = ((["boost"], true), c1, two_files (staleness + 10))
  /\ Get string id "CMakeLists.txt" c1 (two_files (staleness + 11))
     = (miss string, c1, two_files (staleness + 11)).
Proof.
  intros c1.
  assert (entries _ c1 !! "CMakeLists.txt"
          = Some (mkEntry string "find_package(Boost)" 10 ["boost"])) as Hentry
    by (vm_compute; reflexivity).
  split.
  - apply (Validate_survivors_hit string id sorted_range sorted_range_perm
             two_entries (two_files 20) (two_files_readable 20)
             "CMakeLists.txt" _ (two_files (staleness + 10)) Hentry eq_refl).
    simpl. lia.
  - apply (Validate_survivors_hit string id sorted_range sorted_range_perm
             two_entries (two_files 20) (two_files_readable 20)
             "CMakeLists.txt" _ (two_files (staleness + 11)) Hentry eq_refl).
    simpl. lia.
Defined.

Lemma Clear_forgets_everything_witness :
  let w' := (Clear string two_entries (two_files 0)).2 in
  entries _ (NewCache string "d" w') = ∅.
Proof.
  exact (proj2 (proj2 (proj2 (Clear_forgets_everything string id two_entries
                                 (two_files 0)) eq_refl))).
Defined.

End CacheFacts.

(** ** More about the scan engine *)

Module ScannerFacts.

Import GoStrings Scanner.

(** What the extractor of a task gives: its records, or the message [Scan]
    makes of its error. *)
Definition records (Extract : ExtractorKind -> string -> result (list Dependency))
  (task : Task) : list Dependency :=
  match Extract (task_kind task) (task_path task) with
  | Ok deps => deps
  | Err _ => []
  end.

Definition failure (Extract : ExtractorKind -> string -> result (list Dependency))
  (task : Task) : option string :=
  match Extract (task_kind task) (task_path task) with
  | Ok _ => None
  | Err e => Some (extract_error (task_path task) e)
  end.

(** The records a worker in flight has still to add. *)
Definition pending (Extract : ExtractorKind -> string -> result (list Dependency))
  (w : Worker) : list Dependency :=
  match w_pc w with
  | Start => records Extract (w_task w)
  | OkSet deps | OkAdd deps => deps
  | ErrRead _ | ErrWrite _ _ => []
  end.

(** The message a worker in flight has still to put on the error list. *)
Definition worker_msgs (Extract : ExtractorKind -> string -> result (list Dependency))
  (w : Worker) : list string :=
  match w_pc w with
  | Start => option_list (failure Extract (w_task w))
  | ErrRead msg | ErrWrite _ msg => [msg]
  | OkSet _ | OkAdd _ => []
  end.

(** What a worker leaves of a result when it runs alone to its end. *)
Definition finish (Extract : ExtractorKind -> string -> result (list Dependency))
  (w : Worker) (r : DependencyResult) : DependencyResult :=
  match w_pc w with
  | Start =>
      match Extract (task_kind (w_task w)) (task_path (w_task w)) with
      | Err e => AddError (extract_error (task_path (w_task w)) e) r
      | Ok deps => addDependencies deps r
      end
  | ErrRead msg => AddError msg r
  | ErrWrite old msg => store_errors (old ++ [msg]) r
  | OkSet deps | OkAdd deps => addDependencies deps r
  end.

(** The counters of a result agree with its list of records. *)
Definition counted (r : DependencyResult) : Prop :=
  TotalDeps r = length (Deps r)
  /\ (DirectDeps r + IndirectDeps r = TotalDeps r)%nat
  /\ DirectDeps r = length (filter (fun dep => Dependencies dep = []) (Deps r))
  /\ VulnerableDeps r = length (filter (fun dep => Vulnerabilities dep <> []) (Deps r)).

(** A project with a build file that parses, one that does not, and a
    hidden directory. *)
Definition tree_mixed : Tree :=
  Dir "proj" [Dir ".git" [File "Makefile"]; File "CMakeLists.txt";
              File "Makefile"; File "README.md"; File "meson.build"].

Definition zlib : Dependency :=
  mkDependency "zlib" "1.3" "library" "" "" "" "" [] [] "make" "" "" "".

Definition extract_mixed (kind : ExtractorKind) (path : string)
  : result (list Dependency) :=
  match kind with
  | MakeExtractor => Ok [zlib]
  | MesonExtractor => Ok []
  | _ => Err "syntax error"
  end.

Definition empty_cache : Cache.t Dependency := Cache.mkCache _ ∅ "d".
Definition empty_machine : Cache.World Dependency :=
  Cache.mkWorld _ ∅ None None None None None
                (fun _ => Ok "{}") (fun _ table => (None, table)) 0.

(** Three workers started one after the other and run in turn. *)
Definition interleaved : list Choice :=
  [Walk; Walk; Step 1; Step 0; Walk; Step 2; Step 1; Step 0; Step 0; Step 0].

(** One worker at a time. *)
Definition in_turn : list Choice :=
  [Walk; Step 0; Step 0; Step 0; Walk; Step 0; Step 0; Walk; Step 0; Step 0].

(** *** The counters *)

Lemma addDependencies_app (deps : list Dependency) (r : DependencyResult) :
  Deps (addDependencies deps r) = Deps r ++ deps
  /\ Errors (addDependencies deps r) = Errors r.
Proof.
  revert r. induction deps as [|dep deps IH]; intros r.
  - simpl. by rewrite app_nil_r.
  - unfold addDependencies. simpl. fold (addDependencies deps (AddDependency dep r)).
    destruct (IH (AddDependency dep r)) as [-> ->]. simpl.
    by rewrite <- app_assoc.
Qed.

Lemma AddDependency_counted (dep : Dependency) (r : DependencyResult) :
  counted r -> counted (AddDependency dep r).
Proof.
  intros (Htotal & Hsum & Hdirect & Hvuln). unfold counted, AddDependency. simpl.
  rewrite !filter_app, !length_app. simpl.
  rewrite !filter_cons, !filter_nil.
  destruct (Dependencies dep) as [|child children] eqn:Hchildren;
    destruct (Vulnerabilities dep) as [|v vs] eqn:Hvs; simpl;
    repeat (destruct (decide _) as [?|?]; try done); simpl; lia.
Qed.

(** [addDependencies] appends the records in order, leaves the errors
    alone and keeps the counters in step with the list: the total is its
    length, every record is counted as direct (no dependencies of its own)
    or indirect, and the vulnerable ones are counted. *)
Theorem addDependencies_keeps_count (deps : list Dependency) (r : DependencyResult) :
  counted r ->
  counted (addDependencies deps r)
  /\ Deps (addDependencies deps r) = Deps r ++ deps
  /\ Errors (addDependencies deps r) = Errors r.
Proof.
  intros Hr. split; [| apply addDependencies_app].
  revert r Hr. induction deps as [|dep deps IH]; intros r Hr; [done |].
  apply (IH (AddDependency dep r)). by apply AddDependency_counted.
Qed.

Lemma addDependencies_keeps_count_witness :
  counted (addDependencies [zlib; zlib] NewDependencyResult).
Proof.
  apply (addDependencies_keeps_count [zlib; zlib] NewDependencyResult).
  repeat split.
Defined.

(** *** Hidden directories *)

(** A directory whose name begins with a dot is not entered, whatever is
    below it: the walk gives no task and no error.  So a scan of a target
    directory with such a name - the current directory written [.], for
    one - looks at nothing and succeeds with an empty result. *)
Theorem Scan_skips_hidden_root (EnableCache : bool) (MaxWorkers : nat)
  (windows : bool) (stat_hidden : string -> bool)
  (Extract : ExtractorKind -> string -> result (list Dependency))
  (sha256_hex : string -> string) (root name : string) (entries : list Tree)
  (c : Cache.t Dependency) (w : Cache.World Dependency) :
  HasPrefix name "." = true ->
  walk windows stat_hidden root (Dir name entries) = ([], None)
  /\ forall schedule result,
      Scan EnableCache MaxWorkers windows stat_hidden Extract sha256_hex
           root (Dir name entries) c w schedule = Some result ->
      schedule = []
      /\ result = (None, mkConfig [] [] NewDependencyResult c w).
Proof.
  intros Hdot.
  assert (walk windows stat_hidden root (Dir name entries) = ([], None)) as Hwalk.
  { rewrite walk_Dir. unfold judge, IsHidden. by rewrite Hdot. }
  split; [done |]. intros schedule result. unfold Scan. rewrite Hwalk.
  destruct schedule as [|[|i] rest]; simpl.
  - intros [= <-]. done.
  - unfold walk_step. simpl. done.
  - done.
Qed.

Lemma Scan_skips_hidden_root_witness :
  walk false (fun _ => false) "." (Dir "." [File "Makefile"; NoStat "x" "denied"])
  = ([], None).
Proof.
  exact (proj1 (Scan_skips_hidden_root false 1 false (fun _ => false) extract_mixed id
                  "." "." [File "Makefile"; NoStat "x" "denied"]
                  empty_cache empty_machine eq_refl)).
Defined.

(** *** Runs of the workers *)

Lemma split_at {A : Type} (l : list A) (i : nat) (x : A) :
  l !! i = Some x ->
  exists before after,
    l = before ++ x :: after
    /\ delete i l = before ++ after
    /\ forall y, <[i := y]> l = before ++ y :: after.
Proof.
  intros Hi. exists (take i l), (drop (S i) l). split; [| split].
  - symmetry. by apply take_drop_middle.
  - apply delete_take_drop.
  - intros y. apply insert_take_drop. by eapply lookup_lt_Some.
Qed.

Section interleavings.
Variable MaxWorkers : nat.
Variable Extract : ExtractorKind -> string -> result (list Dependency).
Variable sha256_hex : string -> string.

(** The tasks of the walk. *)
Variable tasks : list Task.

Notation step_ := (step false MaxWorkers Extract sha256_hex).
Notation run_ := (run false MaxWorkers Extract sha256_hex).

(** The records in the result, in the hands of the workers and still to
    be extracted. *)
Definition all_records (cfg : Config) : list Dependency :=
  Deps (result_ cfg) ++ concat (pending Extract <$> active cfg)
    ++ concat (records Extract <$> todo cfg).

(** The messages the workers in flight and the tasks still to be reached
    have yet to put on the error list. *)
Definition unreported (cfg : Config) : list string :=
  concat (worker_msgs Extract <$> active cfg) ++ omap (failure Extract) (todo cfg).

(** Every failure is on the error list or on its way to it, and a worker
    about to write the list has read it empty. *)
Definition accounted (cfg : Config) : Prop :=
  Errors (result_ cfg) ++ unreported cfg ≡ₚ omap (failure Extract) tasks
  /\ Forall (fun w => forall old msg, w_pc w = ErrWrite old msg -> old = [])
            (active cfg).

Lemma concat_pending_middle (before after : list Worker) (w : Worker) :
  concat (pending Extract <$> before ++ w :: after)
  = concat (pending Extract <$> before) ++ pending Extract w
      ++ concat (pending Extract <$> after).
Proof using Type. by rewrite fmap_app, concat_app. Qed.

Lemma step_records (cfg cfg' : Config) (c : Choice) :
  step_ cfg c = Some cfg' -> all_records cfg' ≡ₚ all_records cfg.
Proof using Type.
  destruct c as [|i]; simpl.
  - unfold walk_step. destruct (todo cfg) as [|task rest] eqn:Htodo; [done |].
    destruct (_ <? _)%nat; [| done]. intros [= <-].
    unfold all_records. simpl. rewrite Htodo. simpl.
    rewrite fmap_app, concat_app. simpl. rewrite app_nil_r.
    unfold pending at 2. simpl. by rewrite <- !app_assoc.
  - destruct (active cfg !! i) as [w|] eqn:Hw; [| done]. simpl.
    destruct (split_at _ _ _ Hw) as (before & after & Hactive & Hdelete & Hinsert).
    unfold worker_step.
    destruct w as [task pc]. simpl.
    destruct pc as [|msg|old msg|deps|deps]; simpl.
    + destruct (Extract (task_kind task) (task_path task)) as [deps|e] eqn:Hx;
        intros [= <-]; unfold all_records; simpl;
        rewrite Hinsert, Hactive, !concat_pending_middle;
        unfold pending, records; simpl; by rewrite Hx.
    + intros [= <-]. unfold all_records. simpl.
      by rewrite Hinsert, Hactive, !concat_pending_middle.
    + intros [= <-]. unfold all_records. simpl.
      rewrite Hdelete, Hactive, fmap_app, concat_app, concat_pending_middle.
      done.
    + destruct (Cache.Set_ _ _ _ _ _ _) as [[e c'] w']. intros [= <-].
      unfold all_records. simpl.
      by rewrite Hinsert, Hactive, !concat_pending_middle.
    + intros [= <-]. unfold all_records. simpl.
      destruct (addDependencies_app deps (result_ cfg)) as [-> _].
      rewrite Hdelete, Hactive, fmap_app, concat_app, concat_pending_middle.
      change (pending Extract {| w_task := task; w_pc := OkAdd deps |}) with deps.
      rewrite <- !app_assoc. apply Permutation_app_head.
      apply Permutation_app_swap_app.
Qed.

Lemma concat_msgs_middle (before after : list Worker) (w : Worker) :
  concat (worker_msgs Extract <$> before ++ w :: after)
  = concat (worker_msgs Extract <$> before) ++ worker_msgs Extract w
      ++ concat (worker_msgs Extract <$> after).
Proof using Type. by rewrite fmap_app, concat_app. Qed.

Lemma lone_message (errors before after rest all : list string) (msg : string) :
  errors ++ (before ++ [msg] ++ after) ++ rest ≡ₚ all ->
  (length all <= 1)%nat ->
  errors = [] /\ before = [] /\ after = [] /\ rest = [] /\ all = [msg].
Proof using Type.
  intros Hperm Hlen. pose proof (Permutation_length Hperm) as Hsame.
  rewrite !length_app in Hsame. simpl in Hsame.
  destruct errors; [| simpl in Hsame; lia].
  destruct before; [| simpl in Hsame; lia].
  destruct after; [| simpl in Hsame; lia].
  destruct rest; [| simpl in Hsame; lia].
  repeat split. simpl in Hperm. symmetry in Hperm.
  by apply Permutation_singleton_r in Hperm.
Qed.

Hypothesis one_failure : (length (omap (failure Extract) tasks) <= 1)%nat.

Lemma step_accounted (cfg cfg' : Config) (c : Choice) :
  step_ cfg c = Some cfg' -> accounted cfg -> accounted cfg'.
Proof using one_failure.
  intros Hstep [Hall Hold]. destruct c as [|i]; simpl in Hstep.
  - unfold walk_step in Hstep.
    destruct (todo cfg) as [|task rest] eqn:Ht; [done |].
    destruct (_ <? _)%nat; [| done]. injection Hstep as <-.
    unfold accounted, unreported in *. simpl. rewrite Ht in Hall. simpl in Hall.
    split.
    + rewrite <- Hall, fmap_app, concat_app. simpl. rewrite app_nil_r.
      unfold worker_msgs at 2. simpl.
      destruct (failure Extract task) as [msg|]; simpl.
      * by rewrite <- !app_assoc.
      * by rewrite app_nil_r.
    + apply Forall_app. split; [done |]. by repeat constructor.
  - destruct (active cfg !! i) as [w|] eqn:Hw; [| done]. simpl in Hstep.
    destruct (split_at _ _ _ Hw) as (before & after & Hsplit & Hdelete & Hinsert).
    unfold accounted, unreported in *. rewrite Hsplit in Hall, Hold.
    rewrite concat_msgs_middle in Hall.
    apply Forall_app in Hold as [Hbefore Hrest].
    apply Forall_cons in Hrest as [Hmine Hafter].
    unfold worker_step in Hstep. destruct w as [task pc]. simpl in *.
    destruct pc as [|msg|old msg|deps|deps]; simpl in Hstep.
    + destruct (Extract (task_kind task) (task_path task)) as [deps|e] eqn:Hx;
        injection Hstep as <-; simpl; rewrite Hinsert, concat_msgs_middle;
        (split; [| apply Forall_app; split; [done |];
                   apply Forall_cons; split; [| done]; simpl; by intros]);
        rewrite <- Hall; unfold worker_msgs, failure; simpl; by rewrite Hx.
    + injection Hstep as <-. simpl. rewrite Hinsert, concat_msgs_middle.
      split; [done |]. apply Forall_app. split; [done |].
      apply Forall_cons. split; [| done]. simpl. intros old' msg' [= <- _].
      unfold worker_msgs at 2 in Hall. simpl in Hall.
      by destruct (lone_message _ _ _ _ _ _ Hall one_failure) as (-> & _).
    + injection Hstep as <-. simpl. rewrite Hdelete, fmap_app, concat_app.
      rewrite (Hmine old msg eq_refl).
      unfold worker_msgs at 2 in Hall. simpl in Hall.
      destruct (lone_message _ _ _ _ _ _ Hall one_failure)
        as (_ & -> & -> & -> & ->).
      split; [done |]. apply Forall_app. done.
    + destruct (Cache.Set_ _ _ _ _ _ _) as [[e c'] w']. injection Hstep as <-.
      simpl. rewrite Hinsert, concat_msgs_middle.
      split; [done |]. apply Forall_app. split; [done |].
      apply Forall_cons. split; [| done]. simpl. by intros.
    + injection Hstep as <-. simpl. rewrite Hdelete, fmap_app, concat_app.
      destruct (addDependencies_app deps (result_ cfg)) as [_ ->].
      split; [| apply Forall_app; done].
      rewrite <- Hall. unfold worker_msgs at 3. simpl. done.
Qed.

Lemma run_invariants (schedule : list Choice) (cfg cfg' : Config) :
  run_ schedule cfg = Some cfg' ->
  all_records cfg' ≡ₚ all_records cfg
  /\ (accounted cfg -> accounted cfg').
Proof using one_failure.
  revert cfg. induction schedule as [|c rest IH]; intros cfg; simpl.
  - intros [= <-]. done.
  - destruct (step_ cfg c) as [cfg1|] eqn:Hstep; [| done]. simpl. intros Hrun.
    destruct (IH _ Hrun) as (Hrec & Hacc).
    split.
    + rewrite Hrec. by eapply step_records.
    + intros H. apply Hacc. by eapply step_accounted.
Qed.

End interleavings.

(** Without the cache and when the extractor of at most one file fails,
    so that no two workers ever write the error list: in every
    interleaving of the walk and the workers that [Scan] completes without
    error, the records of the result are the records of the files whose
    extractor succeeded, in some order, and the error list is the message
    of the file whose extractor failed, or empty when none failed. *)
Theorem Scan_at_most_one_failure (MaxWorkers : nat) (windows : bool)
  (stat_hidden : string -> bool)
  (Extract : ExtractorKind -> string -> result (list Dependency))
  (sha256_hex : string -> string) (root : string) (tree : Tree)
  (c : Cache.t Dependency) (w : Cache.World Dependency)
  (schedule : list Choice) (cfg : Config) :
  Scan false MaxWorkers windows stat_hidden Extract sha256_hex root tree c w schedule
    = Some (None, cfg) ->
  let tasks := (walk windows stat_hidden root tree).1 in
  (length (omap (failure Extract) tasks) <= 1)%nat ->
  Deps (result_ cfg) ≡ₚ concat (records Extract <$> tasks)
  /\ Errors (result_ cfg) = omap (failure Extract) tasks.
Proof.
  unfold Scan. destruct (walk windows stat_hidden root tree) as [tasks failed].
  simpl. destruct (run _ _ _ _ _ _) as [cfg'|] eqn:Hrun; [| done]. simpl.
  destruct failed as [e|]; [by destruct (todo cfg') |].
  destruct (finished cfg') eqn:Hfin; [| done]. intros [= <-] Hone.
  unfold finished in Hfin.
  destruct (todo cfg') as [|] eqn:Htodo; [| done].
  destruct (active cfg') as [|] eqn:Hactive; [| done].
  destruct (run_invariants MaxWorkers Extract sha256_hex tasks Hone _ _ _ Hrun)
    as (Hrec & Hacc).
  split.
  - unfold all_records in Hrec. simpl in Hrec. rewrite Htodo, Hactive in Hrec.
    simpl in Hrec. by rewrite !app_nil_r in Hrec.
  - destruct Hacc as [Hall _].
    { split; [| constructor]. unfold unreported. simpl. done. }
    unfold unreported in Hall. rewrite Htodo, Hactive in Hall. simpl in Hall.
    rewrite app_nil_r in Hall.
    destruct (omap (failure Extract) tasks) as [|msg [|msg' msgs]];
      [by apply Permutation_nil_r in Hall
      | by apply Permutation_singleton_r in Hall
      | simpl in Hone; lia].
Qed.

Lemma Scan_at_most_one_failure_witness :
  exists cfg,
    Scan false 3 false (fun _ => false) extract_mixed id "proj" tree_mixed
         empty_cache empty_machine interleaved = Some (None, cfg)
    /\ Deps (result_ cfg) ≡ₚ [zlib]
    /\ Errors (result_ cfg)
       = ["Failed to extract dependencies from proj/CMakeLists.txt: syntax error"].
Proof.
  eassert (Scan false 3 false (fun _ => false) extract_mixed id "proj" tree_mixed
             empty_cache empty_machine interleaved = Some (None, _)) as Hscan
    by (vm_compute; reflexivity).
  eexists. split; [exact Hscan |].
  apply (Scan_at_most_one_failure _ _ _ _ _ _ _ _ _ _ _ Hscan).
  vm_compute. lia.
Defined.

(** *** One worker at a time *)

Section one_worker.
Variable Extract : ExtractorKind -> string -> result (list Dependency).
Variable sha256_hex : string -> string.

Notation step_ := (step false 1 Extract sha256_hex).
Notation run_ := (run false 1 Extract sha256_hex).

(** The result when the worker in flight and then the tasks still to be
    reached run one after the other to their end. *)
Definition outcome (cfg : Config) : DependencyResult :=
  foldl (fun r task => finish Extract (mkWorker task Start) r)
        (foldl (fun r w => finish Extract w r) (result_ cfg) (active cfg))
        (todo cfg).

Lemma step_outcome (cfg cfg' : Config) (c : Choice) :
  step_ cfg c = Some cfg' ->
  (length (active cfg) <= 1)%nat ->
  (length (active cfg') <= 1)%nat /\ outcome cfg' = outcome cfg.
Proof using Type.
  intros Hstep Hone. destruct c as [|i]; simpl in Hstep.
  - unfold walk_step in Hstep.
    destruct (todo cfg) as [|task rest] eqn:Ht; [done |].
    destruct (Nat.ltb_spec (length (active cfg)) 1) as [Hfree|]; [| done].
    injection Hstep as <-.
    destruct (active cfg) as [|w ws] eqn:Ha; [| simpl in Hfree; lia].
    split; [simpl; lia |]. unfold outcome. simpl. by rewrite Ht, Ha.
  - destruct (active cfg !! i) as [w|] eqn:Hw; [| done]. simpl in Hstep.
    destruct (active cfg) as [|w0 [|w1 ws]] eqn:Ha; [done | | simpl in Hone; lia].
    destruct i as [|i]; [| done]. injection Hw as ->.
    unfold worker_step in Hstep. destruct w as [task pc]. simpl in Hstep.
    destruct pc as [|msg|old msg|deps|deps]; simpl in Hstep.
    + destruct (Extract (task_kind task) (task_path task)) as [deps|e] eqn:Hx;
        injection Hstep as <-; (split; [simpl; rewrite Ha; simpl; lia |]);
        unfold outcome; simpl; rewrite Ha; simpl; unfold finish; simpl;
        by rewrite Hx.
    + injection Hstep as <-. split; [simpl; rewrite Ha; simpl; lia |].
      unfold outcome. simpl. rewrite Ha. simpl. done.
    + injection Hstep as <-. split; [simpl; rewrite Ha; simpl; lia |].
      unfold outcome. simpl. rewrite Ha. simpl. done.
    + destruct (Cache.Set_ _ _ _ _ _ _) as [[e c'] w']. injection Hstep as <-.
      split; [simpl; rewrite Ha; simpl; lia |].
      unfold outcome. simpl. rewrite Ha. simpl. done.
    + injection Hstep as <-. split; [simpl; rewrite Ha; simpl; lia |].
      unfold outcome. simpl. rewrite Ha. simpl. done.
Qed.

Lemma run_outcome (schedule : list Choice) (cfg cfg' : Config) :
  run_ schedule cfg = Some cfg' ->
  (length (active cfg) <= 1)%nat ->
  outcome cfg' = outcome cfg.
Proof using Type.
  revert cfg. induction schedule as [|c rest IH]; intros cfg; simpl.
  - intros [= <-]. done.
  - destruct (step_ cfg c) as [cfg1|] eqn:Hstep; [| done]. simpl.
    intros Hrun Hone. destruct (step_outcome _ _ _ Hstep Hone) as [Hone1 <-].
    by apply IH.
Qed.

Lemma in_turn_result (tasks : list Task) (r : DependencyResult) :
  let r' := foldl (fun r task => finish Extract (mkWorker task Start) r) r tasks in
  Deps r' = Deps r ++ concat (records Extract <$> tasks)
  /\ Errors r' = Errors r ++ omap (failure Extract) tasks.
Proof using Type.
  revert r. induction tasks as [|task tasks IH]; intros r; simpl.
  - by rewrite !app_nil_r.
  - destruct (IH (finish Extract (mkWorker task Start) r)) as [-> ->].
    unfold finish, records, failure. simpl.
    destruct (Extract (task_kind task) (task_path task)) as [deps|e]; simpl.
    + destruct (addDependencies_app deps r) as [-> ->].
      by rewrite <- app_assoc.
    + by rewrite <- app_assoc.
Qed.

End one_worker.

(** With one worker and no cache, whatever the interleaving of the walk
    and the worker: when [Scan] completes without error, the records of the
    result are the records of the files whose extractor succeeded, in the
    order of the walk, and the error list holds the message of every file
    whose extractor failed, in the order of the walk. *)
Theorem Scan_one_worker (windows : bool) (stat_hidden : string -> bool)
  (Extract : ExtractorKind -> string -> result (list Dependency))
  (sha256_hex : string -> string) (root : string) (tree : Tree)
  (c : Cache.t Dependency) (w : Cache.World Dependency)
  (schedule : list Choice) (cfg : Config) :
  Scan false 1 windows stat_hidden Extract sha256_hex root tree c w schedule
    = Some (None, cfg) ->
  let tasks := (walk windows stat_hidden root tree).1 in
  Deps (result_ cfg) = concat (records Extract <$> tasks)
  /\ Errors (result_ cfg) = omap (failure Extract) tasks.
Proof.
  unfold Scan. destruct (walk windows stat_hidden root tree) as [tasks failed].
  simpl. destruct (run _ _ _ _ _ _) as [cfg'|] eqn:Hrun; [| done]. simpl.
  destruct failed as [e|]; [by destruct (todo cfg') |].
  destruct (finished cfg') eqn:Hfin; [| done]. intros [= <-].
  unfold finished in Hfin.
  destruct (todo cfg') as [|] eqn:Htodo; [| done].
  destruct (active cfg') as [|] eqn:Hactive; [| done].
  apply run_outcome in Hrun; [| simpl; lia].
  unfold outcome in Hrun. rewrite Htodo, Hactive in Hrun. simpl in Hrun.
  rewrite Hrun. apply (in_turn_result Extract tasks NewDependencyResult).
Qed.

Lemma Scan_one_worker_witness :
  exists cfg,
    Scan false 1 false (fun _ => false) extract_mixed id "proj" tree_mixed
         empty_cache empty_machine in_turn = Some (None, cfg)
    /\ Deps (result_ cfg) = [zlib]
    /\ Errors (result_ cfg)
       = ["Failed to extract dependencies from proj/CMakeLists.txt: syntax error"].
Proof.
  eassert (Scan false 1 false (fun _ => false) extract_mixed id "proj" tree_mixed
             empty_cache empty_machine in_turn = Some (None, _)) as Hscan
    by (vm_compute; reflexivity).
  eexists. split; [exact Hscan |].
  exact (Scan_one_worker _ _ _ _ _ _ _ _ _ _ Hscan).
Defined.


End ScannerFacts.

(** ** More about the resolver *)

Module ResolverFacts.

Import GoStrings Analyzer Resolver.

(** Candidates out of order, for the examples. *)
Definition candidates_shuffled : list Semver.Version :=
  [Semver.mkVersion 2 0 0; Semver.mkVersion 1 1 0; Semver.mkVersion 2 1 0;
   Semver.mkVersion 1 0 0; Semver.mkVersion 1 2 0].


Section select.
Variable SemVer : Type.
Variable Compare : SemVer -> SemVer -> comparison.
Variable Constraints : Type.
Variable Check : Constraints -> SemVer -> bool.

Notation compatible_ constraints versions :=
  (List.filter (fun version => checkConstraints Check version constraints) versions).

Lemma check_satisfies (v : SemVer) (constraints : list Constraints) :
  checkConstraints Check v constraints = true <-> satisfies Check constraints v.
Proof using Type.
  unfold checkConstraints, satisfies. rewrite forallb_forall.
  split; intros H c Hc; apply H; by apply list_elem_of_In.
Qed.

Lemma compatible_elem (v : SemVer) (constraints : list Constraints)
  (versions : list SemVer) :
  v ∈ compatible_ constraints versions
  <-> v ∈ versions /\ satisfies Check constraints v.
Proof using Type.
  rewrite !list_elem_of_In, filter_In, check_satisfies. done.
Qed.

Lemma minimal_fold (rest : list SemVer) (first : SemVer) :
  let m := fold_left (fun minimal version =>
                        if LessThan Compare version minimal then version else minimal)
                     rest first in
  m ∈ first :: rest.
Proof using Type.
  revert first. induction rest as [|v rest IH]; intros first; simpl.
  - apply list_elem_of_here.
  - destruct (LessThan Compare v first).
    + apply list_elem_of_further. apply IH.
    + specialize (IH first). apply elem_of_cons in IH as [-> | IH].
      * apply list_elem_of_here.
      * by do 2 apply list_elem_of_further.
Qed.

(** What [selectVersion] answers, whatever the order of the candidates and
    whatever the value of the strategy: an error for an empty candidate
    list; another error when no candidate satisfies every constraint; and
    otherwise one of the candidates that satisfy every constraint. *)
Theorem selectVersion_outcome (versions : list SemVer)
  (constraints : list Constraints) (strategy : ResolutionStrategy) :
  (versions = [] ->
   selectVersion Compare Check versions constraints strategy
   = Err "no available versions")
  /\ (versions <> [] ->
      (forall v, v ∈ versions -> ~ satisfies Check constraints v) ->
      selectVersion Compare Check versions constraints strategy
      = Err "no compatible versions found")
  /\ ((exists v, v ∈ versions /\ satisfies Check constraints v) ->
      exists chosen,
        selectVersion Compare Check versions constraints strategy = Ok chosen
        /\ chosen ∈ versions /\ satisfies Check constraints chosen).
Proof using Type.
  split; [by intros -> |]. split.
  - intros Hne Hnone. unfold selectVersion.
    destruct versions as [|v0 versions']; [done |].
    destruct (compatible_ constraints (v0 :: versions')) as [|x kept] eqn:Hkept; [done |].
    exfalso. assert (x ∈ compatible_ constraints (v0 :: versions')) as Hx
      by (rewrite Hkept; apply list_elem_of_here).
    apply compatible_elem in Hx as [Hin Hsat]. by apply (Hnone x).
  - intros (v & Hv & Hsat). unfold selectVersion.
    destruct versions as [|v0 versions']; [by apply elem_of_nil in Hv |].
    destruct (compatible_ constraints (v0 :: versions')) as [|x kept] eqn:Hkept.
    { assert (v ∈ compatible_ constraints (v0 :: versions')) as Hin
        by (by apply compatible_elem).
      rewrite Hkept in Hin. by apply elem_of_nil in Hin. }
    assert (forall chosen, chosen ∈ x :: kept ->
              chosen ∈ v0 :: versions' /\ satisfies Check constraints chosen) as Hok.
    { intros chosen Hc. rewrite <- Hkept in Hc. by apply compatible_elem in Hc. }
    assert (default x (last (x :: kept)) ∈ x :: kept) as Hlast.
    { destruct (last (x :: kept)) as [y|] eqn:Hy; simpl.
      - by eapply last_Some_elem_of.
      - apply list_elem_of_here. }
    assert (default x (findMinimalVersion Compare (x :: kept)) ∈ x :: kept) as Hmin.
    { simpl. apply minimal_fold. }
    destruct (strategy =? StrategyNewest)%Z; [eexists; split; [done | by apply Hok] |].
    destruct (strategy =? StrategyOldest)%Z;
      [eexists; split; [done | apply Hok, list_elem_of_here] |].
    destruct (strategy =? StrategyMinimal)%Z; eexists; (split; [done | by apply Hok]).
Qed.

Hypothesis Compare_antisym : forall v o, Compare o v = CompOpp (Compare v o).
Hypothesis Compare_trans :
  forall a b c, Compare a b <> Gt -> Compare b c <> Gt -> Compare a c <> Gt.

Lemma minimal_fold_least (rest : list SemVer) (first : SemVer) :
  let m := fold_left (fun minimal version =>
                        if LessThan Compare version minimal then version else minimal)
                     rest first in
  forall v, v ∈ first :: rest -> LessThan Compare v m = false.
Proof using Compare_antisym Compare_trans.
  assert (forall a b, LessThan Compare a b = false <-> not_above Compare b a) as Hle
    by done.
  revert first. induction rest as [|x rest IH]; intros first; simpl.
  - intros v ->%list_elem_of_singleton.
    apply Hle, (not_above_refl SemVer Compare Compare_antisym).
  - intros v Hv. destruct (LessThan Compare x first) eqn:Hx.
    + apply elem_of_cons in Hv as [-> | Hv]; [| by apply IH].
      apply Hle. eapply (not_above_trans SemVer Compare Compare_antisym Compare_trans).
      * apply Hle, (IH x x), list_elem_of_here.
      * destruct (not_above_total SemVer Compare Compare_antisym x first) as [H | H];
          [done |]. unfold not_above in H. congruence.
    + apply elem_of_cons in Hv as [-> | Hv]; [apply IH, list_elem_of_here |].
      apply elem_of_cons in Hv as [-> | Hv]; [| by apply IH, list_elem_of_further].
      apply Hle. eapply (not_above_trans SemVer Compare Compare_antisym Compare_trans).
      * apply Hle, (IH first first), list_elem_of_here.
      * done.
Qed.

(** Under strategy minimal the version selected is a least one among the
    candidates that satisfy every constraint, whatever the order of the
    candidate list. *)
Theorem selectVersion_minimal_is_least (versions : list SemVer)
  (constraints : list Constraints) (chosen : SemVer) :
  selectVersion Compare Check versions constraints StrategyMinimal = Ok chosen ->
  chosen ∈ versions
  /\ satisfies Check constraints chosen
  /\ forall v, v ∈ versions -> satisfies Check constraints v ->
               LessThan Compare v chosen = false.
Proof using Compare_antisym Compare_trans.
  unfold selectVersion. destruct versions as [|v0 versions']; [done |].
  destruct (compatible_ constraints (v0 :: versions')) as [|x kept] eqn:Hkept; [done |].
  change (StrategyMinimal =? StrategyNewest)%Z with false.
  change (StrategyMinimal =? StrategyOldest)%Z with false.
  change (StrategyMinimal =? StrategyMinimal)%Z with true.
  cbn [default findMinimalVersion]. intros [= <-].
  pose proof (minimal_fold kept x) as Hin. pose proof (minimal_fold_least kept x) as Hleast.
  simpl in Hin, Hleast. rewrite <- Hkept in Hin. apply compatible_elem in Hin as [Hin Hsat].
  split; [done |]. split; [done |].
  intros v Hv Hvs. apply Hleast. rewrite <- Hkept. by apply compatible_elem.
Qed.

End select.

Lemma selectVersion_outcome_witness :
  exists chosen,
    selectVersion Semver.Compare Semver.Check candidates_shuffled
                  [at_least_1_1; below_2_1] 7%Z = Ok chosen
    /\ chosen ∈ candidates_shuffled
    /\ satisfies Semver.Check [at_least_1_1; below_2_1] chosen.
Proof.
  apply (selectVersion_outcome Semver.Version Semver.Compare Semver.Constraints
           Semver.Check candidates_shuffled [at_least_1_1; below_2_1] 7%Z).
  exists (Semver.mkVersion 1 1 0). split.
  - apply list_elem_of_further, list_elem_of_here.
  - intros c Hc. apply elem_of_cons in Hc as [-> | Hc];
      [reflexivity | apply list_elem_of_singleton in Hc as ->; reflexivity].
Defined.

Lemma selectVersion_minimal_is_least_witness :
  LessThan Semver.Compare (Semver.mkVersion 1 2 0) (Semver.mkVersion 1 1 0) = false.
Proof.
  refine (proj2 (proj2 (selectVersion_minimal_is_least Semver.Version Semver.Compare
                          Semver.Constraints Semver.Check Semver.Compare_antisym
                          Semver.Compare_le_trans candidates_shuffled
                          [at_least_1_1; below_2_1] (Semver.mkVersion 1 1 0) _))
                (Semver.mkVersion 1 2 0) _ _).
  - vm_compute. reflexivity.
  - do 4 apply list_elem_of_further. apply list_elem_of_here.
  - intros c Hc. apply elem_of_cons in Hc as [-> | Hc];
      [reflexivity | apply list_elem_of_singleton in Hc as ->; reflexivity].
Defined.

Section resolve.
Variable SemVer : Type.
Variable NewVersion : string -> option SemVer.
Variable Compare : SemVer -> SemVer -> comparison.
Variable String_ : SemVer -> string.
Variable Constraints : Type.
Variable NewConstraint : string -> result Constraints.
Variable Check : Constraints -> SemVer -> bool.
Variable FindCycles : Graph -> list (list string).

Notation resolve_all_ := (resolve_all NewVersion Compare String_ NewConstraint Check).



End resolve.


End ResolverFacts.

(** ** More about the Ninja extractor *)

Module NinjaFacts.

Import GoStrings GoRegexp Ninja.

(** The four kinds of record the extractor emits. *)
Definition ninja_types : list string :=
  ["ninja_include"; "ninja_subninja"; "ninja_input"; "ninja_implicit"].

(** A record of [filePath] made at one of the first [n] lines. *)
Definition well_placed (filePath : string) (n : nat) (dep : Dependency) : Prop :=
  FilePath dep = filePath
  /\ (1 <= Line dep <= n)%nat
  /\ Type_ dep ∈ ninja_types.

(** A build file with a comment, a variable, an include and a build
    statement with an implicit input. *)
Definition lines_build : list string :=
  ["# generated"; "cflags = -O2"; "include rules.ninja"; "";
   "build app: link main.o util.o | libz.a"].

Lemma has_prefix_dollar (rest s : string) :
  has_prefix "$" s = false -> has_prefix (String "$" rest) s = false.
Proof.
  destruct s as [|c s]; [done |]. cbn [has_prefix].
  rewrite andb_true_r. by intros ->.
Qed.

Lemma replace_absent (old new s : string) :
  Contains s old = false -> ReplaceAll s old new = s.
Proof.
  unfold ReplaceAll. induction s as [|c s IH]; [reflexivity |].
  rewrite Analyzer.Contains_cons. intros [Hhere Hlater]%orb_false_elim.
  cbn [replace_go]. rewrite Hhere. by rewrite IH.
Qed.

Lemma Contains_dollar (rest s : string) :
  Contains s "$" = false -> Contains s (String "$" rest) = false.
Proof.
  induction s as [|c s IH]; [reflexivity |].
  rewrite !Analyzer.Contains_cons. intros [Hhere Hlater]%orb_false_elim.
  by rewrite (has_prefix_dollar rest _ Hhere), IH.
Qed.

Section facts.
Variable go_range : nat -> gmap string string -> list (string * string).

(** A value without a dollar sign is left as it is by [expandVariables],
    whatever the table holds and in whatever order it is visited. *)
Theorem expandVariables_without_reference (now : nat) (value : string)
  (table : gmap string string) :
  Contains value "$" = false ->
  expandVariables go_range now value table = value.
Proof using Type.
  intros Hplain. unfold expandVariables.
  induction (go_range now table) as [|[name val] entries IH]; [reflexivity |].
  assert (expand_one value (name, val) = value) as Hstep.
  { unfold expand_one.
    rewrite (replace_absent ("$" ++ name) val value) by by apply Contains_dollar.
    apply replace_absent. by apply (Contains_dollar (String "{" (name ++ "}"))). }
  cbn [foldl]. rewrite Hstep. exact IH.
Qed.

Lemma add_records_placed (type_ filePath parent rule : string)
  (names : list string) (st : State) :
  type_ ∈ ninja_types ->
  (1 <= lineNum st)%nat ->
  Forall (well_placed filePath (lineNum st)) (dependencies st) ->
  let st' := add_records go_range type_ filePath parent rule names st in
  lineNum st' = lineNum st
  /\ Forall (well_placed filePath (lineNum st)) (dependencies st').
Proof using Type.
  intros Htype. revert st. unfold add_records.
  induction names as [|name names IH]; intros st Hline Hall; [done |].
  cbn [foldl].
  set (st1 := mkState (variables st)
                (dependencies st ++
                 [mkDependency (expandVariables go_range (clock st) name (variables st))
                               type_ filePath (lineNum st) parent rule])
                (lineNum st) (S (clock st))).
  destruct (IH st1) as [Hl Hd]; [done | | done].
  simpl. apply Forall_app. split; [done |].
  constructor; [| constructor].
  split; [reflexivity |]. split; [simpl; lia | exact Htype].
Qed.

Lemma process_line_placed (filePath text : string) (st st' : State) :
  process_line go_range filePath st text = Done st' ->
  Forall (well_placed filePath (lineNum st)) (dependencies st) ->
  lineNum st' = S (lineNum st)
  /\ Forall (well_placed filePath (lineNum st')) (dependencies st').
Proof using Type.
  intros Hrun Hall.
  assert (Forall (well_placed filePath (S (lineNum st))) (dependencies st)) as Hall'.
  { eapply Forall_impl; [exact Hall |]. intros dep (? & ? & ?). repeat split; [done | lia | lia | done]. }
  set (st1 := mkState (variables st) (dependencies st) (S (lineNum st)) (clock st)).
  assert (forall type_ parent rule names,
            type_ ∈ ninja_types ->
            forall st0, lineNum st0 = S (lineNum st) ->
            Forall (well_placed filePath (S (lineNum st))) (dependencies st0) ->
            let st2 := add_records go_range type_ filePath parent rule names st0 in
            lineNum st2 = S (lineNum st)
            /\ Forall (well_placed filePath (S (lineNum st))) (dependencies st2)) as Hadd.
  { intros type_ parent rule names Htype st0 Hl Hd.
    destruct (add_records_placed type_ filePath parent rule names st0 Htype)
      as [Hl' Hd']; [lia | by rewrite Hl |].
    split; [congruence | by rewrite <- Hl]. }
  assert ("ninja_include" ∈ ninja_types) as Hinc by (apply list_elem_of_here).
  assert ("ninja_subninja" ∈ ninja_types) as Hsub
    by (apply list_elem_of_further, list_elem_of_here).
  assert ("ninja_input" ∈ ninja_types) as Hinp
    by (do 2 apply list_elem_of_further; apply list_elem_of_here).
  assert ("ninja_implicit" ∈ ninja_types) as Himp
    by (do 3 apply list_elem_of_further; apply list_elem_of_here).
  unfold process_line in Hrun. fold st1 in Hrun.
  destruct (_ || _); [injection Hrun as <-; simpl; by rewrite ?Hl |].
  destruct (2 <? _)%nat; [injection Hrun as <-; simpl; done |].
  destruct (1 <? _)%nat.
  { injection Hrun as <-. unfold add_directive.
    destruct (Hadd "ninja_include" "" "" [TrimSpace (index (FindStringSubmatch includeRegex (TrimSpace text)) 1)] Hinc st1 eq_refl Hall') as [Hl Hd].
    by rewrite Hl. }
  destruct (1 <? _)%nat.
  { injection Hrun as <-. unfold add_directive.
    destruct (Hadd "ninja_subninja" "" "" [TrimSpace (index (FindStringSubmatch subninjaDirRegex (TrimSpace text)) 1)] Hsub st1 eq_refl Hall') as [Hl Hd].
    by rewrite Hl. }
  destruct (3 <? _)%nat; [| injection Hrun as <-; simpl; done].
  destruct (Fields _) as [|parent outputs].
  { destruct (_ ++ _); [| done]. injection Hrun as <-. simpl. done. }
  injection Hrun as <-.
  match goal with
  | |- context [add_records go_range "ninja_implicit" filePath parent ?rule ?implicit
                  (add_records go_range "ninja_input" filePath parent ?rule ?inputs st1)] =>
      destruct (Hadd "ninja_input" parent rule inputs Hinp st1 eq_refl Hall') as [Hl1 Hd1];
      destruct (Hadd "ninja_implicit" parent rule implicit Himp _ Hl1 Hd1) as [Hl2 Hd2]
  end.
  by rewrite Hl2.
Qed.

Lemma process_lines_placed (filePath : string) (lines : list string) :
  forall st st',
    process_lines go_range filePath st lines = Done st' ->
    Forall (well_placed filePath (lineNum st)) (dependencies st) ->
    lineNum st' = (lineNum st + length lines)%nat
    /\ Forall (well_placed filePath (lineNum st')) (dependencies st').
Proof using Type.
  induction lines as [|text lines IH]; intros st st'; simpl.
  - intros [= <-] Hall. split; [lia | done].
  - destruct (process_line go_range filePath st text) as [st1|msg] eqn:Hline; [| done].
    intros Hrun Hall.
    destruct (process_line_placed _ _ _ _ Hline Hall) as [Hl1 Hd1].
    destruct (IH _ _ Hrun Hd1) as [Hl Hd]. split; [lia | done].
Qed.

(** Every record [Extract] returns carries the path of the file it was
    given, the number of a line of the file, counted from 1, and one of
    the four Ninja record types. *)
Theorem Extract_records_are_placed (projectPath filePath : string)
  (lines : list string) (scan_err : option string) (deps : list Dependency) :
  Extract go_range projectPath filePath (Content lines scan_err) = Done (Ok deps) ->
  Forall (well_placed filePath (length lines)) deps.
Proof using Type.
  unfold Extract.
  destruct (process_lines go_range filePath NewState lines) as [st|msg] eqn:Hrun;
    [| done].
  destruct scan_err; [done |]. intros [= <-].
  destruct (process_lines_placed _ _ _ _ Hrun) as [Hl Hd]; [constructor |].
  simpl in Hl. by rewrite Hl in Hd.
Qed.

End facts.

Lemma expandVariables_without_reference_witness :
  expandVariables range_sorted 0 "main.cpp" {[ "main" := "other" ]} = "main.cpp".
Proof.
  apply (expandVariables_without_reference range_sorted 0 "main.cpp"). reflexivity.
Defined.

Lemma Extract_records_are_placed_witness :
  exists deps,
    Extract range_sorted "proj" "proj/build.ninja" (Content lines_build None)
    = Done (Ok deps)
    /\ length deps = 4%nat
    /\ Forall (well_placed "proj/build.ninja" 5) deps.
Proof.
  eassert (Extract range_sorted "proj" "proj/build.ninja" (Content lines_build None)
           = Done (Ok _)) as Hrun by (vm_compute; reflexivity).
  eexists. split; [exact Hrun |]. split; [reflexivity |].
  exact (Extract_records_are_placed _ _ _ _ _ _ Hrun).
Defined.

End NinjaFacts.
